(** * InstaScrape API: admission gateway and ledgers

    A shallow embedding of the credit ledger (credit-system.js), the rate
    limiter and abuse ledger (abuse-protection.js), the legality gate
    (blacklist-manager.js) and the two scrape handlers of index.js, followed
    by the properties proved about them.

    Conventions of the embedding.
    - Strings are Rocq strings of 8-bit characters; [toLowerCase] and [trim]
      act on the ASCII range.
    - Instants ([Date.now()], ISO date strings) are milliseconds in [Z]; an
      ISO string written by [toISOString] and read back by [new Date] is the
      same instant, so both are the one number.
    - Numbers are integers in [Z], or [NaN]; every number the ledgers compute
      stays far inside the range where doubles are exact.
    - A [Map] is a [gmap], a [Set] is a [gset]; an object stored in a map and
      mutated in place is written back to the map.
    - [await] splits a handler into synchronous segments; what a handler
      keeps in local variables across an [await] is a [pending] record.
    - A call of an [async] function that its caller does not await
      ([reportAbuse]) runs up to its first [await] inside the caller; the
      rest of it is a [filer] record in the state, resumed by an event of
      its own, in any order with everything else. *)

From Stdlib Require Import ZArith Lia Ascii.
From stdpp Require Import gmap strings list fin_maps pretty.

Local Open Scope Z_scope.

(* ===================================================================== *)
(** ** JavaScript primitives used by the sources *)
(* ===================================================================== *)

Module JS.

(** *** Strings *)

Definition lower_ascii (c : ascii) : ascii :=
  let n := nat_of_ascii c in
  if (Nat.leb 65 n && Nat.leb n 90)%bool then ascii_of_nat (n + 32) else c.

(** [s.toLowerCase()] *)
Fixpoint toLowerCase (s : string) : string :=
  match s with
  | EmptyString => EmptyString
  | String c r => String (lower_ascii c) (toLowerCase r)
  end.

(** [s.startsWith(p)] *)
Fixpoint startsWith (s p : string) {struct p} : bool :=
  match p, s with
  | EmptyString, _ => true
  | String _ _, EmptyString => false
  | String a p', String b s' => if decide (a = b) then startsWith s' p' else false
  end.

(** [s.includes(sub)] *)
Fixpoint includes (s sub : string) : bool :=
  startsWith s sub ||
  match s with
  | EmptyString => false
  | String _ r => includes r sub
  end.

(** [s.split(sep)] for a one-character separator: never the empty list. *)
Fixpoint split (sep : ascii) (s : string) : list string :=
  match s with
  | EmptyString => [EmptyString]
  | String c r =>
      if decide (c = sep) then EmptyString :: split sep r
      else match split sep r with
           | [] => [String c EmptyString]
           | w :: ws => String c w :: ws
           end
  end.

(** [parts.join(sep)] *)
Fixpoint join (sep : string) (parts : list string) : string :=
  match parts with
  | [] => EmptyString
  | [w] => w
  | w :: ws => w +:+ sep +:+ join sep ws
  end.

Fixpoint trimStart (s : string) : string :=
  match s with
  | EmptyString => EmptyString
  | String c r => if Ascii.is_space c then trimStart r else s
  end.

(** [s.trim()] *)
Definition trim (s : string) : string :=
  String.rev (trimStart (String.rev (trimStart s))).

(** A string in a condition: [undefined], [null] and the empty string are
    falsy. *)
Definition truthy (d : option string) : option string :=
  match d with Some EmptyString => None | _ => d end.

(** [list.some(p)] *)
Definition some {A} (p : A → bool) (l : list A) : bool := existsb p l.

(** *** Numbers and the values the ledger arithmetic meets *)

Inductive number := Num (n : Z) | NaN.

(** A value is a number, a string, or an object or function; of the last
    only the text its string conversion yields matters here. *)
Inductive value :=
| VNumber (x : number)
| VString (s : string)
| VObject (text : string).

Definition toString (v : value) : string :=
  match v with
  | VNumber (Num n) => pretty n
  | VNumber NaN => "NaN"
  | VString s => s
  | VObject t => t
  end.

(** [ToNumber].  The only strings the ledger ever holds are produced by
    [add] below with an object operand, so they contain the object's text
    and are no numeric literal. *)
Definition toNumber (v : value) : number :=
  match v with
  | VNumber x => x
  | VString _ => NaN
  | VObject _ => NaN
  end.

Definition num_add (a b : number) : number :=
  match a, b with Num x, Num y => Num (x + y) | _, _ => NaN end.

Definition num_sub (a b : number) : number :=
  match a, b with Num x, Num y => Num (x - y) | _, _ => NaN end.

(** [a + b]: concatenation as soon as one operand is not a number. *)
Definition add (a b : value) : value :=
  match a, b with
  | VNumber x, VNumber y => VNumber (num_add x y)
  | _, _ => VString (toString a +:+ toString b)
  end.

(** [a - b] *)
Definition sub (a b : value) : number := num_sub (toNumber a) (toNumber b).

(** [a < b] with a number on the left: false when either side is [NaN]. *)
Definition lt (a : number) (b : value) : bool :=
  match a, toNumber b with
  | Num x, Num y => bool_decide (x < y)
  | _, _ => false
  end.

(** *** Property lookup on an object literal *)

(** [Object.prototype] members every object literal inherits, with the text
    their value converts to. *)
Definition native (name : string) : string :=
  "function " +:+ name +:+ "() { [native code] }".

Definition object_prototype : list (string * string) :=
  [ ("constructor", native "Object");
    ("__defineGetter__", native "__defineGetter__");
    ("__defineSetter__", native "__defineSetter__");
    ("hasOwnProperty", native "hasOwnProperty");
    ("__lookupGetter__", native "__lookupGetter__");
    ("__lookupSetter__", native "__lookupSetter__");
    ("isPrototypeOf", native "isPrototypeOf");
    ("propertyIsEnumerable", native "propertyIsEnumerable");
    ("toString", native "toString");
    ("valueOf", native "valueOf");
    ("__proto__", "[object Object]");
    ("toLocaleString", native "toLocaleString") ].

Fixpoint assoc {A} (k : string) (l : list (string * A)) : option A :=
  match l with
  | [] => None
  | (k', v) :: r => if decide (k = k') then Some v else assoc k r
  end.

(** [obj[key]] for a literal [obj] whose own properties are the numbers
    [own]: [None] is [undefined]. *)
Definition get (own : list (string * Z)) (key : string) : option value :=
  match assoc key own with
  | Some n => Some (VNumber (Num n))
  | None => VObject <$> assoc key object_prototype
  end.

(** [v || d]: of the values [get] yields only [0] and [undefined] are falsy. *)
Definition or_default (v : option value) (d : Z) : value :=
  match v with
  | None => VNumber (Num d)
  | Some (VNumber (Num 0)) => VNumber (Num d)
  | Some (VNumber NaN) => VNumber (Num d)
  | Some (VString EmptyString) => VNumber (Num d)
  | Some w => w
  end.

(** A value in a condition: of the values [get] yields, [undefined], [0],
    [NaN] and the empty string are falsy. *)
Definition is_truthy (v : option value) : bool :=
  match v with
  | None => false
  | Some (VNumber (Num 0)) => false
  | Some (VNumber NaN) => false
  | Some (VString EmptyString) => false
  | Some _ => true
  end.

(** [l.slice(start)]: a negative [start] counts from the end. *)
Definition slice_from {A} (start : Z) (l : list A) : list A :=
  let n := Z.of_nat (length l) in
  drop (Z.to_nat (if bool_decide (start < 0) then Z.max (n + start) 0
                  else Z.min start n)) l.

End JS.

(* ===================================================================== *)
(** ** credit-system.js: CreditManager *)
(* ===================================================================== *)

Module Credit.
Import JS.

Record token := Token {
  id : string;
  tier : string;
  credits : value;
  createdAt : Z;
  expiresAt : Z;
  paymentId : string;
  usedCredits : value;
  lastUsed : option Z
}.

(** [this.tokens] *)
Abbreviation tokens := (gmap string token).

(** [this.credits]: cost of one scrape per tier *)
Definition cost_table : list (string * Z) :=
  [ ("basic", 1); ("premium", 5); ("custom", 10) ].

(** [this.credits[tier] || 1] *)
Definition creditsNeededFor (tier : string) : value :=
  or_default (get cost_table tier) 1.

Definition creditAmounts : list (string * Z) :=
  [ ("basic", 10); ("premium", 20); ("custom", 50) ].

Definition getCreditsForTier (tier : string) : value :=
  or_default (get creditAmounts tier) 1.

Record paymentData := PaymentData { pd_tier : string; pd_paymentId : string }.

Record issued := Issued {
  accessToken : string;
  i_credits : value;
  i_tier : string;
  i_expiresAt : Z
}.

Definition thirty_days : Z := 30 * 24 * 60 * 60 * 1000.

(** [generateAccessToken(paymentData)]; [tokenId] is what
    [crypto.randomBytes(16).toString('hex')] returned and [now] the clock. *)
Definition generateAccessToken (tokenId : string) (now : Z)
    (ts : tokens) (p : paymentData) : tokens * issued :=
  let t := {| id := tokenId;
              tier := pd_tier p;
              credits := getCreditsForTier (pd_tier p);
              createdAt := now;
              expiresAt := now + thirty_days;
              paymentId := pd_paymentId p;
              usedCredits := VNumber (Num 0);
              lastUsed := None |} in
  (<[tokenId := t]> ts,
   {| accessToken := tokenId; i_credits := credits t;
      i_tier := tier t; i_expiresAt := expiresAt t |}).

Inductive consumed :=
| Invalid                                          (* 'Invalid access token' *)
| Expired                                          (* 'Access token expired' *)
| Insufficient (available : number) (needed : value) (* 'Insufficient credits' *)
| Valid (remainingCredits : number) (tier : string).

Definition valid (r : consumed) : bool :=
  match r with Valid _ _ => true | _ => false end.

Definition error (r : consumed) : option string :=
  match r with
  | Invalid => Some "Invalid access token"
  | Expired => Some "Access token expired"
  | Insufficient _ _ => Some "Insufficient credits"
  | Valid _ _ => None
  end.

Definition set_used (t : token) (u : value) (now : Z) : token :=
  {| id := id t; tier := tier t; credits := credits t;
     createdAt := createdAt t; expiresAt := expiresAt t;
     paymentId := paymentId t; usedCredits := u; lastUsed := Some now |}.

(** [validateAndConsumeCredit(accessToken, requestedTier)] *)
Definition validateAndConsumeCredit (now : Z) (ts : tokens)
    (accessToken requestedTier : string) : tokens * consumed :=
  match ts !! accessToken with
  | None => (ts, Invalid)
  | Some t =>
      if bool_decide (now > expiresAt t) then (delete accessToken ts, Expired)
      else
        let creditsNeeded := creditsNeededFor requestedTier in
        let availableCredits := sub (credits t) (usedCredits t) in
        if lt availableCredits creditsNeeded
        then (ts, Insufficient availableCredits creditsNeeded)
        else
          let t' := set_used t (add (usedCredits t) creditsNeeded) now in
          (<[accessToken := t']> ts,
           Valid (sub (credits t') (usedCredits t')) (tier t'))
  end.

Record tokenInfo := TokenInfo {
  ti_tier : string;
  totalCredits : value;
  ti_usedCredits : value;
  remainingCredits : number;
  ti_expiresAt : Z;
  ti_createdAt : Z
}.

(** [getTokenInfo(accessToken)] *)
Definition getTokenInfo (ts : tokens) (accessToken : string) : option tokenInfo :=
  t ← ts !! accessToken;
  Some {| ti_tier := tier t; totalCredits := credits t;
          ti_usedCredits := usedCredits t;
          remainingCredits := sub (credits t) (usedCredits t);
          ti_expiresAt := expiresAt t; ti_createdAt := createdAt t |}.

(** [cleanExpiredTokens()] *)
Definition cleanExpiredTokens (now : Z) (ts : tokens) : tokens :=
  filter (λ kv, ¬ (expiresAt kv.2 < now)) ts.

Record stats := Stats {
  totalTokens : nat;
  totalCreditsIssued : value;
  totalCreditsUsed : value;
  basicTokens : nat;
  premiumTokens : nat;
  customTokens : nat
}.

(** [getStats()]; [activeTokens] is [Array.from(this.tokens.values())], the
    accounts in the order the table lists them. *)
Definition getStats (activeTokens : list token) : stats :=
  {| totalTokens := length activeTokens;
     totalCreditsIssued :=
       foldl (λ sum t, add sum (credits t)) (VNumber (Num 0)) activeTokens;
     totalCreditsUsed :=
       foldl (λ sum t, add sum (usedCredits t)) (VNumber (Num 0)) activeTokens;
     basicTokens := length (filter (λ t, tier t = "basic") activeTokens);
     premiumTokens := length (filter (λ t, tier t = "premium") activeTokens);
     customTokens := length (filter (λ t, tier t = "custom") activeTokens) |}.

End Credit.

(* ===================================================================== *)
(** ** credit-system.js: SessionManager *)
(* ===================================================================== *)

Module Session.
Import JS.

Record session := Session {
  id : string;
  tier : string;
  createdAt : Z;
  expiresAt : Z;
  paymentId : string;
  requestCount : Z;
  lastUsed : option Z
}.

(** [this.sessions] *)
Abbreviation sessions := (gmap string session).

Definition sessionDuration : list (string * Z) :=
  [ ("basic", 1 * 60 * 60 * 1000);
    ("premium", 24 * 60 * 60 * 1000);
    ("custom", 7 * 24 * 60 * 60 * 1000) ].

(** [new Date(Date.now() + d)] as an instant, [NaN] for an invalid date:
    [undefined] added to a number is [NaN], and the string an object operand
    turns the sum into is no date. *)
Definition dateAfter (now : Z) (d : option value) : number :=
  match d with
  | Some d => toNumber (add (VNumber (Num now)) d)
  | None => NaN
  end.

Inductive created :=
| SessionToken (sessionToken tier : string) (expiresAt : Z)
| RangeError (message : string).   (* thrown by [toISOString] on an invalid date *)

(** [createSession(paymentData)]; [sessionId] is what
    [crypto.randomBytes(16).toString('hex')] returned.  The session literal
    is evaluated before [this.sessions.set]: when [toISOString] throws,
    nothing is stored. *)
Definition createSession (sessionId : string) (now : Z) (ss : sessions)
    (p : Credit.paymentData) : sessions * created :=
  match dateAfter now (get sessionDuration (Credit.pd_tier p)) with
  | Num expires =>
      let s := {| id := sessionId;
                  tier := Credit.pd_tier p;
                  createdAt := now;
                  expiresAt := expires;
                  paymentId := Credit.pd_paymentId p;
                  requestCount := 0;
                  lastUsed := None |} in
      (<[sessionId := s]> ss, SessionToken sessionId (tier s) (expiresAt s))
  | NaN => (ss, RangeError "Invalid time value")
  end.

Inductive validated :=
| InvalidSession                                  (* 'Invalid session token' *)
| SessionExpired                                  (* 'Session expired' *)
| ValidSession (tier : string) (requestCount : Z) (expiresAt : Z).

(** [validateSession(sessionToken)] *)
Definition validateSession (now : Z) (ss : sessions) (sessionToken : string)
    : sessions * validated :=
  match ss !! sessionToken with
  | None => (ss, InvalidSession)
  | Some s =>
      if bool_decide (now > expiresAt s) then (delete sessionToken ss, SessionExpired)
      else
        let s' := {| id := id s; tier := tier s; createdAt := createdAt s;
                     expiresAt := expiresAt s; paymentId := paymentId s;
                     requestCount := requestCount s + 1;
                     lastUsed := Some now |} in
        (<[sessionToken := s']> ss,
         ValidSession (tier s') (requestCount s') (expiresAt s'))
  end.

End Session.

(* ===================================================================== *)
(** ** The platform's URL parser *)
(* ===================================================================== *)

(** What [new URL(url)] exposes to the sources.  The parser itself belongs to
    the platform: the functions below take it as [parseURL], [None] standing
    for the [TypeError] it throws on input that is no absolute URL. *)
Record URL := MkURL {
  protocol : string;
  host : string;
  hostname : string;
  pathname : string
}.

(* ===================================================================== *)
(** ** abuse-protection.js: AbuseProtectionSystem *)
(* ===================================================================== *)

Module Abuse.
Import JS.

Record ipData := IpData { requests : list Z; failures : list Z }.
Record domainData := DomainData { d_requests : list Z }.

Inductive severity := LOW | MEDIUM | HIGH.

Inductive metadata :=
| NoMeta                                        (* {} *)
| Attempts (reason : string) (attempts : nat)   (* { reason, attempts } *)
| Manual.                                       (* { manual: true } *)

(** An abuse report; its [id] (clock and random suffix) is left out. *)
Record report := Report {
  r_timestamp : Z;
  r_ip : string;
  r_reason : string;
  r_metadata : metadata;
  r_severity : severity
}.

(** The part of an access-log line the handlers decide. *)
Record logEntry := LogEntry {
  l_timestamp : Z;
  l_ip : string;
  l_targetUrl : string;
  l_success : bool
}.

(** A call of [reportAbuse] under way.  The function is [async] and none of
    its callers awaits it: the call has built its report and awaits
    [fs.readFile], or it has read, pushed and trimmed and awaits
    [fs.writeFile] of [reports]. *)
Inductive filer :=
| AwaitRead (r : report)
| AwaitWrite (reports : list report).

Record state := State {
  ipTracker : gmap string ipData;
  domainTracker : gmap string domainData;
  suspiciousIPs : gset string;
  bannedIPs : gset string;
  abuseFile : list report;      (* abuse-reports.json; none when it is missing *)
  filing : list filer;          (* the calls of reportAbuse under way *)
  logFile : list logEntry       (* access.log *)
}.

Definition init : state :=
  {| ipTracker := ∅; domainTracker := ∅; suspiciousIPs := ∅;
     bannedIPs := ∅; abuseFile := []; filing := []; logFile := [] |}.

(** [this.limits] *)
Definition maxRequestsPerIP : Z := 100.
Definition maxRequestsPerDomain : Z := 60.
Definition maxFailedAttempts : Z := 10.
Definition maxBlacklistAttempts : Z := 3.
Definition windowMs : Z := 60 * 60 * 1000.

Definition set_ipTracker (st : state) (m : gmap string ipData) : state :=
  {| ipTracker := m; domainTracker := domainTracker st;
     suspiciousIPs := suspiciousIPs st; bannedIPs := bannedIPs st;
     abuseFile := abuseFile st; filing := filing st; logFile := logFile st |}.

Definition set_domainTracker (st : state) (m : gmap string domainData) : state :=
  {| ipTracker := ipTracker st; domainTracker := m;
     suspiciousIPs := suspiciousIPs st; bannedIPs := bannedIPs st;
     abuseFile := abuseFile st; filing := filing st; logFile := logFile st |}.

Definition set_suspiciousIPs (st : state) (s : gset string) : state :=
  {| ipTracker := ipTracker st; domainTracker := domainTracker st;
     suspiciousIPs := s; bannedIPs := bannedIPs st;
     abuseFile := abuseFile st; filing := filing st; logFile := logFile st |}.

Definition set_bannedIPs (st : state) (s : gset string) : state :=
  {| ipTracker := ipTracker st; domainTracker := domainTracker st;
     suspiciousIPs := suspiciousIPs st; bannedIPs := s;
     abuseFile := abuseFile st; filing := filing st; logFile := logFile st |}.

Definition set_abuseFile (st : state) (l : list report) : state :=
  {| ipTracker := ipTracker st; domainTracker := domainTracker st;
     suspiciousIPs := suspiciousIPs st; bannedIPs := bannedIPs st;
     abuseFile := l; filing := filing st; logFile := logFile st |}.

Definition set_filing (st : state) (l : list filer) : state :=
  {| ipTracker := ipTracker st; domainTracker := domainTracker st;
     suspiciousIPs := suspiciousIPs st; bannedIPs := bannedIPs st;
     abuseFile := abuseFile st; filing := l; logFile := logFile st |}.

Definition set_logFile (st : state) (l : list logEntry) : state :=
  {| ipTracker := ipTracker st; domainTracker := domainTracker st;
     suspiciousIPs := suspiciousIPs st; bannedIPs := bannedIPs st;
     abuseFile := abuseFile st; filing := filing st; logFile := l |}.

Definition highSeverityKeywords : list string :=
  ["blacklist"; "ban"; "illegal"; "attack"; "flood"].
Definition mediumSeverityKeywords : list string :=
  ["rate limit"; "suspicious"; "failure"].

(** [calculateSeverity(reason)] *)
Definition calculateSeverity (reason : string) : severity :=
  let reasonLower := toLowerCase reason in
  if some (λ keyword, includes reasonLower keyword) highSeverityKeywords then HIGH
  else if some (λ keyword, includes reasonLower keyword) mediumSeverityKeywords
  then MEDIUM
  else LOW.

(** [reports.slice(-n)] *)
Definition last_n {A} (n : nat) (l : list A) : list A := drop (length l - n) l.

(** [reportAbuse(ip, reason, metadata)] up to its first [await]: the report
    is built and the read of the file requested.  The file itself is touched
    only when the call is resumed, see [resumeReport]. *)
Definition reportAbuse (now : Z) (st : state) (ip reason : string)
    (meta : metadata) : state :=
  let r := {| r_timestamp := now; r_ip := ip; r_reason := reason;
              r_metadata := meta; r_severity := calculateSeverity reason |} in
  set_filing st (filing st ++ [AwaitRead r]).

(** [reportAbuse] resumed: the [k]-th call under way is handed what it
    awaited; [ok] tells whether that went through.  After the read,
    [reports] is the array in the file, or [[]] when [fs.readFile] or
    [JSON.parse] threw; the report is pushed, the array cut to its last 1000
    and the write requested.  After the write the file holds [reports]; when
    [fs.writeFile] threw, the error is logged and dropped, and the file is
    taken to be as it was.  Either way the call is over. *)
Definition resumeReport (st : state) (k : nat) (ok : bool) : state :=
  match filing st !! k with
  | Some (AwaitRead r) =>
      let reports := (if ok then abuseFile st else []) ++ [r] in
      let reports :=
        if bool_decide (1000 < length reports)%nat then last_n 1000 reports
        else reports in
      set_filing st (<[k := AwaitWrite reports]> (filing st))
  | Some (AwaitWrite reports) =>
      set_filing (if ok then set_abuseFile st reports else st) (delete k (filing st))
  | None => st
  end.

(** [flagSuspiciousIP(ip, reason)] *)
Definition flagSuspiciousIP (now : Z) (st : state) (ip reason : string) : state :=
  reportAbuse now (set_suspiciousIPs st ({[ip]} ∪ suspiciousIPs st)) ip reason NoMeta.

Inductive rateResult :=
| IPLimit (reason : string) (resetTime : Z)   (* allowed: false, resetTime *)
| FailureLimit (reason : string)              (* allowed: false, banned: true *)
| DomainLimit (reason : string)               (* allowed: false *)
| Allowed (remaining : Z).                    (* allowed: true *)

Definition allowed (r : rateResult) : bool :=
  match r with Allowed _ => true | _ => false end.

Definition resetTime (r : rateResult) : option Z :=
  match r with IPLimit _ t => Some t | _ => None end.

(** [l.filter(time => now - time < this.limits.windowMs)] *)
Definition prune (now : Z) (l : list Z) : list Z :=
  filter (λ time, now - time < windowMs) l.

(** [Math.min(...l)], on the non-empty lists it is applied to *)
Definition minimum (l : list Z) : Z :=
  match l with [] => 0 | x :: r => foldr Z.min x r end.

Definition len (l : list Z) : Z := Z.of_nat (length l).

Definition ipKey (ip : string) : string := "ip_" +:+ ip.
Definition domainKey (domain : string) : string := "domain_" +:+ domain.

Definition emptyIp : ipData := {| requests := []; failures := [] |}.
Definition emptyDomain : domainData := {| d_requests := [] |}.

(** [checkRateLimit(ip, domain)] *)
Definition checkRateLimit (now : Z) (st : state) (ip : string)
    (domain : option string) : state * rateResult :=
  let old := default emptyIp (ipTracker st !! ipKey ip) in
  let ipData := {| requests := prune now (requests old);
                   failures := prune now (failures old) |} in
  let st := set_ipTracker st (<[ipKey ip := ipData]> (ipTracker st)) in
  if bool_decide (len (requests ipData) >= maxRequestsPerIP) then
    (flagSuspiciousIP now st ip "Rate limit exceeded",
     IPLimit ("Rate limit exceeded: " +:+ pretty (len (requests ipData)) +:+ "/"
              +:+ pretty maxRequestsPerIP +:+ " requests per hour")
             (minimum (requests ipData) + windowMs))
  else if bool_decide (len (failures ipData) >= maxFailedAttempts) then
    (set_bannedIPs st ({[ip]} ∪ bannedIPs st),
     FailureLimit ("Too many failed attempts: " +:+ pretty (len (failures ipData))
                   +:+ "/" +:+ pretty maxFailedAttempts))
  else
    match JS.truthy domain with
    | Some domain =>
        let oldd := default emptyDomain (domainTracker st !! domainKey domain) in
        let domainData := {| d_requests := prune now (d_requests oldd) |} in
        let st := set_domainTracker st
                    (<[domainKey domain := domainData]> (domainTracker st)) in
        if bool_decide (len (d_requests domainData) >= maxRequestsPerDomain) then
          (st, DomainLimit ("Domain rate limit exceeded: "
                            +:+ pretty (len (d_requests domainData)) +:+ "/"
                            +:+ pretty maxRequestsPerDomain
                            +:+ " requests per hour for " +:+ domain))
        else (st, Allowed (maxRequestsPerIP - len (requests ipData)))
    | None => (st, Allowed (maxRequestsPerIP - len (requests ipData)))
    end.

(** [recordRequest(ip, domain)] *)
Definition recordRequest (now : Z) (st : state) (ip : string)
    (domain : option string) : state :=
  let old := default emptyIp (ipTracker st !! ipKey ip) in
  let st := set_ipTracker st
              (<[ipKey ip := {| requests := requests old ++ [now];
                                failures := failures old |}]> (ipTracker st)) in
  match JS.truthy domain with
  | Some domain =>
      let oldd := default emptyDomain (domainTracker st !! domainKey domain) in
      set_domainTracker st
        (<[domainKey domain := {| d_requests := d_requests oldd ++ [now] |}]>
           (domainTracker st))
  | None => st
  end.

(** [recordFailure(ip, reason)] *)
Definition recordFailure (now : Z) (st : state) (ip reason : string) : state :=
  let old := default emptyIp (ipTracker st !! ipKey ip) in
  let new := {| requests := requests old; failures := failures old ++ [now] |} in
  let st := set_ipTracker st (<[ipKey ip := new]> (ipTracker st)) in
  if includes reason "blacklist" || includes reason "Blacklisted" then
    let failures := prune now (failures new) in
    if bool_decide (len failures >= maxBlacklistAttempts) then
      reportAbuse now (set_bannedIPs st ({[ip]} ∪ bannedIPs st)) ip
        "Multiple blacklist bypass attempts" (Attempts reason (length failures))
    else st
  else st.

Inductive ipStatus := Banned | Suspicious | Clean.

(** [checkIPStatus(ip)] *)
Definition checkIPStatus (st : state) (ip : string) : ipStatus :=
  if bool_decide (ip ∈ bannedIPs st) then Banned
  else if bool_decide (ip ∈ suspiciousIPs st) then Suspicious
  else Clean.

Definition statusReason (s : ipStatus) : string :=
  match s with
  | Banned => "IP banned due to abuse"
  | Suspicious => "IP flagged for suspicious activity"
  | Clean => "No issues detected"
  end.

(** [l.filter(time => time > cutoff)] with [cutoff = now - windowMs] *)
Definition afterCutoff (now : Z) (l : list Z) : list Z :=
  filter (λ time, time > now - windowMs) l.

(** [cleanOldEntries()] *)
Definition cleanOldEntries (now : Z) (st : state) : state :=
  let ips := omap (λ d,
               let d' := {| requests := afterCutoff now (requests d);
                            failures := afterCutoff now (failures d) |} in
               match requests d', failures d' with
               | [], [] => None
               | _, _ => Some d'
               end) (ipTracker st) in
  let doms := omap (λ d,
                let d' := {| d_requests := afterCutoff now (d_requests d) |} in
                match d_requests d' with [] => None | _ => Some d' end)
                (domainTracker st) in
  set_domainTracker (set_ipTracker st ips) doms.

(** [banIP(ip, reason)] *)
Definition banIP (now : Z) (st : state) (ip reason : string) : state :=
  reportAbuse now (set_bannedIPs st ({[ip]} ∪ bannedIPs st)) ip
    ("Manual ban: " +:+ reason) Manual.

(** [unbanIP(ip)] *)
Definition unbanIP (st : state) (ip : string) : state :=
  set_suspiciousIPs (set_bannedIPs st (bannedIPs st ∖ {[ip]}))
                    (suspiciousIPs st ∖ {[ip]}).

(** [extractDomain(url)] *)
Definition extractDomain (parseURL : string → option URL) (url : string) : string :=
  match parseURL url with
  | Some u => toLowerCase (hostname u)
  | None => "invalid-url"
  end.

(** [logRequest(req, result)] *)
Definition logRequest (now : Z) (st : state) (ip url : string) (success : bool)
    : state :=
  set_logFile st (logFile st ++ [ {| l_timestamp := now; l_ip := ip;
                                     l_targetUrl := url; l_success := success |} ]).

#[global] Instance severity_eq_dec : EqDecision severity.
Proof. solve_decision. Defined.

(** [getRecentAbuse(limit)]: the tail of the report file, most recent first;
    a file that is missing reads as no reports. *)
Definition getRecentAbuse (st : state) (limit : Z) : list report :=
  reverse (slice_from (- limit) (abuseFile st)).

(** *** The operations, as data *)

Inductive operation :=
| OpCheckRateLimit (ip : string) (domain : option string)
| OpRecordRequest (ip : string) (domain : option string)
| OpRecordFailure (ip reason : string)
| OpFlagSuspiciousIP (ip reason : string)
| OpReportAbuse (ip reason : string) (meta : metadata)
| OpResumeReport (k : nat) (ok : bool)
| OpCleanOldEntries
| OpBanIP (ip reason : string)
| OpUnbanIP (ip : string)
| OpLogRequest (ip url : string) (success : bool).

Definition perform (st : state) (timed : Z * operation) : state :=
  let '(now, op) := timed in
  match op with
  | OpCheckRateLimit ip domain => (checkRateLimit now st ip domain).1
  | OpRecordRequest ip domain => recordRequest now st ip domain
  | OpRecordFailure ip reason => recordFailure now st ip reason
  | OpFlagSuspiciousIP ip reason => flagSuspiciousIP now st ip reason
  | OpReportAbuse ip reason meta => reportAbuse now st ip reason meta
  | OpResumeReport k ok => resumeReport st k ok
  | OpCleanOldEntries => cleanOldEntries now st
  | OpBanIP ip reason => banIP now st ip reason
  | OpUnbanIP ip => unbanIP st ip
  | OpLogRequest ip url success => logRequest now st ip url success
  end.

Definition performAll (st : state) (ops : list (Z * operation)) : state :=
  foldl perform st ops.

End Abuse.

(* ===================================================================== *)
(** ** blacklist-manager.js: BlacklistManager *)
(* ===================================================================== *)

Module Blacklist.
Import JS.

Definition staticBlacklist : list string :=
  [ "facebook.com"; "www.facebook.com"; "m.facebook.com";
    "instagram.com"; "www.instagram.com";
    "twitter.com"; "www.twitter.com"; "x.com";
    "linkedin.com"; "www.linkedin.com";
    "tiktok.com"; "www.tiktok.com";
    "snapchat.com"; "www.snapchat.com";
    "amazon.com"; "www.amazon.com"; "amazon.co.uk";
    "ebay.com"; "www.ebay.com";
    "etsy.com"; "www.etsy.com";
    "shopify.com"; "www.shopify.com";
    "google.com"; "www.google.com";
    "bing.com"; "www.bing.com";
    "yahoo.com"; "www.yahoo.com";
    "youtube.com"; "www.youtube.com";
    "netflix.com"; "www.netflix.com";
    "spotify.com"; "www.spotify.com";
    "paypal.com"; "www.paypal.com";
    "stripe.com"; "www.stripe.com";
    "gov.uk"; "gov.rs"; "gov.us";
    "cloudflare.com"; "recaptcha.com" ].

Record robots := Robots { allowed : bool; reason : string; robotsTxt : option string }.

Record cached := Cached { result : robots; timestamp : Z }.

(** [this.domains] once [loadBlacklist] has run, and [this.robotsCache]. *)
Record state := State {
  domains : gset string;
  robotsCache : gmap string cached
}.

(** [loadBlacklist()], given the dynamic entries of blacklist.json
    (none when the file is missing). *)
Definition loadBlacklist (dynamic : list string) : state :=
  {| domains := list_to_set (staticBlacklist ++ dynamic); robotsCache := ∅ |}.

(** [addDomain(domain)] *)
Definition addDomain (st : state) (domain : string) : state :=
  {| domains := {[toLowerCase domain]} ∪ domains st; robotsCache := robotsCache st |}.

(** [line.split(':')[1].trim()] *)
Definition field (line : string) : string :=
  trim (default EmptyString (split ":" line !! 1%nat)).

(** [agent === '*' || agent.includes('bot') || agent.includes('spider')] *)
Definition applicable (agent : string) : bool :=
  bool_decide (agent = "*") || includes agent "bot" || includes agent "spider".

(** [disallowPath === '/' || (disallowPath && path.startsWith(disallowPath))] *)
Definition disallows (disallowPath path : string) : bool :=
  bool_decide (disallowPath = "/")
  || (negb (bool_decide (disallowPath = EmptyString)) && startsWith path disallowPath).

(** The loop of [parseRobotsTxt]: [true] when it leaves through [break]. *)
Fixpoint scan (path : string) (currentUserAgent : bool) (lines : list string) : bool :=
  match lines with
  | [] => false
  | line :: rest =>
      let currentUserAgent :=
        if startsWith line "user-agent:" then applicable (field line)
        else currentUserAgent in
      if currentUserAgent && startsWith line "disallow:" then
        if disallows (field line) path then true
        else scan path currentUserAgent rest
      else scan path currentUserAgent rest
  end.

(** [content.split('\n').map(line => line.trim().toLowerCase())] *)
Definition robotsLines (content : string) : list string :=
  (λ line, toLowerCase (trim line)) <$> split "010" content.

(** [parseRobotsTxt(content, path)] *)
Definition parseRobotsTxt (content path : string) : robots :=
  let blocked := scan path false (robotsLines content) in
  {| allowed := negb blocked;
     reason := if blocked then "Blocked by robots.txt" else "Allowed by robots.txt";
     robotsTxt := Some content |}.

Inductive blacklisted :=
| Blocked (reason : string) (domain : option string)
| NotBlocked.                                      (* 'Domain allowed' *)

Definition blocked (b : blacklisted) : bool :=
  match b with Blocked _ _ => true | NotBlocked => false end.

(** The parent-domain loop: [parts.slice(i).join('.')] for
    [i = 0 .. parts.length - 2], leaving at the first hit. *)
Fixpoint checkParents (domains : gset string) (parts : list string) : option string :=
  match parts with
  | [] => None
  | [_] => None
  | _ :: rest =>
      let parentDomain := join "." parts in
      if bool_decide (parentDomain ∈ domains) then Some parentDomain
      else checkParents domains rest
  end.

(** [isBlacklisted(url)] *)
Definition isBlacklisted (parseURL : string → option URL) (st : state)
    (url : string) : blacklisted :=
  match parseURL url with
  | None => Blocked "Invalid URL" None
  | Some urlObj =>
      let domain := toLowerCase (hostname urlObj) in
      if bool_decide (domain ∈ domains st) then Blocked "Domain in blacklist" (Some domain)
      else match checkParents (domains st) (split "." domain) with
           | Some parentDomain => Blocked "Parent domain in blacklist" (Some parentDomain)
           | None => NotBlocked
           end
  end.

(** A call returns or throws. *)
Inductive outcome (A : Type) :=
| Returned (a : A)
| Threw (message : string).
Arguments Returned {A} a.
Arguments Threw {A} message.

(** What the request for robots.txt came to. *)
Inductive fetched :=
| Status (code : Z)        (* answered, [statusCode !== 200] when [code ≠ 200] *)
| Body (data : string)     (* answered 200 with this body *)
| NetError
| TimedOut.

Definition day : Z := 24 * 60 * 60 * 1000.

Definition plain (reason : string) : robots :=
  {| allowed := true; reason := reason; robotsTxt := None |}.

Definition quote : string := String "034" EmptyString.

(** [https.get] refuses, by throwing, a URL of another protocol. *)
Definition invalidProtocol (protocol : string) : string :=
  "Protocol " +:+ quote +:+ protocol +:+ quote +:+ " not supported. Expected "
  +:+ quote +:+ "https:" +:+ quote.

(** [checkRobotsTxt(url)]; one clock reading serves the cache test and the
    cache write.  What [https.get] throws inside the promise rejects it, past
    the [catch] of the function. *)
Definition checkRobotsTxt (parseURL : string → option URL) (now : Z) (st : state)
    (url : string) (answer : fetched) : state * outcome robots :=
  match parseURL url with
  | None => (st, Returned (plain "Invalid URL"))
  | Some urlObj =>
      let domain := toLowerCase (hostname urlObj) in
      let store r :=
        ({| domains := domains st;
            robotsCache := <[domain := {| result := r; timestamp := now |}]> (robotsCache st) |},
         Returned r) in
      let fetch :=
        if negb (bool_decide (protocol urlObj = "https:"))
        then (st, Threw (invalidProtocol (protocol urlObj)))
        else
          match answer with
          | Status 200 => store (parseRobotsTxt EmptyString (pathname urlObj))
          | Status _ => store (plain "No robots.txt found")
          | Body data => store (parseRobotsTxt data (pathname urlObj))
          | NetError => (st, Returned (plain "robots.txt check failed"))
          | TimedOut => (st, Returned (plain "robots.txt timeout"))
          end in
      match robotsCache st !! domain with
      | Some c =>
          if bool_decide (now - timestamp c < day) then (st, Returned (result c)) else fetch
      | None => fetch
      end
  end.

Inductive validation :=
| InvalidFormat                                       (* 'Invalid URL format' *)
| Blacklisted (why : string) (domain : option string) (* `Blacklisted: ${why}` *)
| RobotsBlocked (why : string)
| Validated (robotsReason : string).                  (* 'URL validated' *)

Definition valid (v : validation) : bool :=
  match v with Validated _ => true | _ => false end.

Definition v_reason (v : validation) : string :=
  match v with
  | InvalidFormat => "Invalid URL format"
  | Blacklisted why _ => "Blacklisted: " +:+ why
  | RobotsBlocked why => why
  | Validated _ => "URL validated"
  end.

(** [validateUrl(url)] *)
Definition validateUrl (parseURL : string → option URL) (now : Z) (st : state)
    (url : string) (answer : fetched) : state * outcome validation :=
  match parseURL url with
  | None => (st, Returned InvalidFormat)
  | Some _ =>
      match isBlacklisted parseURL st url with
      | Blocked why domain => (st, Returned (Blacklisted why domain))
      | NotBlocked =>
          match checkRobotsTxt parseURL now st url answer with
          | (st, Returned robotsCheck) =>
              if negb (allowed robotsCheck)
              then (st, Returned (RobotsBlocked (reason robotsCheck)))
              else (st, Returned (Validated (reason robotsCheck)))
          | (st, Threw message) => (st, Threw message)
          end
      end
  end.

(** [saveBlacklist()]: the [domains] entry of the file it writes, the set
    without the static entries.  The source lists the set in insertion
    order; [elements] lists it in an order of its own. *)
Definition saveBlacklist (st : state) : list string :=
  filter (λ d, d ∉ staticBlacklist) (elements (domains st)).

Record stats := Stats {
  totalDomains : Z;
  staticDomains : Z;
  dynamicDomains : Z;
  robotsCacheSize : Z
}.

(** [getStats()] *)
Definition getStats (st : state) : stats :=
  {| totalDomains := Z.of_nat (size (domains st));
     staticDomains := Z.of_nat (length staticBlacklist);
     dynamicDomains := Z.of_nat (size (domains st)) - Z.of_nat (length staticBlacklist);
     robotsCacheSize := Z.of_nat (size (robotsCache st)) |}.

End Blacklist.

(* ===================================================================== *)
(** ** legal-tos.js: the compliance report *)
(* ===================================================================== *)

Module Legal.
Import JS.

(** [LEGAL_STATUS] *)
Inductive status :=
| APPROVED | BLOCKED_BLACKLIST | BLOCKED_ROBOTS | BLOCKED_MANUAL | REQUIRES_REVIEW.

(** What the report reads of a validation result; [None] is a property the
    result does not have. *)
Record validationResult := ValidationResult {
  valid : bool;
  reason : option string;
  robotsCompliant : option bool
}.

Record checks := Checks {
  urlFormat : bool;
  blacklistCheck : bool;
  robotsCheck : bool;
  legalCompliance : bool
}.

Record report := Report {
  r_url : string;
  r_timestamp : Z;
  r_status : status;
  r_checks : checks;
  reasons : list (option string);
  recommendations : list string
}.

(** [generateComplianceReport(url, validationResult)] *)
Definition generateComplianceReport (now : Z) (url : string) (v : validationResult)
    : report :=
  let checks :=
    {| urlFormat := true;
       blacklistCheck :=
         negb (default false ((λ r, includes r "Blacklisted") <$> reason v));
       robotsCheck := default false (robotsCompliant v);
       legalCompliance := valid v |} in
  {| r_url := url;
     r_timestamp := now;
     r_status := if valid v then APPROVED else BLOCKED_BLACKLIST;
     r_checks := checks;
     reasons := [reason v];
     recommendations :=
       (if negb (blacklistCheck checks)
        then ["Domain is in our security blacklist due to strict Terms of Service"]
        else [])
       ++ (if negb (robotsCheck checks)
           then ["Check robots.txt file before scraping";
                 "Consider contacting website owner for permission"]
           else [])
       ++ ["Ensure compliance with website Terms of Service";
           "Respect rate limits (max 1 request/second)";
           "Only scrape publicly available data"] |}.

(** The result object [validateUrl] returns, and the one
    [validateUrlEnhanced] puts in place of what it throws. *)
Definition resultOf (o : Blacklist.outcome Blacklist.validation) : validationResult :=
  match o with
  | Blacklist.Returned v =>
      {| valid := Blacklist.valid v;
         reason := Some (Blacklist.v_reason v);
         robotsCompliant :=
           match v with Blacklist.Validated _ => Some true | _ => None end |}
  | Blacklist.Threw message =>
      {| valid := false;
         reason := Some ("Validation error: " +:+ message);
         robotsCompliant := None |}
  end.

End Legal.

(* ===================================================================== *)
(** ** enhanced-scraper.js: the engine's robots.txt check *)
(* ===================================================================== *)

Module Scraper.
Import JS.

(** The loop of [checkRobotsTxt]: the [allowed] it ends with. *)
Fixpoint scan (pathname : string) (userAgentMatch : bool) (lines : list string) : bool :=
  match lines with
  | [] => true
  | line :: rest =>
      let trimmed := toLowerCase (trim line) in
      let userAgentMatch :=
        if startsWith trimmed "user-agent:"
        then includes trimmed "*" || includes trimmed "puppeteer"
        else userAgentMatch in
      if userAgentMatch && startsWith trimmed "disallow:" then
        let disallowPath := trim (default EmptyString (split ":" trimmed !! 1%nat)) in
        if bool_decide (disallowPath = "/") || startsWith pathname disallowPath
        then false
        else scan pathname userAgentMatch rest
      else scan pathname userAgentMatch rest
  end.

(** What [page.goto(robotsUrl)] came to. *)
Inductive visited :=
| Ok (robotsContent : string)   (* [response.ok()], and what [page.content()] gave *)
| NotOk                         (* no response, or one that is not ok *)
| Failed (message : string).    (* the browser, or the navigation, threw *)

Record robotsCheck := RobotsCheck {
  allowed : bool;
  robotsTxt : option string;
  error : option string
}.

(** [checkRobotsTxt(url)] *)
Definition checkRobotsTxt (parseURL : string → option URL) (url : string)
    (page : visited) : robotsCheck :=
  match parseURL url with
  | None => {| allowed := true; robotsTxt := None; error := Some "Invalid URL" |}
  | Some urlObj =>
      match page with
      | Ok robotsContent =>
          {| allowed := scan (pathname urlObj) false (split "010" robotsContent);
             robotsTxt := Some robotsContent; error := None |}
      | NotOk => {| allowed := true; robotsTxt := None; error := None |}
      | Failed message => {| allowed := true; robotsTxt := None; error := Some message |}
      end
  end.

End Scraper.

(* ===================================================================== *)
(** ** index.js: the scrape handlers *)
(* ===================================================================== *)

Module Gateway.
Import JS.

Definition RESTRICTED_DOMAINS : list string :=
  [ "facebook.com"; "instagram.com"; "twitter.com"; "linkedin.com"; "google.com";
    "amazon.com"; "youtube.com"; "tiktok.com"; "pinterest.com"; "reddit.com" ].

(** The state of the four collaborators the handlers share. *)
Record world := World {
  credit : Credit.tokens;
  abuse : Abuse.state;
  blacklist : Blacklist.state
}.

Definition set_credit (w : world) (ts : Credit.tokens) : world :=
  {| credit := ts; abuse := abuse w; blacklist := blacklist w |}.
Definition set_abuse (w : world) (a : Abuse.state) : world :=
  {| credit := credit w; abuse := a; blacklist := blacklist w |}.
Definition set_blacklist (w : world) (b : Blacklist.state) : world :=
  {| credit := credit w; abuse := abuse w; blacklist := b |}.

(** [req.body]; [options] only travels to the extraction engine. *)
Record body := Body {
  url : option string;
  accessToken : option string;
  tier : option string
}.

(** What [enhancedScraper.scrapeEnhanced] came to: [{success: true, data}],
    [{success: false, error}], or a rejection. *)
Inductive scraped :=
| Success (data : string)
| Failure (error : string)
| Thrown (message : string).

Record response := Response {
  status : Z;
  error : option string;
  details : option string;
  success : bool;
  remaining : option number;      (* credits.remaining *)
  available : option number;
  needed : option value;
  creditRefunded : bool;
  resetTime : option Z;
  reason : option string
}.

Definition reply (status : Z) (error : option string) : response :=
  {| status := status; error := error; details := None; success := false;
     remaining := None; available := None; needed := None;
     creditRefunded := false; resetTime := None; reason := None |}.

(** The collaborators' operations, as the handlers invoke them. *)
Inductive call :=
| CheckIPStatus
| CheckRateLimit
| IsValidUrl
| ValidateUrl
| ConsumeCredit
| ScrapeEnhanced
| Refund
| RecordRequest
| RecordFailure (reason : string)
| LogRequest.

(** Local variables a handler holds while it awaits. *)
Inductive pending :=
| PScrape (url accessToken tier : string) (remainingCredits : number) (ctier : string)
| PValidate (clientIP url domain : string)
| PTestScrape (clientIP url : string).

(** A synchronous segment ends with the response or at an [await]. *)
Inductive next :=
| Reply (r : response)
| Await (p : pending).

Record segment := Segment { after : world; calls : list call; then_ : next }.

Section Handlers.
Variable parseURL : string → option URL.

(** [isValidUrl(url)] *)
Definition isValidUrl (url : string) : bool :=
  match parseURL url with
  | Some urlObj =>
      let domain := toLowerCase (hostname urlObj) in
      negb (some (λ restricted,
                    includes domain restricted || bool_decide (domain = restricted))
                 RESTRICTED_DOMAINS)
  | None => false
  end.

(** [POST /scrape] up to [await enhancedScraper.scrapeEnhanced(url, options)] *)
Definition scrape_begin (now : Z) (w : world) (b : body) : segment :=
  match truthy (url b), truthy (accessToken b) with
  | Some url, Some accessToken =>
      if negb (isValidUrl url) then
        {| after := w; calls := [IsValidUrl];
           then_ := Reply (reply 400 (Some "Invalid URL or restricted domain")) |}
      else
        let tier := default "basic" (tier b) in
        let '(ts, creditCheck) :=
          Credit.validateAndConsumeCredit now (credit w) accessToken tier in
        match creditCheck with
        | Credit.Valid remainingCredits ctier =>
            {| after := set_credit w ts;
               calls := [IsValidUrl; ConsumeCredit; ScrapeEnhanced];
               then_ := Await (PScrape url accessToken tier remainingCredits ctier) |}
        | Credit.Insufficient available needed =>
            {| after := set_credit w ts; calls := [IsValidUrl; ConsumeCredit];
               then_ := Reply {| status := 402; error := Credit.error creditCheck;
                                 details := None; success := false; remaining := None;
                                 available := Some available; needed := Some needed;
                                 creditRefunded := false; resetTime := None;
                                 reason := None |} |}
        | _ =>
            {| after := set_credit w ts; calls := [IsValidUrl; ConsumeCredit];
               then_ := Reply (reply 402 (Credit.error creditCheck)) |}
        end
  | _, _ =>
      {| after := w; calls := [];
         then_ := Reply (reply 400 (Some "Missing required fields: url, accessToken")) |}
  end.

Definition set_usedCredits (t : Credit.token) (u : value) : Credit.token :=
  {| Credit.id := Credit.id t; Credit.tier := Credit.tier t;
     Credit.credits := Credit.credits t; Credit.createdAt := Credit.createdAt t;
     Credit.expiresAt := Credit.expiresAt t; Credit.paymentId := Credit.paymentId t;
     Credit.usedCredits := u; Credit.lastUsed := Credit.lastUsed t |}.

(** The refund both failure branches of [POST /scrape] perform:
    [token.usedCredits -= creditManager.credits[tier] || 1] when the token
    is still in the table. *)
Definition refund (ts : Credit.tokens) (accessToken tier : string) : Credit.tokens :=
  match ts !! accessToken with
  | Some token =>
      <[accessToken :=
          set_usedCredits token
            (VNumber (sub (Credit.usedCredits token) (Credit.creditsNeededFor tier)))]> ts
  | None => ts
  end.

(** [POST /scrape] from the point where the extraction has settled. *)
Definition scrape_settle (w : world) (url accessToken tier : string)
    (remainingCredits : number) (ctier : string) (result : scraped) : segment :=
  match result with
  | Success data =>
      {| after := w; calls := [];
         then_ := Reply {| status := 200; error := None; details := None;
                           success := true; remaining := Some remainingCredits;
                           available := None; needed := None;
                           creditRefunded := false; resetTime := None;
                           reason := None |} |}
  | Failure err =>
      {| after := set_credit w (refund (credit w) accessToken tier);
         calls := [Refund];
         then_ := Reply {| status := 500; error := Some "Scraping failed";
                           details := Some err; success := false; remaining := None;
                           available := None; needed := None;
                           creditRefunded := true; resetTime := None;
                           reason := None |} |}
  | Thrown message =>
      {| after := set_credit w (refund (credit w) accessToken tier);
         calls := [Refund];
         then_ := Reply {| status := 500; error := Some "Server error during scraping";
                           details := Some message; success := false; remaining := None;
                           available := None; needed := None;
                           creditRefunded := true; resetTime := None;
                           reason := None |} |}
  end.

(** [POST /test-scrape] up to [await validateUrlEnhanced(url)] *)
Definition test_begin (now : Z) (w : world) (clientIP : string) (b : body) : segment :=
  match Abuse.checkIPStatus (abuse w) clientIP with
  | Abuse.Banned =>
      {| after := w; calls := [CheckIPStatus];
         then_ := Reply {| status := 403; error := Some "Access denied";
                           details := None; success := false; remaining := None;
                           available := None; needed := None;
                           creditRefunded := false; resetTime := None;
                           reason := Some (Abuse.statusReason Abuse.Banned) |} |}
  | _ =>
      let domain := Abuse.extractDomain parseURL <$> truthy (url b) in
      let '(a, rateLimitResult) := Abuse.checkRateLimit now (abuse w) clientIP domain in
      if negb (Abuse.allowed rateLimitResult) then
        {| after := set_abuse w (Abuse.recordFailure now a clientIP "Rate limit exceeded");
           calls := [CheckIPStatus; CheckRateLimit; RecordFailure "Rate limit exceeded"];
           then_ := Reply {| status := 429; error := Some "Rate limit exceeded";
                             details := None; success := false; remaining := None;
                             available := None; needed := None;
                             creditRefunded := false;
                             resetTime := Abuse.resetTime rateLimitResult;
                             reason := None |} |}
      else
        match truthy (url b), domain with
        | Some url, Some domain =>
            {| after := set_abuse w a;
               calls := [CheckIPStatus; CheckRateLimit; ValidateUrl];
               then_ := Await (PValidate clientIP url domain) |}
        | _, _ =>
            {| after := set_abuse w (Abuse.recordFailure now a clientIP "Missing URL");
               calls := [CheckIPStatus; CheckRateLimit; RecordFailure "Missing URL"];
               then_ := Reply (reply 400 (Some "URL is required")) |}
        end
  end.

(** The [valid] and [reason] of a validation result. *)
Record validity := Validity { valid : bool; v_reason : string }.

(** [validateUrlEnhanced(url)] *)
Definition validateUrlEnhanced (now : Z) (bl : Blacklist.state) (url : string)
    (answer : Blacklist.fetched) : Blacklist.state * validity :=
  match Blacklist.validateUrl parseURL now bl url answer with
  | (bl, Blacklist.Returned v) =>
      (bl, {| valid := Blacklist.valid v; v_reason := Blacklist.v_reason v |})
  | (bl, Blacklist.Threw message) =>
      (bl, {| valid := false; v_reason := "Validation error: " +:+ message |})
  end.

(** [POST /test-scrape] from the answer of the robots.txt request up to
    [await enhancedScraper.scrapeEnhanced(url, options)] *)
Definition test_validated (now : Z) (w : world) (clientIP url domain : string)
    (answer : Blacklist.fetched) : segment :=
  let '(bl, validation) := validateUrlEnhanced now (blacklist w) url answer in
  let w := set_blacklist w bl in
  if negb (valid validation) then
    {| after := set_abuse w (Abuse.recordFailure now (abuse w) clientIP
                               (v_reason validation));
       calls := [RecordFailure (v_reason validation)];
       then_ := Reply {| status := 400; error := Some "URL validation failed";
                         details := None; success := false; remaining := None;
                         available := None; needed := None;
                         creditRefunded := false; resetTime := None;
                         reason := Some (v_reason validation) |} |}
  else
    {| after := set_abuse w (Abuse.recordRequest now (abuse w) clientIP (Some domain));
       calls := [RecordRequest; ScrapeEnhanced];
       then_ := Await (PTestScrape clientIP url) |}.

(** [POST /test-scrape] from the point where the extraction has settled. *)
Definition test_settle (now : Z) (w : world) (clientIP url : string)
    (result : scraped) : segment :=
  match result with
  | Success data =>
      {| after := set_abuse w (Abuse.logRequest now (abuse w) clientIP url true);
         calls := [LogRequest];
         then_ := Reply {| status := 200; error := None; details := None;
                           success := true; remaining := None; available := None;
                           needed := None; creditRefunded := false;
                           resetTime := None; reason := None |} |}
  | Failure err =>
      {| after := set_abuse w
                    (Abuse.recordFailure now
                       (Abuse.logRequest now (abuse w) clientIP url false)
                       clientIP "Scraping failed");
         calls := [LogRequest; RecordFailure "Scraping failed"];
         then_ := Reply {| status := 500; error := Some "Scraping failed";
                           details := Some err; success := false; remaining := None;
                           available := None; needed := None;
                           creditRefunded := false; resetTime := None;
                           reason := None |} |}
  | Thrown message =>
      {| after := set_abuse w
                    (Abuse.logRequest now
                       (Abuse.recordFailure now (abuse w) clientIP "Server error")
                       clientIP url false);
         calls := [RecordFailure "Server error"; LogRequest];
         then_ := Reply {| status := 500; error := Some "Internal server error";
                           details := Some "Please try again later"; success := false;
                           remaining := None; available := None; needed := None;
                           creditRefunded := false; resetTime := None;
                           reason := None |} |}
  end.

(** What an awaited collaborator hands back. *)
Inductive answer :=
| Fetched (a : Blacklist.fetched)
| Scraped (r : scraped).

(** Resuming a handler at its [await]; an answer of the wrong kind never
    arrives and leaves everything as it is. *)
Definition resume (now : Z) (w : world) (p : pending) (a : answer) : segment :=
  match p, a with
  | PScrape url accessToken tier remainingCredits ctier, Scraped r =>
      scrape_settle w url accessToken tier remainingCredits ctier r
  | PValidate clientIP url domain, Fetched f =>
      test_validated now w clientIP url domain f
  | PTestScrape clientIP url, Scraped r => test_settle now w clientIP url r
  | _, _ => {| after := w; calls := []; then_ := Await p |}
  end.

(** *** The server: requests in flight over the shared state *)

Inductive event :=
| Issue (tokenId : string) (now : Z) (p : Credit.paymentData)
    (* the timer of [POST /create-payment] calls [generateAccessToken] *)
| PostScrape (now : Z) (b : body)
| PostTestScrape (now : Z) (clientIP : string) (b : body)
| Settle (k : nat) (now : Z) (a : answer)
    (* the [k]-th request in flight is resumed with [a] *)
| CleanTokens (now : Z)
| CleanOldEntries (now : Z)
| BanIP (now : Z) (ip reason : string)
| UnbanIP (ip : string)
| ResumeReport (k : nat) (ok : bool).
    (* the [k]-th call of [reportAbuse] under way is resumed *)

Record server := Server { shared : world; inflight : list pending }.

Definition land (s : segment) (others : list pending) : server :=
  {| shared := after s;
     inflight := match then_ s with
                 | Reply _ => others
                 | Await p => others ++ [p]
                 end |}.

Definition step (sv : server) (e : event) : server :=
  let w := shared sv in
  match e with
  | Issue tokenId now p =>
      {| shared := set_credit w (Credit.generateAccessToken tokenId now (credit w) p).1;
         inflight := inflight sv |}
  | PostScrape now b => land (scrape_begin now w b) (inflight sv)
  | PostTestScrape now clientIP b => land (test_begin now w clientIP b) (inflight sv)
  | Settle k now a =>
      match inflight sv !! k with
      | Some p => land (resume now w p a) (delete k (inflight sv))
      | None => sv
      end
  | CleanTokens now =>
      {| shared := set_credit w (Credit.cleanExpiredTokens now (credit w));
         inflight := inflight sv |}
  | CleanOldEntries now =>
      {| shared := set_abuse w (Abuse.cleanOldEntries now (abuse w));
         inflight := inflight sv |}
  | BanIP now ip reason =>
      {| shared := set_abuse w (Abuse.banIP now (abuse w) ip reason);
         inflight := inflight sv |}
  | UnbanIP ip =>
      {| shared := set_abuse w (Abuse.unbanIP (abuse w) ip);
         inflight := inflight sv |}
  | ResumeReport k ok =>
      {| shared := set_abuse w (Abuse.resumeReport (abuse w) k ok);
         inflight := inflight sv |}
  end.

Definition run (sv : server) (es : list event) : server := foldl step sv es.

(** *** One request served alone *)

(** The handler is resumed with each answer in turn, no other request
    running in between; the calls of all segments are collected. *)
Fixpoint drive (w : world) (log : list call) (n : next) (answers : list (Z * answer))
    : world * list call * next :=
  match n, answers with
  | Await p, (now, a) :: rest =>
      let s := resume now w p a in
      drive (after s) (log ++ calls s) (then_ s) rest
  | _, _ => (w, log, n)
  end.

Definition serve_scrape (now : Z) (w : world) (b : body) (answers : list (Z * answer))
    : world * list call * next :=
  let s := scrape_begin now w b in drive (after s) (calls s) (then_ s) answers.

Definition serve_test (now : Z) (w : world) (clientIP : string) (b : body)
    (answers : list (Z * answer)) : world * list call * next :=
  let s := test_begin now w clientIP b in drive (after s) (calls s) (then_ s) answers.

End Handlers.

(** The server as it starts: no token, no window, only the static
    blacklist, nothing in flight. *)
Definition boot : server :=
  {| shared := {| credit := ∅; abuse := Abuse.init;
                  blacklist := Blacklist.loadBlacklist [] |};
     inflight := [] |}.

(** *** The other routes *)

Definition PRICING : list (string * Z) :=
  [ ("basic", 500); ("premium", 2000); ("custom", 5000) ].

Inductive paymentReply :=
| InvalidPricingTier                              (* 400 'Invalid pricing tier' *)
| PaymentProcessing (paymentId tier : string)     (* 200 *)
| PaymentError.                                   (* 500 *)

(** [POST /create-payment]; [payment] is the payment id
    [mockPayments.createPayment(tier)] returned, [None] when it threw.  Beside
    the reply stands the purchase the timer hands to [generateAccessToken]
    three seconds later, if a timer was set. *)
Definition create_payment (tier : option string) (payment : option string)
    : paymentReply * option Credit.paymentData :=
  let tier := default "basic" tier in
  if negb (is_truthy (get PRICING tier)) then (InvalidPricingTier, None)
  else match payment with
       | Some paymentId =>
           (PaymentProcessing paymentId tier,
            Some {| Credit.pd_tier := tier; Credit.pd_paymentId := paymentId |})
       | None => (PaymentError, None)
       end.

Record abuseSummary := AbuseSummary {
  total : nat;
  highSeverity : nat;
  mediumSeverity : nat;
  lowSeverity : nat
}.

(** [GET /admin/abuse]; [limit] is [parseInt(req.query.limit)], [None] when
    that is [NaN]. *)
Definition admin_abuse (a : Abuse.state) (limit : option Z)
    : list Abuse.report * abuseSummary :=
  let limit := match limit with
               | None => 50
               | Some 0 => 50
               | Some n => n
               end in
  let reports := Abuse.getRecentAbuse a limit in
  (reports,
   {| total := length reports;
      highSeverity := length (filter (λ r, Abuse.r_severity r = Abuse.HIGH) reports);
      mediumSeverity := length (filter (λ r, Abuse.r_severity r = Abuse.MEDIUM) reports);
      lowSeverity := length (filter (λ r, Abuse.r_severity r = Abuse.LOW) reports) |}).


End Gateway.

(* ===================================================================== *)
(** ** Specification vocabulary *)
(* ===================================================================== *)

(** [sub] occurs in [s]. *)
Definition occurs_in (sub s : string) : Prop :=
  ∃ pre post, s = pre +:+ sub +:+ post.

(** The tier costs [k] credits per scrape: the cost lookup yields a number. *)
Definition priced (tier : string) (k : Z) : Prop :=
  Credit.creditsNeededFor tier = JS.VNumber (JS.Num k).

(** The purchase of this tier grants [c] credits. *)
Definition granted (tier : string) (c : Z) : Prop :=
  Credit.getCreditsForTier tier = JS.VNumber (JS.Num c).

(** Severity classification with the high-severity terms the specification
    lists. *)
Definition listedHighTerms : list string := ["blacklist"; "ban"; "attack"; "flood"].

Definition severityAsListed (reason : string) : Abuse.severity :=
  let reasonLower := JS.toLowerCase reason in
  if JS.some (λ keyword, JS.includes reasonLower keyword) listedHighTerms then Abuse.HIGH
  else if JS.some (λ keyword, JS.includes reasonLower keyword) Abuse.mediumSeverityKeywords
  then Abuse.MEDIUM
  else Abuse.LOW.

(** Consuming once per clock reading of [times], in order. *)
Fixpoint consumeEach (ts : Credit.tokens) (accessToken tier : string) (times : list Z)
    : Credit.tokens * list Credit.consumed :=
  match times with
  | [] => (ts, [])
  | now :: rest =>
      let '(ts, r) := Credit.validateAndConsumeCredit now ts accessToken tier in
      let '(ts, rs) := consumeEach ts accessToken tier rest in
      (ts, r :: rs)
  end.

(** The value is an integer number. *)
Definition numeric (v : JS.value) : bool :=
  match v with JS.VNumber (JS.Num _) => true | _ => false end.

(** The tiers an event names are tiers with a numeric grant and cost. *)
Definition tiers_numeric (e : Gateway.event) : bool :=
  match e with
  | Gateway.Issue _ _ p => numeric (Credit.getCreditsForTier (Credit.pd_tier p))
  | Gateway.PostScrape _ b =>
      numeric (Credit.creditsNeededFor (default "basic" (Gateway.tier b)))
  | _ => true
  end.

(** The token ids the events of a run draw, in order. *)
Definition drawn (es : list Gateway.event) : list string :=
  omap (λ e, match e with Gateway.Issue tokenId _ _ => Some tokenId | _ => None end) es.

(** What a request in flight has charged to the account [tok]. *)
Definition charge (tok : string) (p : Gateway.pending) : Z :=
  match p with
  | Gateway.PScrape _ accessToken tier _ _ =>
      if decide (accessToken = tok)
      then match Credit.creditsNeededFor tier with
           | JS.VNumber (JS.Num k) => k
           | _ => 0
           end
      else 0
  | _ => 0
  end.

Definition owed (tok : string) (inflight : list Gateway.pending) : Z :=
  foldr (λ p acc, charge tok p + acc) 0 inflight.

(** The account holds whole numbers with [lo ≤ usedCredits ≤ credits]. *)
Definition balanced (lo : Z) (t : Credit.token) : Prop :=
  ∃ c u, Credit.credits t = JS.VNumber (JS.Num c)
         ∧ Credit.usedCredits t = JS.VNumber (JS.Num u)
         ∧ lo ≤ u ≤ c.

(** Every account is balanced above what the requests in flight have
    charged to it; accounts and requests in flight carry token ids drawn so
    far ([seen]); requests in flight carry tiers of numeric cost. *)
Definition invariant (seen : gset string) (sv : Gateway.server) : Prop :=
  (∀ tok t, Gateway.credit (Gateway.shared sv) !! tok = Some t → balanced (owed tok (Gateway.inflight sv)) t)
  ∧ (∀ tok, is_Some (Gateway.credit (Gateway.shared sv) !! tok) → tok ∈ seen)
  ∧ (∀ url tok tier r c, Gateway.PScrape url tok tier r c ∈ Gateway.inflight sv →
       tok ∈ seen ∧ numeric (Credit.creditsNeededFor tier) = true).

(** The window kept under a tracker key; a missing entry is an empty window. *)
Definition ipEntry (st : Abuse.state) (key : string) : Abuse.ipData :=
  default Abuse.emptyIp (Abuse.ipTracker st !! key).

Definition domainEntry (st : Abuse.state) (key : string) : Abuse.domainData :=
  default Abuse.emptyDomain (Abuse.domainTracker st !! key).

(** The operations that push a timestamp onto a window. *)
Definition records (op : Abuse.operation) : bool :=
  match op with
  | Abuse.OpRecordRequest _ _ | Abuse.OpRecordFailure _ _ => true
  | _ => false
  end.

(** How many failures of the caller recorded at or after [since] the
    limiter holds. *)
Definition failuresSince (st : Abuse.state) (ip : string) (since : Z) : nat :=
  length (filter (λ time, since ≤ time) (Abuse.failures (ipEntry st (Abuse.ipKey ip)))).

(** The incident [recordFailure] reports when it bans. *)
Definition bypassReport (now : Z) (ip reason : string) (attempts : nat) : Abuse.report :=
  {| Abuse.r_timestamp := now; Abuse.r_ip := ip;
     Abuse.r_reason := "Multiple blacklist bypass attempts";
     Abuse.r_metadata := Abuse.Attempts reason attempts;
     Abuse.r_severity := Abuse.HIGH |}.

(** [reportAbuse] has just been called with the report [r]: the call is the
    last one under way and awaits its read of the file. *)
Definition handedOver (st : Abuse.state) (r : Abuse.report) : Prop :=
  last (Abuse.filing st) = Some (Abuse.AwaitRead r).

(** The state once the last call of [reportAbuse] under way has read and
    written, both going through, with nothing else resumed in between. *)
Definition lastCallDone (st : Abuse.state) : Abuse.state :=
  let k := pred (length (Abuse.filing st)) in
  Abuse.resumeReport (Abuse.resumeReport st k true) k true.

(** [s] is a parent domain of [h]: [h] is some labels, a dot, then [s]. *)
Definition parent_domain (s h : string) : Prop := ∃ p, h = p +:+ "." +:+ s.

(** The blacklist stage as the specification words it: the hostname is in
    the set, or a parent domain of at least two labels is. *)
Definition listed (domains : gset string) (h : string) : Prop :=
  h ∈ domains
  ∨ ∃ s, s ∈ domains ∧ occurs_in "." s ∧ parent_domain s h.

(** The block in force after a line, given the one in force before it:
    a user-agent line opens a block, applicable or not. *)
Definition enter (cur : bool) (line : string) : bool :=
  if JS.startsWith line "user-agent:" then Blacklist.applicable (Blacklist.field line)
  else cur.

(** Whether the block in force after [lines] is an applicable one; none is
    in force before the first user-agent line. *)
Definition inForce (lines : list string) : bool := foldl enter false lines.

(** A [Disallow] line that matches the path. *)
Definition forbids (path line : string) : bool :=
  JS.startsWith line "disallow:" && Blacklist.disallows (Blacklist.field line) path.

(** The lines up to the next user-agent line. *)
Fixpoint untilNextAgent (lines : list string) : list string :=
  match lines with
  | [] => []
  | line :: rest =>
      if JS.startsWith line "user-agent:" then []
      else line :: untilNextAgent rest
  end.

(** The lines of the first applicable block: those after the first
    applicable user-agent line, up to the next user-agent line. *)
Fixpoint firstApplicableBlock (lines : list string) : list string :=
  match lines with
  | [] => []
  | line :: rest =>
      if JS.startsWith line "user-agent:" && Blacklist.applicable (Blacklist.field line)
      then untilNextAgent rest
      else firstApplicableBlock rest
  end.

(** robots.txt parsing as the specification words it: only the first
    applicable block's rules apply. *)
Definition blockedByFirstBlock (content path : string) : bool :=
  existsb (forbids path) (firstApplicableBlock (Blacklist.robotsLines content)).

(** The stages of the admission pipeline, and the stage a call belongs to. *)
Inductive stage := BanCheck | RateAdmission | LegalityCheck | CreditConsume | Extraction.

Definition stage_of (c : Gateway.call) : option stage :=
  match c with
  | Gateway.CheckIPStatus => Some BanCheck
  | Gateway.CheckRateLimit => Some RateAdmission
  | Gateway.IsValidUrl | Gateway.ValidateUrl => Some LegalityCheck
  | Gateway.ConsumeCredit => Some CreditConsume
  | Gateway.ScrapeEnhanced => Some Extraction
  | _ => None
  end.

Definition stages (log : list Gateway.call) : list stage := omap stage_of log.

(** The pipeline as the specification orders it. *)
Definition specifiedPipeline : list stage :=
  [BanCheck; RateAdmission; LegalityCheck; CreditConsume; Extraction].

(** Where a [POST /test-scrape] stands: answered, awaiting the validation,
    or awaiting the extraction, with the stages that led there. *)
Definition test_progress (log : list Gateway.call) (n : Gateway.next) : Prop :=
  match n with
  | Gateway.Reply _ => stages log `prefix_of` [BanCheck; RateAdmission; LegalityCheck; Extraction]
  | Gateway.Await (Gateway.PValidate _ _ _) => stages log = [BanCheck; RateAdmission; LegalityCheck]
  | Gateway.Await (Gateway.PTestScrape _ _) =>
      stages log = [BanCheck; RateAdmission; LegalityCheck; Extraction]
  | Gateway.Await (Gateway.PScrape _ _ _ _ _) => False
  end.

(** Where a [POST /scrape] stands. *)
Definition scrape_progress (w0 w : Gateway.world) (log : list Gateway.call) (n : Gateway.next) : Prop :=
  Gateway.abuse w = Gateway.abuse w0 ∧ Gateway.blacklist w = Gateway.blacklist w0
  ∧ match n with
    | Gateway.Reply r =>
        stages log `prefix_of` [LegalityCheck; CreditConsume; Extraction]
        ∧ (CreditConsume ∉ stages log → Gateway.credit w = Gateway.credit w0)
        ∧ (Gateway.status r = 402 → Extraction ∉ stages log)
    | Gateway.Await (Gateway.PScrape _ _ _ _ _) => stages log = [LegalityCheck; CreditConsume; Extraction]
    | Gateway.Await _ => False
    end.

(** *** Sample inputs *)

(** A stand-in for the platform parser on URLs of the shape
    [https://host/path], enough to run the handlers on sample requests. *)
Fixpoint untilSlash (s : string) : string * string :=
  match s with
  | EmptyString => (EmptyString, "/")
  | String c r =>
      if decide (c = "/"%char) then (EmptyString, s)
      else let '(h, p) := untilSlash r in (String c h, p)
  end.

Fixpoint dropPrefix (p s : string) {struct p} : option string :=
  match p, s with
  | EmptyString, _ => Some s
  | String a p', String b s' => if decide (a = b) then dropPrefix p' s' else None
  | String _ _, EmptyString => None
  end.

Definition sampleParse (url : string) : option URL :=
  rest ← dropPrefix "https://" url;
  let '(h, p) := untilSlash rest in
  if decide (h = EmptyString) then None
  else Some {| protocol := "https:"; host := h; hostname := h; pathname := p |}.

Definition sampleBody (url token tier : string) : Gateway.body :=
  {| Gateway.url := Some url; Gateway.accessToken := Some token;
     Gateway.tier := Some tier |}.

(** A basic token is issued; a scrape on it fails and is refunded while a
    second one, started in between, succeeds; a third is started. *)
Definition sampleEvents : list Gateway.event :=
  [ Gateway.Issue "a1" 1000 {| Credit.pd_tier := "basic"; Credit.pd_paymentId := "pay_1" |};
    Gateway.PostScrape 2000 (sampleBody "https://example.org/a" "a1" "basic");
    Gateway.PostScrape 2500 (sampleBody "https://example.org/b" "a1" "premium");
    Gateway.Settle 0 3000 (Gateway.Scraped (Gateway.Failure "net::ERR_TIMED_OUT"));
    Gateway.Settle 0 3500 (Gateway.Scraped (Gateway.Success "{}"));
    Gateway.PostScrape 4000 (sampleBody "https://example.org/c" "a1" "gold") ].

(** A basic token is issued and one scrape on it names the tier
    "constructor"; the extraction then settles with [result]. *)
Definition inheritedTierEvents (result : Gateway.scraped) : list Gateway.event :=
  [ Gateway.Issue "a1" 1000 {| Credit.pd_tier := "basic"; Credit.pd_paymentId := "pay_1" |};
    Gateway.PostScrape 2000 (sampleBody "https://example.org/a" "a1" "constructor");
    Gateway.Settle 0 3000 (Gateway.Scraped result) ].



(** A caller that was refused three blacklisted URLs within three seconds. *)
Definition sampleOffender : string := "198.51.100.23".

Definition sampleOffences : list (Z * Abuse.operation) :=
  [ (1000, Abuse.OpRecordFailure sampleOffender "Blacklisted: Domain in blacklist");
    (2000, Abuse.OpRecordFailure sampleOffender "Blacklisted: Parent domain in blacklist");
    (3000, Abuse.OpRecordFailure sampleOffender "Blacklisted: Domain in blacklist") ].

(** The shared state with the offender banned and one basic token issued. *)
Definition sampleWorld : Gateway.world :=
  {| Gateway.credit :=
       (Credit.generateAccessToken "a1" 0 ∅
          {| Credit.pd_tier := "basic"; Credit.pd_paymentId := "pay_1" |}).1;
     Gateway.abuse := Abuse.performAll Abuse.init sampleOffences;
     Gateway.blacklist := Blacklist.loadBlacklist [] |}.

Definition newline : string := String "010" EmptyString.

(** Two applicable blocks: the first closes /a, the second closes /b. *)
Definition sampleRobots : string :=
  "User-agent: *" +:+ newline +:+ "Disallow: /a" +:+ newline +:+
  "User-agent: googlebot" +:+ newline +:+ "Disallow: /b".

(** *** Vocabulary of the further properties *)

(** Two versions of an account that differ at most in the used credits and
    the last use. *)
Definition same_grant (t t' : Credit.token) : Prop :=
  Credit.id t' = Credit.id t ∧ Credit.tier t' = Credit.tier t
  ∧ Credit.credits t' = Credit.credits t ∧ Credit.createdAt t' = Credit.createdAt t
  ∧ Credit.expiresAt t' = Credit.expiresAt t ∧ Credit.paymentId t' = Credit.paymentId t.

(** Validating a session once per clock reading of [times], in order. *)
Fixpoint validateEach (ss : Session.sessions) (sessionToken : string) (times : list Z)
    : Session.sessions * list Session.validated :=
  match times with
  | [] => (ss, [])
  | now :: rest =>
      let '(ss, r) := Session.validateSession now ss sessionToken in
      let '(ss, rs) := validateEach ss sessionToken rest in
      (ss, r :: rs)
  end.

(** The caller's windows as [checkRateLimit] at [now] sees them. *)
Definition windowAt (now : Z) (st : Abuse.state) (ip : string) : Abuse.ipData :=
  {| Abuse.requests := Abuse.prune now (Abuse.requests (ipEntry st (Abuse.ipKey ip)));
     Abuse.failures := Abuse.prune now (Abuse.failures (ipEntry st (Abuse.ipKey ip))) |}.

(** One [recordRequest] of the caller per clock reading. *)
Definition requestsAt (ip : string) (domain : option string) (times : list Z)
    : list (Z * Abuse.operation) :=
  (λ now, (now, Abuse.OpRecordRequest ip domain)) <$> times.

(** Requests for one domain, each with its clock reading and its caller. *)
Definition visitsTo (domain : string) (visits : list (Z * string))
    : list (Z * Abuse.operation) :=
  (λ v, (v.1, Abuse.OpRecordRequest v.2 (Some domain))) <$> visits.

(** The report [reportAbuse] builds. *)
Definition reportOf (now : Z) (ip reason : string) (meta : Abuse.metadata) : Abuse.report :=
  {| Abuse.r_timestamp := now; Abuse.r_ip := ip; Abuse.r_reason := reason;
     Abuse.r_metadata := meta; Abuse.r_severity := Abuse.calculateSeverity reason |}.

(** The incident [flagSuspiciousIP] reports at the per-IP cap. *)
Definition rateLimitReport (now : Z) (ip : string) : Abuse.report :=
  {| Abuse.r_timestamp := now; Abuse.r_ip := ip;
     Abuse.r_reason := "Rate limit exceeded";
     Abuse.r_metadata := Abuse.NoMeta;
     Abuse.r_severity := Abuse.MEDIUM |}.

(** The incident [banIP] reports. *)
Definition manualBanReport (now : Z) (ip reason : string) : Abuse.report :=
  {| Abuse.r_timestamp := now; Abuse.r_ip := ip;
     Abuse.r_reason := "Manual ban: " +:+ reason;
     Abuse.r_metadata := Abuse.Manual;
     Abuse.r_severity := Abuse.HIGH |}.

(** The access-log line of a request. *)
Definition logged (now : Z) (ip : string) (b : Gateway.body) (success : bool)
    : Abuse.logEntry :=
  {| Abuse.l_timestamp := now; Abuse.l_ip := ip;
     Abuse.l_targetUrl := default EmptyString (Gateway.url b);
     Abuse.l_success := success |}.

(** The report file and every array a call of [reportAbuse] is about to
    write hold at most 1000 reports. *)
Definition trimmed (st : Abuse.state) : Prop :=
  (length (Abuse.abuseFile st) ≤ 1000)%nat
  ∧ Forall (λ f, match f with
                 | Abuse.AwaitWrite reports => (length reports ≤ 1000)%nat
                 | Abuse.AwaitRead _ => True
                 end) (Abuse.filing st).

(** Two limiter states that differ at most in the suspicious set, and two
    worlds that differ at most there. *)
Definition sameButFlags (a a' : Abuse.state) : Prop :=
  Abuse.ipTracker a' = Abuse.ipTracker a
  ∧ Abuse.domainTracker a' = Abuse.domainTracker a
  ∧ Abuse.bannedIPs a' = Abuse.bannedIPs a
  ∧ Abuse.abuseFile a' = Abuse.abuseFile a
  ∧ Abuse.filing a' = Abuse.filing a
  ∧ Abuse.logFile a' = Abuse.logFile a.

Definition sameButFlagsOf (w w' : Gateway.world) : Prop :=
  Gateway.credit w' = Gateway.credit w
  ∧ Gateway.blacklist w' = Gateway.blacklist w
  ∧ sameButFlags (Gateway.abuse w) (Gateway.abuse w').

(** The static entries are all in the set. *)
Definition keepsStatic (st : Blacklist.state) : Prop :=
  ∀ d, d ∈ Blacklist.staticBlacklist → d ∈ Blacklist.domains st.

(** No robots.txt result cached for the host is younger than a day. *)
Definition stale (now : Z) (st : Blacklist.state) (host : string) : Prop :=
  ∀ c, Blacklist.robotsCache st !! host = Some c →
       ¬ now - Blacklist.timestamp c < Blacklist.day.

(** The server answered the request for robots.txt. *)
Definition answered (answer : Blacklist.fetched) : bool :=
  match answer with
  | Blacklist.Status _ | Blacklist.Body _ => true
  | _ => false
  end.

(** The result [checkRobotsTxt] derives from what the request came to. *)
Definition robotsOf (answer : Blacklist.fetched) (path : string) : Blacklist.robots :=
  match answer with
  | Blacklist.Status code =>
      if decide (code = 200) then Blacklist.parseRobotsTxt EmptyString path
      else Blacklist.plain "No robots.txt found"
  | Blacklist.Body data => Blacklist.parseRobotsTxt data path
  | Blacklist.NetError => Blacklist.plain "robots.txt check failed"
  | Blacklist.TimedOut => Blacklist.plain "robots.txt timeout"
  end.

(** The gate's state with the cached result for the host renewed. *)
Definition renewed (st : Blacklist.state) (host : string) (r : Blacklist.robots) (now : Z)
    : Blacklist.state :=
  {| Blacklist.domains := Blacklist.domains st;
     Blacklist.robotsCache :=
       <[host := {| Blacklist.result := r; Blacklist.timestamp := now |}]>
         (Blacklist.robotsCache st) |}.

(** The recommendations of a compliance report. *)
Definition blacklistAdvice : list string :=
  [ "Domain is in our security blacklist due to strict Terms of Service" ].

Definition robotsAdvice : list string :=
  [ "Check robots.txt file before scraping";
    "Consider contacting website owner for permission" ].

Definition standingAdvice : list string :=
  [ "Ensure compliance with website Terms of Service";
    "Respect rate limits (max 1 request/second)";
    "Only scrape publicly available data" ].

(** The engine's reading of a line: the block in force after it, and
    whether it is a [Disallow] line that matches the path. *)
Definition engineEnter (cur : bool) (line : string) : bool :=
  let trimmed := JS.toLowerCase (JS.trim line) in
  if JS.startsWith trimmed "user-agent:"
  then JS.includes trimmed "*" || JS.includes trimmed "puppeteer"
  else cur.

Definition engineForbids (pathname line : string) : bool :=
  let trimmed := JS.toLowerCase (JS.trim line) in
  JS.startsWith trimmed "disallow:"
  && (bool_decide (Blacklist.field trimmed = "/")
      || JS.startsWith pathname (Blacklist.field trimmed)).

(** *** Further sample inputs *)

Definition sampleCaller : string := "203.0.113.7".

(** A hundred requests of one caller within a second. *)
Definition sampleBurst : list Z := replicate 100 5000.

(** A parser stand-in that reads every URL as a plain-http one. *)
Definition httpParse (url : string) : option URL :=
  Some {| protocol := "http:"; host := "example.org"; hostname := "example.org";
          pathname := "/" |}.

(* ===================================================================== *)
(** ** Strings *)
(* ===================================================================== *)

Section StringFacts.
Import JS.

Lemma append_cons (c : ascii) (a b : string) : String c a +:+ b = String c (a +:+ b).
Proof. done. Qed.

Lemma startsWith_spec (s p : string) :
  startsWith s p = true ↔ ∃ post, s = p +:+ post.
Proof.
  revert s. induction p as [|a p IH]; intros s; simpl.
  - split; [intros _; exists s; reflexivity | done].
  - destruct s as [|b s]; simpl.
    + split; [done | intros [post H]; discriminate H].
    + case_decide as Hab.
      * subst b. rewrite IH. split; intros [post H]; exists post.
        -- by rewrite append_cons, H.
        -- rewrite append_cons in H. by injection H.
      * split; [done | intros [post H]]. rewrite append_cons in H.
        injection H as ? _. congruence.
Qed.

Lemma includes_spec (s sub : string) :
  includes s sub = true ↔ occurs_in sub s.
Proof.
  unfold occurs_in. induction s as [|c s IH]; simpl.
  - rewrite orb_false_r, startsWith_spec. split.
    + intros [post H]. exists "", post. exact H.
    + intros [pre [post H]]. destruct pre; [exists post; exact H|discriminate H].
  - rewrite orb_true_iff, startsWith_spec, IH. split.
    + intros [[post H]|[pre [post H]]].
      * exists "", post. exact H.
      * exists (String c pre), post. by rewrite append_cons, H.
    + intros [pre [post H]]. destruct pre as [|x pre].
      * left. exists post. exact H.
      * right. rewrite append_cons in H. injection H as _ H. by exists pre, post.
Qed.

Lemma some_includes (s : string) (keywords : list string) :
  some (λ keyword, includes s keyword) keywords = true
  ↔ Exists (λ keyword, occurs_in keyword s) keywords.
Proof.
  unfold some. rewrite existsb_exists, Exists_exists. split.
  - intros [k [Hin H]]. exists k. split; [by apply list_elem_of_In|].
    by apply includes_spec.
  - intros [k [Hin H]]. exists k. split; [by apply list_elem_of_In|].
    by apply includes_spec.
Qed.

End StringFacts.

(* ===================================================================== *)
(** ** Abuse ledger: severity *)
(* ===================================================================== *)

(** C9, as amended.  The severity of a reason is decided on its lower-cased
    text: HIGH exactly when one of blacklist, ban, illegal, attack, flood
    occurs in it; MEDIUM exactly when none of those occurs and one of
    "rate limit", suspicious, failure does; LOW exactly when none of the
    eight occurs. *)
Theorem calculateSeverity_keywords (reason : string) :
  let high := Exists (λ k, occurs_in k (JS.toLowerCase reason))
                ["blacklist"; "ban"; "illegal"; "attack"; "flood"] in
  let medium := Exists (λ k, occurs_in k (JS.toLowerCase reason))
                  ["rate limit"; "suspicious"; "failure"] in
  (Abuse.calculateSeverity reason = Abuse.HIGH ↔ high)
  ∧ (Abuse.calculateSeverity reason = Abuse.MEDIUM ↔ ¬ high ∧ medium)
  ∧ (Abuse.calculateSeverity reason = Abuse.LOW ↔ ¬ high ∧ ¬ medium).
Proof.
  intros high medium. unfold Abuse.calculateSeverity.
  pose proof (some_includes (JS.toLowerCase reason) Abuse.highSeverityKeywords) as Hh.
  pose proof (some_includes (JS.toLowerCase reason) Abuse.mediumSeverityKeywords) as Hm.
  fold high in Hh. fold medium in Hm.
  destruct (JS.some _ Abuse.highSeverityKeywords) eqn:Eh.
  - assert (high) by (by apply Hh). repeat split; try done; tauto.
  - assert (¬ high) by (intros ?%Hh; done).
    destruct (JS.some _ Abuse.mediumSeverityKeywords) eqn:Em.
    + assert (medium) by (by apply Hm). repeat split; try done; tauto.
    + assert (¬ medium) by (intros ?%Hm; done). repeat split; try done; tauto.
Qed.

(** C9, as stated, fails: "illegal" is a high-severity term of the code that
    the listed four leave out. *)
Lemma calculateSeverity_illegal :
  Abuse.calculateSeverity "illegal content" = Abuse.HIGH
  ∧ severityAsListed "illegal content" = Abuse.LOW.
Proof. split; reflexivity. Qed.

(* ===================================================================== *)
(** ** Credit ledger *)
(* ===================================================================== *)

Section CreditFacts.
Import JS Credit.

Lemma priced_cases (tier : string) (k : Z) :
  priced tier k → k = 1 ∨ k = 5 ∨ k = 10.
Proof.
  unfold priced, creditsNeededFor, get, cost_table, object_prototype. simpl.
  repeat (case_decide; simpl; [intros [= <-]; lia|]); try discriminate.
  intros [= <-]; lia.
Qed.

Lemma granted_cases (tier : string) (c : Z) :
  granted tier c → c = 1 ∨ c = 10 ∨ c = 20 ∨ c = 50.
Proof.
  unfold granted, getCreditsForTier, get, creditAmounts, object_prototype. simpl.
  repeat (case_decide; simpl; [intros [= <-]; lia|]); try discriminate.
  intros [= <-]; lia.
Qed.

Lemma unknown_tier_default (tier : string) :
  assoc tier cost_table = None →
  assoc tier object_prototype = None →
  priced tier 1 ∧ granted tier 1.
Proof.
  intros Hown Hproto. unfold priced, granted, creditsNeededFor, getCreditsForTier, get.
  assert (assoc tier creditAmounts = None) as ->.
  { revert Hown. unfold cost_table, creditAmounts. simpl.
    repeat (case_decide; [discriminate|]). done. }
  by rewrite Hown, Hproto.
Qed.




Lemma consume_insufficient now (ts : tokens) tok tier t c u k :
  ts !! tok = Some t → now ≤ expiresAt t →
  credits t = VNumber (Num c) → usedCredits t = VNumber (Num u) → priced tier k →
  c - u < k →
  validateAndConsumeCredit now ts tok tier
  = (ts, Insufficient (Num (c - u)) (VNumber (Num k))).
Proof.
  intros H Hexp Hc Hu Hk Hlt. unfold validateAndConsumeCredit. rewrite H.
  cbv zeta. unfold priced in Hk.
  rewrite bool_decide_eq_false_2 by lia. rewrite !Hk, !Hc, !Hu. simpl.
  by rewrite bool_decide_eq_true_2.
Qed.

Lemma consume_success now (ts : tokens) tok tier t c u k :
  ts !! tok = Some t → now ≤ expiresAt t →
  credits t = VNumber (Num c) → usedCredits t = VNumber (Num u) → priced tier k →
  k ≤ c - u →
  validateAndConsumeCredit now ts tok tier
  = (<[tok := set_used t (VNumber (Num (u + k))) now]> ts,
     Valid (Num (c - (u + k))) (Credit.tier t)).
Proof.
  intros H Hexp Hc Hu Hk Hle. unfold validateAndConsumeCredit. rewrite H.
  cbv zeta. unfold priced in Hk.
  rewrite bool_decide_eq_false_2 by lia. rewrite !Hk, !Hc, !Hu. simpl.
  rewrite bool_decide_eq_false_2 by lia. by rewrite Hc.
Qed.


End CreditFacts.


(** X1.  A tier that is neither basic, premium or custom nor the name of a
    member every object literal inherits falls back to one credit: the
    purchase grants 1, a consume costs 1 and is charged as 1 on a live
    account that can pay. *)
Theorem unknown_tier_one (now : Z) (ts : Credit.tokens) (tok tier : string)
    (t : Credit.token) (c u : Z) :
  tier ∉ ["basic"; "premium"; "custom"] →
  tier ∉ JS.object_prototype.*1 →
  ts !! tok = Some t → now ≤ Credit.expiresAt t →
  Credit.credits t = JS.VNumber (JS.Num c) →
  Credit.usedCredits t = JS.VNumber (JS.Num u) →
  1 ≤ c - u →
  Credit.getCreditsForTier tier = JS.VNumber (JS.Num 1)
  ∧ Credit.creditsNeededFor tier = JS.VNumber (JS.Num 1)
  ∧ Credit.validateAndConsumeCredit now ts tok tier
    = (<[tok := Credit.set_used t (JS.VNumber (JS.Num (u + 1))) now]> ts,
       Credit.Valid (JS.Num (c - (u + 1))) (Credit.tier t)).
Proof.
  intros Hnamed Hproto Ht Hexp Hc Hu Hle.
  assert (JS.assoc tier Credit.cost_table = None) as Hown.
  { simpl. repeat (destruct (decide (tier = _)) as [->|?]; [destruct Hnamed; set_solver|]).
    done. }
  assert (JS.assoc tier JS.object_prototype = None) as Hinherited.
  { simpl. repeat (destruct (decide (tier = _)) as [->|?]; [destruct Hproto; set_solver|]).
    done. }
  destruct (unknown_tier_default tier Hown Hinherited) as [Hcost Hgrant].
  split; [exact Hgrant|]. split; [exact Hcost|]. by eapply consume_success.
Qed.

Lemma unknown_tier_one_sample :
  Credit.getCreditsForTier "gold" = JS.VNumber (JS.Num 1)
  ∧ Credit.creditsNeededFor "gold" = JS.VNumber (JS.Num 1).
Proof.
  destruct (unknown_tier_one 5000 (Gateway.credit sampleWorld) "a1" "gold"
              {| Credit.id := "a1"; Credit.tier := "basic";
                 Credit.credits := JS.VNumber (JS.Num 10); Credit.createdAt := 0;
                 Credit.expiresAt := 0 + Credit.thirty_days; Credit.paymentId := "pay_1";
                 Credit.usedCredits := JS.VNumber (JS.Num 0); Credit.lastUsed := None |}
              10 0) as (Hgrant & Hcost & _).
  - vm_compute. intros H. repeat (apply elem_of_cons in H as [H|H]; [discriminate H|]).
    by apply elem_of_nil in H.
  - vm_compute. intros H. repeat (apply elem_of_cons in H as [H|H]; [discriminate H|]).
    by apply elem_of_nil in H.
  - vm_compute. reflexivity.
  - vm_compute. intros H. discriminate H.
  - reflexivity.
  - reflexivity.
  - lia.
  - split; [exact Hgrant|exact Hcost].
Defined.

(** C10, at a tier every object literal inherits.  For the tier
    "constructor" the grant and the cost are the inherited function, not 1;
    a consume with that tier on a fresh basic account is accepted, leaves a
    string in [usedCredits], and from then on no consume on the account is
    ever refused for lack of credits. *)
Theorem inherited_tier_grant_and_cost :
  let object := JS.VObject "function Object() { [native code] }" in
  let '(ts0, _) := Credit.generateAccessToken "t" 0 ∅
                     {| Credit.pd_tier := "basic"; Credit.pd_paymentId := "p" |} in
  let '(ts1, r1) := Credit.validateAndConsumeCredit 1 ts0 "t" "constructor" in
  let '(ts12, rs) := consumeEach ts1 "t" "basic" [2; 3; 4; 5; 6; 7; 8; 9; 10; 11; 12; 13] in
  Credit.getCreditsForTier "constructor" = object
  ∧ Credit.creditsNeededFor "constructor" = object
  ∧ r1 = Credit.Valid JS.NaN "basic"
  ∧ Credit.usedCredits <$> ts1 !! "t"
    = Some (JS.VString "0function Object() { [native code] }")
  ∧ Forall (λ r, Credit.valid r = true) rs.
Proof. vm_compute. repeat split; repeat constructor. Qed.

(* ===================================================================== *)
(** ** POST /scrape and the credit ledger *)
(* ===================================================================== *)

(** Closes [x ∉ [a; b; ...]] when [x] differs from each by its constructor. *)
Ltac not_called :=
  repeat (apply not_elem_of_cons; split; [discriminate|]); apply not_elem_of_nil.

Section ScrapeFacts.
Import JS Credit Gateway.
Variable parseURL : string → option URL.

(** The synchronous segment of [POST /scrape]: either it answers at once,
    with the token table as it was or with an expired account deleted, or it
    has consumed the tier's cost and awaits the extraction. *)
Lemma scrape_begin_cases (now : Z) (w : world) (b : body) :
  let s := scrape_begin parseURL now w b in
  abuse (after s) = abuse w ∧ blacklist (after s) = blacklist w
  ∧ ((∃ r, then_ s = Reply r ∧ status r ≠ 200
           ∧ (credit (after s) = credit w
              ∨ ∃ tok, credit (after s) = delete tok (credit w))
           ∧ ScrapeEnhanced ∉ calls s)
     ∨ (∃ url tok t,
           let tier := default "basic" (tier b) in
           let used := add (usedCredits t) (creditsNeededFor tier) in
           truthy (Gateway.url b) = Some url
           ∧ truthy (accessToken b) = Some tok
           ∧ isValidUrl parseURL url = true
           ∧ credit w !! tok = Some t
           ∧ ¬ now > expiresAt t
           ∧ lt (sub (credits t) (usedCredits t)) (creditsNeededFor tier) = false
           ∧ credit (after s) = <[tok := set_used t used now]> (credit w)
           ∧ then_ s = Await (PScrape url tok tier (sub (credits t) used) (Credit.tier t))
           ∧ calls s = [IsValidUrl; ConsumeCredit; ScrapeEnhanced])).
Proof.
  unfold scrape_begin.
  destruct (truthy (url b)) as [url|] eqn:Hurl;
    [destruct (truthy (accessToken b)) as [tok|] eqn:Htok|].
  2,3: simpl; split; [done|]; split; [done|]; left; eexists; split; [done|];
       split; [done|]; split; [by left | not_called].
  destruct (isValidUrl parseURL url) eqn:Hvalid; simpl.
  2: { split; [done|]; split; [done|]; left; eexists; split; [done|].
       split; [done|]. split; [by left | not_called]. }
  unfold validateAndConsumeCredit.
  destruct (credit w !! tok) as [t|] eqn:Ht.
  2: { simpl. split; [done|]; split; [done|]; left; eexists; split; [done|].
       split; [done|]. split; [left; by destruct w | not_called]. }
  case_bool_decide as Hexp.
  { simpl. split; [done|]; split; [done|]; left; eexists; split; [done|].
    split; [done|]. split; [right; by exists tok | not_called]. }
  cbv zeta.
  destruct (lt _ _) eqn:Hlt.
  { simpl. split; [done|]; split; [done|]; left; eexists; split; [done|].
    split; [done|]. split; [left; by destruct w | not_called]. }
  simpl. split; [done|]; split; [done|]. right. exists url, tok, t.
  by repeat split.
Qed.

Lemma charge_nonneg (tok : string) (p : pending) : 0 ≤ charge tok p.
Proof.
  destruct p as [url a tier r c| |]; simpl; try lia.
  case_decide; [|lia].
  destruct (creditsNeededFor tier) as [[k|]| |] eqn:Hk; try lia.
  destruct (priced_cases tier k Hk) as [->|[->| ->]]; lia.
Qed.

Lemma owed_nonneg (tok : string) (l : list pending) : 0 ≤ owed tok l.
Proof.
  induction l as [|p l IH]; simpl; [lia|]. pose proof (charge_nonneg tok p). lia.
Qed.

Lemma owed_app (tok : string) (l1 l2 : list pending) :
  owed tok (l1 ++ l2) = owed tok l1 + owed tok l2.
Proof. induction l1 as [|p l1 IH]; simpl; [lia|]. rewrite IH. lia. Qed.

Lemma owed_delete (tok : string) (l : list pending) (k : nat) (p : pending) :
  l !! k = Some p → owed tok (delete k l) = owed tok l - charge tok p.
Proof.
  revert k. induction l as [|q l IH]; intros [|k] H; simpl in *; try done.
  - injection H as ->. lia.
  - rewrite (IH k H). lia.
Qed.


Lemma balanced_weaken (lo lo' : Z) (t : token) :
  lo' ≤ lo → balanced lo t → balanced lo' t.
Proof. intros Hle (c & u & Hc & Hu & Hb). exists c, u. repeat split; try done; lia. Qed.

(** *** The invariant of the server *)

Lemma invariant_boot : invariant ∅ boot.
Proof.
  split; [|split]; simpl.
  - intros tok t H. by rewrite lookup_empty in H.
  - intros tok [t H]. by rewrite lookup_empty in H.
  - intros ????? H. by apply elem_of_nil in H.
Qed.

Lemma invariant_mono (seen seen' : gset string) (sv : server) :
  seen ⊆ seen' → invariant seen sv → invariant seen' sv.
Proof.
  intros Hsub (H1 & H2 & H3). split; [done|]. split.
  - intros tok Htok. apply Hsub. by apply H2.
  - intros url tok tier r c Hin. destruct (H3 _ _ _ _ _ Hin). split; [by apply Hsub|done].
Qed.

(** A step that leaves the token table as it is, charges nothing more and
    adds no [POST /scrape] request in flight keeps the invariant. *)
Lemma invariant_frame (seen : gset string) (sv sv' : server) :
  credit (shared sv') = credit (shared sv) →
  (∀ tok, owed tok (inflight sv') ≤ owed tok (inflight sv)) →
  (∀ url tok tier r c, PScrape url tok tier r c ∈ inflight sv' →
     PScrape url tok tier r c ∈ inflight sv) →
  invariant seen sv → invariant seen sv'.
Proof.
  intros Hc Ho Hin (H1 & H2 & H3). split; [|split].
  - intros tok t H. eapply balanced_weaken; [apply Ho|]. apply H1. by rewrite <- Hc.
  - intros tok H. apply H2. by rewrite <- Hc.
  - intros url tok tier r c H. eapply H3. by apply Hin.
Qed.

Lemma owed_unseen (seen : gset string) (sv : server) (tok : string) :
  invariant seen sv → tok ∉ seen → owed tok (inflight sv) = 0.
Proof.
  intros (_ & _ & H3) Hnot. revert H3. generalize (inflight sv) as l.
  induction l as [|p l IH]; intros H3; simpl; [done|].
  rewrite IH by (intros ????? Hin; eapply H3; apply list_elem_of_further, Hin).
  destruct p as [url a tier r c| |]; simpl; try done.
  case_decide as Heq; [|done]. subst a.
  destruct (H3 url tok tier r c) as [Hin _]; [by apply list_elem_of_here|done].
Qed.

Lemma test_begin_credit (now : Z) (w : world) (ip : string) (b : body) :
  let s := test_begin parseURL now w ip b in
  credit (after s) = credit w
  ∧ ∀ p, then_ s = Await p → ∃ url domain, p = PValidate ip url domain.
Proof.
  unfold test_begin. destruct (Abuse.checkIPStatus _ _); simpl; try done.
  all: destruct (Abuse.checkRateLimit _ _ _ _) as [a r];
    destruct (negb (Abuse.allowed r)); simpl; [done|];
    destruct (truthy (url b)) as [u|]; simpl; [|done];
    split; [done|]; intros p [= <-]; eauto.
Qed.

(** How a resumed handler leaves the token table: untouched, unless it is a
    [POST /scrape] whose extraction failed, which refunds and answers. *)
Lemma resume_cases (now : Z) (w : world) (p : pending) (a : answer) :
  let s := resume parseURL now w p a in
  (credit (after s) = credit w
   ∧ ((∃ r, then_ s = Reply r)
      ∨ then_ s = Await p
      ∨ ∃ ip url, then_ s = Await (PTestScrape ip url)))
  ∨ (∃ url tok tier rem ctier r,
        p = PScrape url tok tier rem ctier
        ∧ credit (after s) = refund (credit w) tok tier
        ∧ then_ s = Reply r ∧ creditRefunded r = true ∧ status r = 500
        ∧ calls s = [Refund]).
Proof.
  destruct p as [url tok tier rem ctier|ip url domain|ip url], a as [f|[d|err|msg]];
    simpl;
    try (left; split; [done|];
         first [left; by eauto | right; left; done | right; right; by eauto]).
  - right. by eexists _, _, _, _, _, _.
  - right. by eexists _, _, _, _, _, _.
  - unfold test_validated. destruct (validateUrlEnhanced _ _ _ _ _) as [bl v].
    destruct (negb (valid v)); simpl; left; (split; [done|]).
    + left; eauto.
    + right; right; eauto.
Qed.

Lemma refund_lookup (ts : tokens) (tok tier other : string) :
  refund ts tok tier !! other
  = if decide (tok = other)
    then (λ t, set_usedCredits t (VNumber (sub (usedCredits t) (creditsNeededFor tier))))
           <$> ts !! other
    else ts !! other.
Proof.
  unfold refund. case_decide as Heq.
  - subst other. destruct (ts !! tok) as [t|] eqn:Ht; simpl.
    + by rewrite lookup_insert_eq.
    + done.
  - destruct (ts !! tok); [by rewrite lookup_insert_ne|done].
Qed.

(** Every event keeps the invariant, a fresh token id joining [seen]. *)
Lemma step_invariant (seen : gset string) (sv : server) (e : event) :
  invariant seen sv →
  tiers_numeric e = true →
  (∀ tokenId, tokenId ∈ drawn [e] → tokenId ∉ seen) →
  invariant (seen ∪ list_to_set (drawn [e])) (step parseURL sv e).
Proof.
  intros Hinv Htier Hfresh. pose proof Hinv as (H1 & H2 & H3).
  destruct e as [tokenId now p|now b|now ip b|k now a|now|now|now ip reason|ip|k0 ok0]; simpl.
  - (* Issue *)
    assert (tokenId ∉ seen) as Hnew by (apply Hfresh; simpl; apply list_elem_of_here).
    simpl in Htier.
    destruct (getCreditsForTier (pd_tier p)) as [[c|]| |] eqn:Hc; try done.
    split; [|split]; simpl.
    + intros tok t. destruct (decide (tokenId = tok)) as [<-|Hne].
      * rewrite lookup_insert_eq. intros [= <-].
        rewrite (owed_unseen seen sv tokenId Hinv Hnew).
        exists c, 0. simpl. repeat split; try done.
        destruct (granted_cases _ _ Hc) as [->|[->|[->| ->]]]; lia.
      * rewrite lookup_insert_ne by done. apply H1.
    + intros tok. destruct (decide (tokenId = tok)) as [<-|Hne].
      * intros _. by apply elem_of_union_r, elem_of_union_l, elem_of_singleton.
      * rewrite lookup_insert_ne by done. intros H. apply elem_of_union. left. by apply H2.
    + intros url tok tier r c' Hin. destruct (H3 _ _ _ _ _ Hin).
      split; [apply elem_of_union; by left|done].
  - (* POST /scrape *)
    apply invariant_mono with seen; [apply union_subseteq_l|].
    pose proof (scrape_begin_cases now (shared sv) b) as (_ & _ & Hcases).
    cbv zeta in Hcases. simpl in Htier.
    remember (scrape_begin parseURL now (shared sv) b) as s eqn:Hs. clear Hs.
    unfold land.
    destruct Hcases as [(r & -> & _ & Hcredit & _)|(url & tok & t & Hc)].
    + destruct Hcredit as [Heq|[tok Heq]].
      * by apply invariant_frame with sv.
      * split; [|split]; simpl; rewrite ?Heq.
        -- intros tok' t'. rewrite lookup_delete. case_decide; [done|]. apply H1.
        -- intros tok'. rewrite lookup_delete. case_decide; [by intros [? ?]|]. apply H2.
        -- apply H3.
    + destruct Hc as (_ & _ & _ & Ht & Hexp & Hlt & Hcredit & -> & _).
      destruct (H1 tok t Ht) as (c & u & Hcr & Hus & Hb).
      destruct (creditsNeededFor (default "basic" (tier b))) as [[n|]| |] eqn:Hn; try done.
      rewrite Hcr, Hus in Hlt. simpl in Hlt. apply bool_decide_eq_false in Hlt.
      split; [|split]; simpl; rewrite ?Hcredit.
      * intros tok' t'. rewrite owed_app. simpl.
        destruct (decide (tok = tok')) as [<-|Hne].
        -- rewrite lookup_insert_eq. intros [= <-].
           rewrite Hn, Hus. exists c, (u + n). simpl. repeat split; try done; lia.
        -- rewrite lookup_insert_ne by done.
           rewrite !Z.add_0_r. apply H1.
      * intros tok'. destruct (decide (tok = tok')) as [<-|Hne].
        -- intros _. apply H2. by rewrite Ht.
        -- rewrite lookup_insert_ne by done. apply H2.
      * intros url' tok' tier' r' c' [Hin|Hin%list_elem_of_singleton]%elem_of_app.
        -- by eapply H3.
        -- injection Hin as -> -> -> -> ->. split; [apply H2; by rewrite Ht|].
           by rewrite Hn.
  - (* POST /test-scrape *)
    apply invariant_mono with seen; [apply union_subseteq_l|].
    pose proof (test_begin_credit now (shared sv) ip b) as [Hcredit Hp].
    remember (test_begin parseURL now (shared sv) ip b) as s eqn:Hs. clear Hs.
    apply invariant_frame with sv; unfold land; simpl; try done.
    + intros tok. destruct (then_ _) as [r|p] eqn:Hthen; [lia|].
      destruct (Hp p eq_refl) as (url & domain & ->). rewrite owed_app. simpl. lia.
    + intros url tok tier r c. destruct (then_ _) as [r'|p] eqn:Hthen; [done|].
      destruct (Hp p eq_refl) as (url' & domain & ->).
      intros [Hin|Hin%list_elem_of_singleton]%elem_of_app; [done|discriminate].
  - (* a request in flight is resumed *)
    apply invariant_mono with seen; [apply union_subseteq_l|].
    destruct (inflight sv !! k) as [p|] eqn:Hk; [|done].
    pose proof (resume_cases now (shared sv) p a) as Hcases. cbv zeta in Hcases.
    remember (resume parseURL now (shared sv) p a) as s eqn:Hs. clear Hs.
    unfold land.
    destruct Hcases as [[Hcredit Hthen]|(url & tok & tier & rem & ctier & r & -> & Hcredit & -> & _)].
    + apply invariant_frame with sv; simpl; try done.
      * intros tok. pose proof (charge_nonneg tok p).
        destruct Hthen as [[r ->]|[-> |(ip & url & ->)]];
          rewrite ?owed_app, (owed_delete _ _ _ _ Hk); simpl; lia.
      * intros url tok tier r c.
        destruct Hthen as [[r' ->]|[-> |(ip & url' & ->)]].
        -- apply list_elem_of_delete_inv.
        -- intros [Hin|Hin%list_elem_of_singleton]%elem_of_app.
           ++ by eapply list_elem_of_delete_inv.
           ++ rewrite Hin. by eapply list_elem_of_lookup_2.
        -- intros [Hin|Hin%list_elem_of_singleton]%elem_of_app.
           ++ by eapply list_elem_of_delete_inv.
           ++ discriminate.
    + assert (PScrape url tok tier rem ctier ∈ inflight sv) as Hin
        by (by eapply list_elem_of_lookup_2).
      destruct (H3 _ _ _ _ _ Hin) as [_ Hnum].
      destruct (creditsNeededFor tier) as [[n|]| |] eqn:Hn; try done.
      split; [|split]; simpl; rewrite ?Hcredit.
      * intros tok' t'. rewrite refund_lookup, (owed_delete _ _ _ _ Hk). simpl.
        case_decide as Heq.
        -- subst tok'. destruct (credit (shared sv) !! tok) as [t|] eqn:Ht; [|done].
           simpl. intros [= <-]. destruct (H1 tok t Ht) as (c & u & Hcr & Hus & Hb).
           exists c, (u - n). simpl. rewrite Hn, Hus, Hcr. simpl.
           pose proof (charge_nonneg tok (PScrape url tok tier rem ctier)) as Hpos.
           simpl in Hpos. rewrite decide_True, Hn in Hpos by done.
           repeat split; try done; lia.
        -- intros Ht'. rewrite Z.sub_0_r. by apply H1.
      * intros tok'. rewrite refund_lookup. case_decide as Heq; [|apply H2].
        subst tok'. rewrite fmap_is_Some. apply H2.
      * intros url' tok' tier' r' c' Hin'%list_elem_of_delete_inv. by eapply H3.
  - (* cleanExpiredTokens *)
    apply invariant_mono with seen; [apply union_subseteq_l|].
    split; [|split]; simpl.
    + intros tok t [Ht _]%map_lookup_filter_Some. by apply H1.
    + intros tok [t [Ht _]%map_lookup_filter_Some]. apply H2. by rewrite Ht.
    + apply H3.
  - apply invariant_mono with seen; [apply union_subseteq_l|]. by apply invariant_frame with sv.
  - apply invariant_mono with seen; [apply union_subseteq_l|]. by apply invariant_frame with sv.
  - apply invariant_mono with seen; [apply union_subseteq_l|]. by apply invariant_frame with sv.
  - apply invariant_mono with seen; [apply union_subseteq_l|]. by apply invariant_frame with sv.
Qed.

Lemma drawn_cons (e : event) (es : list event) : drawn (e :: es) = drawn [e] ++ drawn es.
Proof. unfold drawn. simpl. by destruct e. Qed.

Lemma run_invariant (es : list event) : ∀ (seen : gset string) (sv : server),
  invariant seen sv →
  Forall (λ e, tiers_numeric e = true) es →
  NoDup (drawn es) →
  (∀ tokenId, tokenId ∈ drawn es → tokenId ∉ seen) →
  invariant (seen ∪ list_to_set (drawn es)) (run parseURL sv es).
Proof.
  induction es as [|e es IH]; intros seen sv Hinv Htiers Hnodup Hfresh.
  - simpl. eapply invariant_mono; [|done]. apply union_subseteq_l.
  - apply Forall_cons in Htiers as [He Hes]. rewrite drawn_cons in *.
    apply NoDup_app in Hnodup as (_ & Hdisj & Hnodup).
    simpl. eapply invariant_mono; [|apply IH; [apply step_invariant| | |]]; try done.
    + rewrite list_to_set_app_L. by rewrite (assoc_L (∪)).
    + intros tokenId Hin. apply Hfresh, elem_of_app. by left.
    + intros tokenId Hin [Hseen|Hdrawn%elem_of_list_to_set]%elem_of_union.
      * eapply Hfresh; [|done]. apply elem_of_app. by right.
      * by eapply Hdisj.
Qed.

End ScrapeFacts.

(** The bound of C1 where it holds.  Start the server, let token ids be
    drawn without repetition and let every tier named be one with a numeric
    grant and cost (every tier but the twelve names an object literal
    inherits); then after any sequence of token issues, [POST /scrape] and
    [POST /test-scrape] requests, settlements of requests in flight
    (success, failure with its refund, or rejection with its refund), expiry
    sweeps, administrative actions and resumptions of [reportAbuse], every
    account in the table holds whole numbers with
    [0 ≤ usedCredits ≤ credits], and at least what the requests still in
    flight have charged is in [usedCredits]. *)
Theorem credits_within_bounds (parseURL : string → option URL)
    (es : list Gateway.event) (tok : string) (t : Credit.token) :
  Forall (λ e, tiers_numeric e = true) es →
  NoDup (drawn es) →
  let sv := Gateway.run parseURL Gateway.boot es in
  Gateway.credit (Gateway.shared sv) !! tok = Some t →
  balanced 0 t ∧ balanced (owed tok (Gateway.inflight sv)) t.
Proof.
  intros Htiers Hnodup sv Ht.
  destruct (run_invariant parseURL es ∅ Gateway.boot invariant_boot Htiers Hnodup)
    as (H1 & _); [set_solver|].
  split; [|by apply H1]. eapply balanced_weaken; [apply owed_nonneg|by apply H1].
Qed.


Lemma credits_within_bounds_sample :
  Forall (λ e, tiers_numeric e = true) sampleEvents
  ∧ NoDup (drawn sampleEvents)
  ∧ ∃ t, Gateway.credit (Gateway.shared (Gateway.run sampleParse Gateway.boot sampleEvents))
           !! "a1" = Some t
         ∧ Credit.usedCredits t = JS.VNumber (JS.Num 6)
         ∧ balanced 0 t
         ∧ balanced (owed "a1" (Gateway.inflight
                                  (Gateway.run sampleParse Gateway.boot sampleEvents))) t.
Proof.
  assert (Forall (λ e, tiers_numeric e = true) sampleEvents) as Htiers
    by (repeat constructor).
  assert (NoDup (drawn sampleEvents)) as Hnodup
    by (vm_compute; repeat constructor; apply not_elem_of_nil).
  split; [exact Htiers|]. split; [exact Hnodup|].
  eexists. split; [vm_compute; reflexivity|]. split; [reflexivity|].
  apply (credits_within_bounds sampleParse sampleEvents "a1" _ Htiers Hnodup).
  vm_compute. reflexivity.
Defined.

(** C1, at a tier every object literal inherits.  A basic token is issued
    and one [POST /scrape] on it names the tier "constructor".  The consume
    is accepted and leaves the string "0function Object() { [native code] }"
    in [usedCredits]; when the extraction has succeeded nothing is in
    flight and the account is out of the bound [0 ≤ usedCredits ≤ credits].
    When the extraction fails instead, the refund leaves [NaN] there. *)
Theorem inherited_tier_breaks_credit_bound :
  let served := Gateway.run sampleParse Gateway.boot
                  (inheritedTierEvents (Gateway.Success "{}")) in
  let failed := Gateway.run sampleParse Gateway.boot
                  (inheritedTierEvents (Gateway.Failure "net::ERR_TIMED_OUT")) in
  NoDup (drawn (inheritedTierEvents (Gateway.Success "{}")))
  ∧ Gateway.inflight served = [] ∧ Gateway.inflight failed = []
  ∧ (∃ t, Gateway.credit (Gateway.shared served) !! "a1" = Some t
          ∧ Credit.credits t = JS.VNumber (JS.Num 10)
          ∧ Credit.usedCredits t = JS.VString "0function Object() { [native code] }"
          ∧ ¬ balanced 0 t)
  ∧ (∃ t, Gateway.credit (Gateway.shared failed) !! "a1" = Some t
          ∧ Credit.credits t = JS.VNumber (JS.Num 10)
          ∧ Credit.usedCredits t = JS.VNumber JS.NaN
          ∧ ¬ balanced 0 t).
Proof.
  split; [vm_compute; repeat constructor; apply not_elem_of_nil|].
  split; [by vm_compute|]. split; [by vm_compute|]. split.
  - eexists. split; [vm_compute; reflexivity|]. split; [done|]. split; [done|].
    intros (c & u & _ & Hu & _). discriminate Hu.
  - eexists. split; [vm_compute; reflexivity|]. split; [done|]. split; [done|].
    intros (c & u & _ & Hu & _). discriminate Hu.
Qed.



(* ===================================================================== *)
(** ** Rate limiter *)
(* ===================================================================== *)

Section LimiterFacts.
Import Abuse.

Lemma prune_sublist now (l : list Z) : prune now l `sublist_of` l.
Proof. apply sublist_filter. Qed.

(** Resuming a call of [reportAbuse] touches the report file and the calls
    under way, nothing else. *)
Lemma resumeReport_frame (st : state) (k : nat) (ok : bool) :
  ipTracker (resumeReport st k ok) = ipTracker st
  ∧ domainTracker (resumeReport st k ok) = domainTracker st
  ∧ suspiciousIPs (resumeReport st k ok) = suspiciousIPs st
  ∧ bannedIPs (resumeReport st k ok) = bannedIPs st
  ∧ logFile (resumeReport st k ok) = logFile st.
Proof.
  unfold resumeReport. destruct (filing st !! k) as [[r|rs]|]; try done. by destruct ok.
Qed.

(** The state [checkRateLimit] leaves: the caller's window pruned, then one
    of four continuations. *)
Lemma checkRateLimit_state now st ip domain :
  let pruned := {| requests := prune now (requests (ipEntry st (ipKey ip)));
                   failures := prune now (failures (ipEntry st (ipKey ip))) |} in
  let st1 := set_ipTracker st (<[ipKey ip := pruned]> (ipTracker st)) in
  let st' := (checkRateLimit now st ip domain).1 in
  (len (requests pruned) >= maxRequestsPerIP
   ∧ st' = flagSuspiciousIP now st1 ip "Rate limit exceeded")
  ∨ (¬ len (requests pruned) >= maxRequestsPerIP
     ∧ len (failures pruned) >= maxFailedAttempts
     ∧ st' = set_bannedIPs st1 ({[ip]} ∪ bannedIPs st1))
  ∨ (¬ len (requests pruned) >= maxRequestsPerIP
     ∧ ¬ len (failures pruned) >= maxFailedAttempts
     ∧ ((JS.truthy domain = None ∧ st' = st1)
        ∨ ∃ d, JS.truthy domain = Some d
               ∧ st' = set_domainTracker st1
                         (<[domainKey d :=
                              {| d_requests := prune now (d_requests (domainEntry st (domainKey d))) |}]>
                            (domainTracker st)))).
Proof.
  unfold checkRateLimit, ipEntry. cbv zeta.
  case_bool_decide as Hreq; [left; by split|].
  case_bool_decide as Hfail; [right; left; by repeat split|].
  right; right. split; [done|]. split; [done|].
  destruct (JS.truthy domain) as [d|]; [|left; by split].
  right. exists d. split; [done|]. by case_bool_decide.
Qed.

Lemma ipEntry_insert st key d key' :
  ipEntry (set_ipTracker st (<[key := d]> (ipTracker st))) key'
  = if decide (key = key') then d else ipEntry st key'.
Proof.
  unfold ipEntry. simpl. case_decide as Heq.
  - subst. by rewrite lookup_insert_eq.
  - by rewrite lookup_insert_ne.
Qed.

(** An operation other than [recordRequest] and [recordFailure] leaves in
    every window a sublist of what it held. *)
Lemma windows_shrink (st : state) (timed : Z * operation) (key : string) :
  records timed.2 = false →
  requests (ipEntry (perform st timed) key) `sublist_of` requests (ipEntry st key)
  ∧ failures (ipEntry (perform st timed) key) `sublist_of` failures (ipEntry st key)
  ∧ d_requests (domainEntry (perform st timed) key)
      `sublist_of` d_requests (domainEntry st key).
Proof.
  destruct timed as [now op]. simpl. intros Hop.
  destruct op as [ip domain|ip domain|ip reason|ip reason|ip reason meta|k0 ok0| |ip reason|ip|ip url ok];
    try discriminate; try done.
  - (* checkRateLimit *)
    pose proof (checkRateLimit_state now st ip domain) as Hst. cbv zeta in Hst.
    simpl. remember (checkRateLimit now st ip domain).1 as st' eqn:E. clear E.
    assert (∀ d, ipEntry (set_ipTracker st (<[ipKey ip := d]> (ipTracker st))) key = d
                 ∨ ipEntry (set_ipTracker st (<[ipKey ip := d]> (ipTracker st))) key
                   = ipEntry st key ∧ key ≠ ipKey ip) as Hip.
    { intros d. rewrite ipEntry_insert. case_decide; [by left|right]. split; congruence. }
    assert (requests (ipEntry st' key) `sublist_of` requests (ipEntry st key)
            ∧ failures (ipEntry st' key) `sublist_of` failures (ipEntry st key)) as [? ?].
    { assert (ipTracker st' = <[ipKey ip :=
                {| requests := prune now (requests (ipEntry st (ipKey ip)));
                   failures := prune now (failures (ipEntry st (ipKey ip))) |}]> (ipTracker st))
        as Htr.
      { destruct Hst as [[_ ->]|[(_ & _ & ->)|(_ & _ & [[_ ->]|(d & _ & ->)])]]; done. }
      unfold ipEntry at 1 3. rewrite Htr.
      destruct (decide (ipKey ip = key)) as [<-|Hne].
      - rewrite lookup_insert_eq. simpl. split; apply prune_sublist.
      - rewrite lookup_insert_ne by done. done. }
    split; [done|]. split; [done|].
    destruct Hst as [[_ ->]|[(_ & _ & ->)|(_ & _ & [[_ ->]|(d & _ & ->)])]]; try done.
    unfold domainEntry at 1. simpl.
    destruct (decide (domainKey d = key)) as [<-|Hne].
    + rewrite lookup_insert_eq. simpl. apply prune_sublist.
    + by rewrite lookup_insert_ne.
  - (* reportAbuse resumed *)
    unfold ipEntry, domainEntry. simpl.
    by destruct (resumeReport_frame st k0 ok0) as (-> & -> & _).
  - (* cleanOldEntries *)
    unfold ipEntry, domainEntry, cleanOldEntries. simpl. rewrite !lookup_omap.
    split; [|split].
    + destruct (ipTracker st !! key) as [d|]; simpl; [|done].
      destruct (afterCutoff now (requests d)) eqn:E1;
        [destruct (afterCutoff now (failures d)); simpl; try apply sublist_nil_l;
         rewrite <- E1; apply sublist_filter|].
      simpl. rewrite <- E1. apply sublist_filter.
    + destruct (ipTracker st !! key) as [d|]; simpl; [|done].
      destruct (afterCutoff now (requests d)) eqn:E1;
        [destruct (afterCutoff now (failures d)) eqn:E2; simpl; try apply sublist_nil_l;
         rewrite <- E2; apply sublist_filter|].
      simpl. apply sublist_filter.
    + destruct (domainTracker st !! key) as [d|]; simpl; [|done].
      destruct (afterCutoff now (d_requests d)) eqn:E1; simpl; [apply sublist_nil_l|].
      rewrite <- E1. apply sublist_filter.
Qed.

Lemma filter_filter_length {A} (P Q : A → Prop) `{∀ x, Decision (P x)}
    `{∀ x, Decision (Q x)} (l : list A) :
  (∀ x, P x → Q x) → length (filter P (filter Q l)) = length (filter P l).
Proof.
  intros HPQ. induction l as [|x l IH]; [done|].
  rewrite !filter_cons. destruct (decide (Q x)) as [HQ|HQ].
  - rewrite filter_cons. destruct (decide (P x)); simpl; by rewrite IH.
  - rewrite decide_False by (intros HP; by apply HQ, HPQ). done.
Qed.

Lemma filter_length_mono {A} (P Q : A → Prop) `{∀ x, Decision (P x)}
    `{∀ x, Decision (Q x)} (l : list A) :
  (∀ x, P x → Q x) → (length (filter P l) ≤ length (filter Q l))%nat.
Proof.
  intros HPQ. rewrite <- (filter_filter_length P Q l HPQ). apply length_filter.
Qed.

(** Failures recorded since [since] stay in the window through every
    operation whose clock reads less than an hour after [since]. *)
Lemma perform_keeps_failures (st : state) (now : Z) (op : operation) (ip : string)
    (since : Z) :
  now - since < windowMs →
  (failuresSince st ip since ≤ failuresSince (perform st (now, op)) ip since)%nat.
Proof.
  intros Hnow. unfold failuresSince.
  assert (∀ l, length (filter (λ time, since ≤ time) (prune now l))
               = length (filter (λ time, since ≤ time) l)) as Hprune.
  { intros l. apply filter_filter_length. intros x Hx. lia. }
  assert (∀ l, length (filter (λ time, since ≤ time) (afterCutoff now l))
               = length (filter (λ time, since ≤ time) l)) as Hcut.
  { intros l. apply filter_filter_length. intros x Hx. lia. }
  destruct op as [ip' domain|ip' domain|ip' reason|ip' reason|ip' reason meta|k0 ok0| |ip' reason|ip'|ip' url ok];
    simpl; try done.
  - pose proof (checkRateLimit_state now st ip' domain) as Hst. cbv zeta in Hst.
    remember (checkRateLimit now st ip' domain).1 as st' eqn:E. clear E.
    assert (ipTracker st' = <[ipKey ip' :=
              {| requests := prune now (requests (ipEntry st (ipKey ip')));
                 failures := prune now (failures (ipEntry st (ipKey ip'))) |}]> (ipTracker st))
      as Htr.
    { destruct Hst as [[_ ->]|[(_ & _ & ->)|(_ & _ & [[_ ->]|(d & _ & ->)])]]; done. }
    unfold ipEntry at 2. rewrite Htr.
    destruct (decide (ipKey ip' = ipKey ip)) as [Heq|Hne].
    + rewrite Heq, lookup_insert_eq. simpl. by rewrite Hprune.
    + by rewrite lookup_insert_ne.
  - unfold recordRequest.
    assert (failures (ipEntry (set_ipTracker st
              (<[ipKey ip' := {| requests := requests (default emptyIp (ipTracker st !! ipKey ip')) ++ [now];
                                 failures := failures (default emptyIp (ipTracker st !! ipKey ip')) |}]>
                 (ipTracker st))) (ipKey ip))
            = failures (ipEntry st (ipKey ip))) as Hsame.
    { rewrite ipEntry_insert. case_decide as Heq; [|done]. simpl. by rewrite <- Heq. }
    destruct (JS.truthy domain); simpl; unfold ipEntry in *; simpl in *; by rewrite Hsame.
  - unfold recordFailure. cbv zeta.
    assert (∀ st2, ipTracker st2 = <[ipKey ip' :=
                     {| requests := requests (default emptyIp (ipTracker st !! ipKey ip'));
                        failures := failures (default emptyIp (ipTracker st !! ipKey ip')) ++ [now] |}]>
                     (ipTracker st) →
              (failuresSince st ip since ≤ failuresSince st2 ip since)%nat)
      as Hgrow.
    { intros st2 Htr. unfold failuresSince. unfold ipEntry at 2. rewrite Htr.
      destruct (decide (ipKey ip' = ipKey ip)) as [Heq|Hne].
      - rewrite Heq, lookup_insert_eq. simpl. rewrite filter_app, length_app.
        unfold ipEntry. lia.
      - by rewrite lookup_insert_ne. }
    destruct (_ || _); [case_bool_decide|]; by apply Hgrow.
  - unfold ipEntry. by destruct (resumeReport_frame st k0 ok0) as (-> & _).
  - unfold ipEntry, cleanOldEntries. simpl. rewrite lookup_omap.
    destruct (ipTracker st !! ipKey ip) as [d|]; simpl; [|done].
    rewrite <- (Hcut (failures d)).
    destruct (afterCutoff now (requests d));
      [destruct (afterCutoff now (failures d)) eqn:E2; simpl; [done|by rewrite <- E2]|done].
Qed.

Lemma performAll_keeps_failures (ops : list (Z * operation)) : ∀ (st : state) ip since bound,
  bound - since < windowMs →
  Forall (λ timed, timed.1 ≤ bound) ops →
  (failuresSince st ip since ≤ failuresSince (performAll st ops) ip since)%nat.
Proof.
  induction ops as [|[now op] ops IH]; intros st ip since bound Hb Hall; [done|].
  apply Forall_cons in Hall as [Hnow Hall]. simpl in *.
  etrans; [|by eapply IH]. apply perform_keeps_failures. lia.
Qed.

Lemma performAll_app st ops1 ops2 :
  performAll st (ops1 ++ ops2) = performAll (performAll st ops1) ops2.
Proof. apply foldl_app. Qed.

(** A recorded failure counts. *)
Lemma recordFailure_counts (st : state) (now : Z) (ip reason : string) (since : Z) :
  since ≤ now →
  (failuresSince st ip since + 1 ≤ failuresSince (recordFailure now st ip reason) ip since)%nat.
Proof.
  intros Hle. unfold recordFailure. cbv zeta.
  assert (∀ st2, ipTracker st2 = <[ipKey ip :=
                   {| requests := requests (default emptyIp (ipTracker st !! ipKey ip));
                      failures := failures (default emptyIp (ipTracker st !! ipKey ip)) ++ [now] |}]>
                   (ipTracker st) →
            (failuresSince st ip since + 1 ≤ failuresSince st2 ip since)%nat)
    as Hgrow.
  { intros st2 Htr. unfold failuresSince. unfold ipEntry at 2.
    rewrite Htr, lookup_insert_eq. simpl.
    rewrite filter_app, length_app. rewrite (filter_cons _ now), decide_True by done.
    simpl. unfold ipEntry. lia. }
  destruct (_ || _); [case_bool_decide|]; by apply Hgrow.
Qed.

(** The last 1000 of an array ends as the array does. *)
Lemma last_last_n {A} (l : list A) (x : A) : last (last_n 1000 (l ++ [x])) = Some x.
Proof.
  unfold last_n. rewrite length_app. simpl.
  destruct (decide (length l + 1 - 1000 ≤ length l)%nat) as [Hle|Hgt]; [|lia].
  rewrite drop_app_le by done. apply last_snoc.
Qed.

Lemma delete_insert_same {A} (l : list A) (k : nat) (x : A) :
  delete k (<[k := x]> l) = delete k l.
Proof.
  revert k. induction l as [|y l IH]; intros [|k]; simpl; try done. f_equal. apply IH.
Qed.

Lemma resumeReport_read (st : state) (k : nat) (r : report) (ok : bool) :
  filing st !! k = Some (AwaitRead r) →
  resumeReport st k ok
  = set_filing st
      (<[k := AwaitWrite
                (let reports := (if ok then abuseFile st else []) ++ [r] in
                 if bool_decide (1000 < length reports)%nat then last_n 1000 reports
                 else reports)]> (filing st)).
Proof. intros Hk. unfold resumeReport. by rewrite Hk. Qed.

Lemma resumeReport_write (st : state) (k : nat) (reports : list report) :
  filing st !! k = Some (AwaitWrite reports) →
  resumeReport st k true = set_filing (set_abuseFile st reports) (delete k (filing st)).
Proof. intros Hk. unfold resumeReport. by rewrite Hk. Qed.

(** A call of [reportAbuse] that is resumed twice in a row, its read and its
    write going through, leaves its report last in the file and is over. *)
Lemma report_lands (st : state) (k : nat) (r : report) :
  filing st !! k = Some (AwaitRead r) →
  let st' := resumeReport (resumeReport st k true) k true in
  last (abuseFile st') = Some r
  ∧ filing st' = delete k (filing st).
Proof.
  intros Hk. cbv zeta. rewrite (resumeReport_read st k r true Hk).
  erewrite resumeReport_write
    by (cbn [filing set_filing]; apply list_lookup_insert_eq; by eapply lookup_lt_Some).
  cbn [abuseFile set_filing set_abuseFile filing]. split.
  - cbv zeta. case_bool_decide; [apply last_last_n|apply last_snoc].
  - apply delete_insert_same.
Qed.

(** The call [reportAbuse] has just started is the last one under way. *)
Lemma reportAbuse_last (st : state) (r : report) :
  (filing st ++ [AwaitRead r]) !! length (filing st) = Some (AwaitRead r).
Proof. by rewrite lookup_app_r, Nat.sub_diag. Qed.

Lemma handedOver_snoc (st st' : state) (r : report) :
  filing st' = filing st ++ [AwaitRead r] → handedOver st' r.
Proof. intros H. unfold handedOver. rewrite H. apply last_snoc. Qed.

(** A report handed over reaches the file when its call runs on alone. *)
Lemma handedOver_lands (st : state) (r : report) :
  handedOver st r → last (abuseFile (lastCallDone st)) = Some r.
Proof.
  unfold handedOver, lastCallDone. intros Hlast.
  apply report_lands. rewrite last_lookup in Hlast. done.
Qed.

(** The third failure inside the hour, its reason naming the blacklist, bans
    and calls [reportAbuse] with the incident, however few failures the
    general cap has seen; the report file is not written yet. *)
Lemma recordFailure_bans (st : state) (now : Z) (ip reason : string) (since : Z) :
  occurs_in "blacklist" reason →
  now - since < windowMs →
  (2 ≤ failuresSince st ip since)%nat →
  let st' := recordFailure now st ip reason in
  ip ∈ bannedIPs st'
  ∧ abuseFile st' = abuseFile st
  ∧ ∃ attempts, (3 ≤ attempts)%nat
                ∧ filing st' = filing st ++ [AwaitRead (bypassReport now ip reason attempts)].
Proof.
  intros Hreason Hnow Hcount. unfold recordFailure. cbv zeta.
  apply includes_spec in Hreason. rewrite Hreason. simpl.
  set (fs := failures (default emptyIp (ipTracker st !! ipKey ip)) ++ [now]).
  assert (3 ≤ length (prune now fs))%nat as Hlen.
  { unfold failuresSince, ipEntry in Hcount. unfold fs, prune.
    rewrite filter_app, length_app, (filter_cons _ now), decide_True by (unfold windowMs; lia).
    simpl.
    pose proof (filter_length_mono (λ time, since ≤ time) (λ time, now - time < windowMs)
                  (failures (default emptyIp (ipTracker st !! ipKey ip)))) as Hmono.
    specialize (Hmono ltac:(intros x Hx; simpl in *; lia)). lia. }
  rewrite bool_decide_eq_true_2 by (unfold len, maxBlacklistAttempts; lia).
  split; [simpl; set_solver|]. split; [done|].
  by exists (length (prune now fs)).
Qed.

(** Only [unbanIP] lifts a ban. *)
Lemma perform_keeps_ban (st : state) (now : Z) (op : operation) (ip : string) :
  op ≠ OpUnbanIP ip → ip ∈ bannedIPs st → ip ∈ bannedIPs (perform st (now, op)).
Proof.
  intros Hop Hban.
  destruct op as [ip' domain|ip' domain|ip' reason|ip' reason|ip' reason meta|k0 ok0| |ip' reason|ip'|ip' url ok];
    simpl; try done.
  - pose proof (checkRateLimit_state now st ip' domain) as Hst. cbv zeta in Hst.
    destruct Hst as [[_ ->]|[(_ & _ & ->)|(_ & _ & [[_ ->]|(d & _ & ->)])]];
      simpl; set_solver.
  - unfold recordRequest. by destruct (JS.truthy domain).
  - unfold recordFailure. cbv zeta. destruct (_ || _); [case_bool_decide|]; simpl; set_solver.
  - by destruct (resumeReport_frame st k0 ok0) as (_ & _ & _ & -> & _).
  - set_solver.
  - assert (ip ≠ ip') by congruence. set_solver.
Qed.

Lemma performAll_keeps_ban (ops : list (Z * operation)) : ∀ (st : state) (ip : string),
  Forall (λ timed, timed.2 ≠ OpUnbanIP ip) ops →
  ip ∈ bannedIPs st → ip ∈ bannedIPs (performAll st ops).
Proof.
  induction ops as [|[now op] ops IH]; intros st ip Hall Hban; [done|].
  apply Forall_cons in Hall as [Hop Hall]. simpl.
  apply IH; [done|]. by apply perform_keeps_ban.
Qed.

End LimiterFacts.

(** C5, as amended.  [checkRateLimit] is no pure check.  It stores the
    caller's window pruned to the trailing hour (an empty one when the
    caller was unknown).  At the per-IP cap it adds the caller to the
    suspicious set and calls [reportAbuse] with a "Rate limit exceeded"
    incident, a call it does not await; otherwise, at the failure cap, it
    adds the caller to the ban set; otherwise it stores the window of the
    domain asked for, pruned likewise (an empty one when the domain was
    unknown).  It changes nothing else: nothing leaves either set, the
    report file and the access log are as they were, and no window gains a
    timestamp.  No operation of the limiter other than [recordRequest] and
    [recordFailure] adds a timestamp: after it every per-IP and per-domain
    window is a sublist of what it was. *)
Theorem checkRateLimit_prunes_never_records :
  (∀ now st ip domain,
     let st' := (Abuse.checkRateLimit now st ip domain).1 in
     let window := windowAt now st ip in
     let atCap :=
       bool_decide (Abuse.len (Abuse.requests window) >= Abuse.maxRequestsPerIP) in
     let atFailureCap :=
       negb atCap
       && bool_decide (Abuse.len (Abuse.failures window) >= Abuse.maxFailedAttempts) in
     Abuse.ipTracker st' = <[Abuse.ipKey ip := window]> (Abuse.ipTracker st)
     ∧ Abuse.domainTracker st'
       = (if atCap || atFailureCap then Abuse.domainTracker st
          else match JS.truthy domain with
               | Some d =>
                   <[Abuse.domainKey d :=
                       {| Abuse.d_requests :=
                            Abuse.prune now
                              (Abuse.d_requests (domainEntry st (Abuse.domainKey d))) |}]>
                     (Abuse.domainTracker st)
               | None => Abuse.domainTracker st
               end)
     ∧ Abuse.suspiciousIPs st'
       = (if atCap then {[ip]} ∪ Abuse.suspiciousIPs st else Abuse.suspiciousIPs st)
     ∧ Abuse.filing st'
       = (if atCap then Abuse.filing st ++ [Abuse.AwaitRead (rateLimitReport now ip)]
          else Abuse.filing st)
     ∧ Abuse.bannedIPs st'
       = (if atFailureCap then {[ip]} ∪ Abuse.bannedIPs st else Abuse.bannedIPs st)
     ∧ Abuse.abuseFile st' = Abuse.abuseFile st
     ∧ Abuse.logFile st' = Abuse.logFile st)
  ∧ (∀ st now op key,
       records op = false →
       Abuse.requests (ipEntry (Abuse.perform st (now, op)) key)
         `sublist_of` Abuse.requests (ipEntry st key)
       ∧ Abuse.failures (ipEntry (Abuse.perform st (now, op)) key)
           `sublist_of` Abuse.failures (ipEntry st key)
       ∧ Abuse.d_requests (domainEntry (Abuse.perform st (now, op)) key)
           `sublist_of` Abuse.d_requests (domainEntry st key)).
Proof.
  split.
  - intros now st ip domain st' window atCap atFailureCap.
    unfold st', atFailureCap, atCap, window, Abuse.checkRateLimit, windowAt, ipEntry,
      domainEntry.
    cbv zeta. cbn [Abuse.requests Abuse.failures].
    case_bool_decide as Hreq; [by repeat split|].
    case_bool_decide as Hfail; [by repeat split|].
    cbn [negb andb orb].
    destruct (JS.truthy domain) as [d|]; [case_bool_decide|]; by repeat split.
  - intros st now op key Hop. by apply (windows_shrink st (now, op) key).
Qed.

(** C5, as stated, fails: a first check for an unknown caller is allowed and
    leaves a window for the caller in the per-IP table; a check that finds
    ten failures in the window puts the caller in the ban set. *)
Lemma checkRateLimit_mutates :
  let '(st', r) := Abuse.checkRateLimit 5000 Abuse.init "203.0.113.7" None in
  r = Abuse.Allowed 100
  ∧ Abuse.ipTracker Abuse.init !! "ip_203.0.113.7" = None
  ∧ Abuse.ipTracker st' !! "ip_203.0.113.7" = Some Abuse.emptyIp
  ∧ st' ≠ Abuse.init.
Proof.
  vm_compute. by repeat split.
Qed.

(** C6, as amended.  Three recorded failures of one caller whose reasons
    contain "blacklist", the third less than an hour after the first (the
    clock of whatever the limiter does in between not running past the
    third), leave the caller in the ban set, whether or not the ten-failure
    cap was reached, and the third one calls [reportAbuse] with the incident.
    That call is not awaited: the report file is as it was when
    [recordFailure] returns, and the incident is the last report of the file
    once the call has read and written, both going through, with no other
    call resumed in between.  From the ban on, until [unbanIP] is called for
    the caller, [checkIPStatus] reports it banned and [POST /test-scrape]
    answers 403 after that one check, leaving all state as it is. *)
Theorem blacklist_failures_ban (parseURL : string → option URL) (st0 : Abuse.state)
    (pre mid1 mid2 later : list (Z * Abuse.operation)) (ip r1 r2 r3 : string)
    (t1 t2 t3 : Z) :
  occurs_in "blacklist" r1 → occurs_in "blacklist" r2 → occurs_in "blacklist" r3 →
  t1 ≤ t2 ≤ t3 →
  t3 - t1 < Abuse.windowMs →
  Forall (λ timed, timed.1 ≤ t3) (mid1 ++ mid2) →
  Forall (λ timed, timed.2 ≠ Abuse.OpUnbanIP ip) later →
  let before := Abuse.performAll st0
                  (pre ++ [(t1, Abuse.OpRecordFailure ip r1)] ++ mid1
                       ++ [(t2, Abuse.OpRecordFailure ip r2)] ++ mid2) in
  let st := Abuse.recordFailure t3 before ip r3 in
  let st' := Abuse.performAll st later in
  ip ∈ Abuse.bannedIPs st
  ∧ (∃ attempts, (3 ≤ attempts)%nat
                 ∧ handedOver st (bypassReport t3 ip r3 attempts)
                 ∧ Abuse.abuseFile st = Abuse.abuseFile before
                 ∧ last (Abuse.abuseFile (lastCallDone st))
                   = Some (bypassReport t3 ip r3 attempts))
  ∧ Abuse.checkIPStatus st' ip = Abuse.Banned
  ∧ ∀ now w b, Gateway.abuse w = st' →
      ∃ r, Gateway.test_begin parseURL now w ip b
           = {| Gateway.after := w; Gateway.calls := [Gateway.CheckIPStatus];
                Gateway.then_ := Gateway.Reply r |}
           ∧ Gateway.status r = 403.
Proof.
  intros _ _ H3 [H12 H23] Hwin Hmid Hlater before st st'.
  apply Forall_app in Hmid as [Hmid1 Hmid2].
  destruct (recordFailure_bans before t3 ip r3 t1 H3 Hwin)
    as (Hban & Hfile & attempts & Hatt & Hfiling).
  { unfold before. rewrite !performAll_app. simpl.
    etrans; [|eapply performAll_keeps_failures; [apply Hwin|done]].
    etrans; [|apply recordFailure_counts; lia].
    etrans; [|apply Nat.add_le_mono_r;
              eapply performAll_keeps_failures; [apply Hwin|done]].
    etrans; [|apply Nat.add_le_mono_r, recordFailure_counts; lia]. lia. }
  fold st in Hban, Hfile, Hfiling.
  assert (ip ∈ Abuse.bannedIPs st') as Hban' by (by apply performAll_keeps_ban).
  split; [done|]. split.
  { exists attempts. split; [done|].
    pose proof (handedOver_snoc _ _ _ Hfiling) as Hover.
    split; [done|]. split; [done|]. by apply handedOver_lands. }
  assert (Abuse.checkIPStatus st' ip = Abuse.Banned) as Hstatus
    by (unfold Abuse.checkIPStatus; by rewrite bool_decide_eq_true_2).
  split; [done|]. intros now w b Hw. unfold Gateway.test_begin. rewrite Hw, Hstatus.
  eexists. by split.
Qed.

(** C6, as stated, fails: with the offender banned, [checkRateLimit] still
    allows it, and [POST /scrape], which consults no ban set, consumes a
    credit and starts the extraction. *)
Lemma banned_caller_passes_checkRateLimit :
  Abuse.checkIPStatus (Gateway.abuse sampleWorld) sampleOffender = Abuse.Banned
  ∧ (Abuse.checkRateLimit 4000 (Gateway.abuse sampleWorld) sampleOffender
       (Some "example.org")).2 = Abuse.Allowed 100
  ∧ Gateway.then_ (Gateway.scrape_begin sampleParse 4000 sampleWorld
                     (sampleBody "https://example.org/a" "a1" "basic"))
    = Gateway.Await (Gateway.PScrape "https://example.org/a" "a1" "basic" (JS.Num 9) "basic").
Proof. vm_compute. by repeat split. Qed.

(* ===================================================================== *)
(** ** Legality gate: blacklist *)
(* ===================================================================== *)

Section SplitFacts.
Import JS.
Variable sep : ascii.

Let dot : string := String sep EmptyString.

Lemma split_nonempty (s : string) : split sep s ≠ [].
Proof.
  destruct s as [|c r]; simpl; [done|]. case_decide; [done|].
  by destruct (split sep r).
Qed.

Lemma split_app (p s : string) :
  split sep (p +:+ dot +:+ s) = split sep p ++ split sep s.
Proof.
  induction p as [|c p IH].
  - unfold dot. change ("" +:+ String sep "" +:+ s) with (String sep s).
    simpl. by rewrite decide_True.
  - rewrite append_cons. simpl. rewrite IH. case_decide; [done|].
    pose proof (split_nonempty p). by destruct (split sep p).
Qed.

Lemma join_split (s : string) : join dot (split sep s) = s.
Proof.
  induction s as [|c r IH]; [done|]. simpl. case_decide as Hc.
  - subst c. pose proof (split_nonempty r).
    destruct (split sep r) as [|w ws] eqn:E; [done|].
    change (join dot ("" :: w :: ws)) with ("" +:+ dot +:+ join dot (w :: ws)).
    by rewrite IH.
  - pose proof (split_nonempty r).
    destruct (split sep r) as [|w ws] eqn:E; [done|].
    destruct ws as [|w' ws].
    + simpl in *. by rewrite IH.
    + change (join dot (String c w :: w' :: ws))
        with (String c w +:+ dot +:+ join dot (w' :: ws)).
      change (join dot (w :: w' :: ws)) with (w +:+ dot +:+ join dot (w' :: ws)) in IH.
      by rewrite append_cons, IH.
Qed.

(** A non-empty suffix of the labels of [h] is all of them, or the labels
    of a parent domain. *)
Lemma split_suffix (h : string) (l : list string) :
  l ≠ [] → l `suffix_of` split sep h →
  l = split sep h ∨ ∃ p s, h = p +:+ dot +:+ s ∧ l = split sep s.
Proof.
  intros Hl. destruct l as [|x l]; [done|]. clear Hl.
  induction h as [|c r IH]; intros Hsuf.
  - simpl in Hsuf. apply suffix_cons_inv in Hsuf as [Heq|Hsuf]; [by left|].
    by apply suffix_nil_inv in Hsuf.
  - simpl in *. case_decide as Hc.
    + subst c. apply suffix_cons_inv in Hsuf as [Heq|Hsuf]; [by left|]. right.
      destruct (IH Hsuf) as [Heq|(p & s & -> & Heq)].
      * by exists "", r.
      * exists (String sep p), s. by rewrite append_cons.
    + pose proof (split_nonempty r).
      destruct (split sep r) as [|w ws] eqn:E; [done|].
      apply suffix_cons_inv in Hsuf as [Heq|Hsuf]; [by left|]. right.
      destruct IH as [Heq|(p & s & -> & Heq)].
      * by apply suffix_cons_r.
      * apply suffix_length in Hsuf. rewrite Heq in Hsuf. simpl in Hsuf. lia.
      * exists (String c p), s. by rewrite append_cons.
Qed.

Lemma split_parent (p s : string) : split sep s `suffix_of` split sep (p +:+ dot +:+ s).
Proof. rewrite split_app. by apply suffix_app_r. Qed.

(** At least two labels: the separator occurs. *)
Lemma split_two_labels (s : string) :
  (2 ≤ length (split sep s))%nat ↔ occurs_in dot s.
Proof.
  split.
  - induction s as [|c r IH]; simpl; [lia|]. case_decide as Hc.
    + subst c. intros _. by exists "", r.
    + pose proof (split_nonempty r).
      destruct (split sep r) as [|w ws] eqn:E; [done|]. simpl. intros Hlen.
      destruct (IH Hlen) as (pre & post & ->). exists (String c pre), post.
      by rewrite append_cons.
  - intros (pre & post & ->). rewrite split_app, length_app.
    pose proof (split_nonempty pre). pose proof (split_nonempty post).
    destruct (split sep pre), (split sep post); simpl; try done; lia.
Qed.

End SplitFacts.

Section BlacklistFacts.
Import JS Blacklist.

(** The parent-domain loop finds an entry exactly when some suffix of at
    least two labels, joined, is in the set. *)
Lemma checkParents_spec (domains : gset string) (parts : list string) :
  is_Some (checkParents domains parts)
  ↔ ∃ l, l `suffix_of` parts ∧ (2 ≤ length l)%nat ∧ join "." l ∈ domains.
Proof.
  induction parts as [|a [|b rest] IH].
  - simpl. split; [by intros [? ?]|]. intros (l & Hsuf & Hlen & _).
    apply suffix_nil_inv in Hsuf as ->. simpl in Hlen. lia.
  - simpl. split; [by intros [? ?]|]. intros (l & Hsuf & Hlen & _).
    apply suffix_length in Hsuf. simpl in Hsuf. lia.
  - change (checkParents domains (a :: b :: rest))
      with (if bool_decide (join "." (a :: b :: rest) ∈ domains)
            then Some (join "." (a :: b :: rest))
            else checkParents domains (b :: rest)).
    case_bool_decide as Hin.
    + split; [|by eauto]. intros _. exists (a :: b :: rest).
      split; [done|]. split; [simpl; lia|done].
    + rewrite IH. split.
      * intros (l & Hsuf & Hlen & Hl). exists l. split; [by apply suffix_cons_r|done].
      * intros (l & Hsuf & Hlen & Hl). destruct l as [|x l]; [simpl in Hlen; lia|].
        apply suffix_cons_inv in Hsuf as [Heq|Hsuf]; [by rewrite Heq in Hl|].
        by exists (x :: l).
Qed.

Lemma checkParents_listed (domains : gset string) (h : string) :
  is_Some (checkParents domains (split "." h)) → listed domains h.
Proof.
  intros (l & Hsuf & Hlen & Hin)%checkParents_spec.
  destruct (split_suffix "." h l) as [->|(p & s & -> & ->)];
    [intros ->; simpl in Hlen; lia|done|..].
  - left. by rewrite join_split in Hin.
  - right. exists s. rewrite join_split in Hin. split; [done|]. split.
    + by apply (split_two_labels ".").
    + by exists p.
Qed.

Lemma listed_checkParents (domains : gset string) (h s : string) :
  s ∈ domains → occurs_in "." s → parent_domain s h →
  is_Some (checkParents domains (split "." h)).
Proof.
  intros Hin Hdot [p ->]. apply checkParents_spec. exists (split "." s).
  split; [apply split_parent|]. split; [by apply split_two_labels|].
  by rewrite join_split.
Qed.

End BlacklistFacts.

(** C7.  For a URL that parses, [isBlacklisted] blocks exactly when the
    lower-cased hostname is in the blacklist set or one of its parent
    domains is, the parent domains consulted being those of at least two
    labels (for sub.a.b.com: a.b.com and b.com); with a set whose entries
    all have a dot, as every static entry has, that is: exactly when the
    hostname or some parent domain is in the set.  A URL so blocked is
    denied by the gate: [validateUrl] answers invalid, with the reason
    "Blacklisted: Domain in blacklist" or "Blacklisted: Parent domain in
    blacklist", without any robots.txt check and with the gate's state as it
    was.  So shop.amazon.com, for which the set has no entry of its own, is
    denied through its parent amazon.com.  A hostname with no entry and no
    listed parent passes the blacklist stage: [validateUrl] goes on to the
    robots.txt check and answers with its outcome. *)
Theorem isBlacklisted_exact_or_parent (parseURL : string → option URL)
    (st : Blacklist.state) (url : string) (urlObj : URL) :
  parseURL url = Some urlObj →
  let h := JS.toLowerCase (hostname urlObj) in
  (Blacklist.blocked (Blacklist.isBlacklisted parseURL st url) = true
   ↔ listed (Blacklist.domains st) h)
  ∧ ((∀ s, s ∈ Blacklist.domains st → occurs_in "." s) →
     (Blacklist.blocked (Blacklist.isBlacklisted parseURL st url) = true
      ↔ h ∈ Blacklist.domains st
        ∨ ∃ s, s ∈ Blacklist.domains st ∧ parent_domain s h))
  ∧ (listed (Blacklist.domains st) h →
     ∀ now answer,
       ∃ why domain,
         Blacklist.validateUrl parseURL now st url answer
         = (st, Blacklist.Returned (Blacklist.Blacklisted why domain))
         ∧ Blacklist.valid (Blacklist.Blacklisted why domain) = false
         ∧ Blacklist.v_reason (Blacklist.Blacklisted why domain) = "Blacklisted: " +:+ why
         ∧ (if bool_decide (h ∈ Blacklist.domains st)
            then why = "Domain in blacklist" ∧ domain = Some h
            else why = "Parent domain in blacklist"
                 ∧ ∃ s, domain = Some s ∧ s ∈ Blacklist.domains st ∧ parent_domain s h))
  ∧ (¬ listed (Blacklist.domains st) h →
     ∀ now answer,
       (Blacklist.validateUrl parseURL now st url answer).2
       = match (Blacklist.checkRobotsTxt parseURL now st url answer).2 with
         | Blacklist.Returned robotsCheck =>
             Blacklist.Returned
               (if Blacklist.allowed robotsCheck
                then Blacklist.Validated (Blacklist.reason robotsCheck)
                else Blacklist.RobotsBlocked (Blacklist.reason robotsCheck))
         | Blacklist.Threw message => Blacklist.Threw message
         end)
  ∧ ("shop.amazon.com" ∉ Blacklist.domains (Blacklist.loadBlacklist []))
  ∧ (Blacklist.isBlacklisted sampleParse (Blacklist.loadBlacklist [])
       "https://shop.amazon.com/deals"
     = Blacklist.Blocked "Parent domain in blacklist" (Some "amazon.com"))
  ∧ (∀ now answer,
       (Blacklist.validateUrl sampleParse now (Blacklist.loadBlacklist [])
          "https://shop.amazon.com/deals" answer).2
       = Blacklist.Returned
           (Blacklist.Blacklisted "Parent domain in blacklist" (Some "amazon.com"))).
Proof.
  intros Hparse h.
  assert (Blacklist.blocked (Blacklist.isBlacklisted parseURL st url) = true
          ↔ listed (Blacklist.domains st) h) as Hiff.
  { unfold Blacklist.isBlacklisted. rewrite Hparse. fold h.
    case_bool_decide as Hexact; [split; [by left|done]|].
    destruct (Blacklist.checkParents _ _) as [x|] eqn:Hx; simpl.
    - split; [|done]. intros _. apply checkParents_listed. by rewrite Hx.
    - split; [done|]. intros [Hin|(s & Hin & Hdot & Hpar)]; [done|].
      pose proof (listed_checkParents _ _ _ Hin Hdot Hpar) as [y Hy]. congruence. }
  split; [done|]. split.
  { intros Hdots. rewrite Hiff. unfold listed. split.
    - intros [Hin|(s & Hin & _ & Hpar)]; [by left|right; by exists s].
    - intros [Hin|(s & Hin & Hpar)]; [by left|right]. exists s. split; [done|].
      split; [by apply Hdots|done]. }
  split; [|split].
  - intros Hlisted now answer. apply Hiff in Hlisted.
    unfold Blacklist.validateUrl. rewrite Hparse.
    revert Hlisted. unfold Blacklist.isBlacklisted. rewrite Hparse. fold h.
    case_bool_decide as Hexact.
    + intros _. by eexists _, _.
    + destruct (Blacklist.checkParents _ _) as [x|] eqn:Hx; [|done]. intros _.
      eexists _, _. split; [done|]. split; [done|]. split; [done|]. split; [done|].
      exists x. split; [done|].
      assert (listed (Blacklist.domains st) h) as [Hin|(s & Hin & _ & Hpar)]
        by (apply checkParents_listed; by rewrite Hx); [done|].
      assert (∃ l, l `suffix_of` JS.split "." h ∧ (2 ≤ length l)%nat
                   ∧ JS.join "." l ∈ Blacklist.domains st ∧ x = JS.join "." l)
        as (l & Hsuf & Hlen & Hl & ->).
      { clear -Hx. revert Hx. generalize (JS.split "." h) as parts.
        induction parts as [|a [|b rest] IH]; [done|done|].
        change (Blacklist.checkParents (Blacklist.domains st) (a :: b :: rest))
          with (if bool_decide (JS.join "." (a :: b :: rest) ∈ Blacklist.domains st)
                then Some (JS.join "." (a :: b :: rest))
                else Blacklist.checkParents (Blacklist.domains st) (b :: rest)).
        case_bool_decide as Hin.
        - intros [= <-]. exists (a :: b :: rest). repeat split; try done. simpl. lia.
        - intros (l & Hsuf & Hrest)%IH. exists l. split; [by apply suffix_cons_r|done]. }
      split; [done|].
      destruct (split_suffix "." h l) as [->|(p & s' & -> & ->)];
        [intros ->; simpl in Hlen; lia|done|..].
      * rewrite join_split in Hl. done.
      * rewrite join_split. by exists p.
  - intros Hnot now answer.
    unfold Blacklist.validateUrl. rewrite Hparse.
    destruct (Blacklist.isBlacklisted parseURL st url) as [why d|] eqn:Hb.
    + destruct Hnot. apply Hiff. done.
    + destruct (Blacklist.checkRobotsTxt parseURL now st url answer) as [st' [r|m]];
        simpl; [by destruct (Blacklist.allowed r)|done].
  - split; [|split; [by vm_compute|]].
    + vm_compute. intros H. discriminate H.
    + intros now answer. unfold Blacklist.validateUrl.
      assert (Blacklist.isBlacklisted sampleParse (Blacklist.loadBlacklist [])
                "https://shop.amazon.com/deals"
              = Blacklist.Blocked "Parent domain in blacklist" (Some "amazon.com")) as ->
        by (by vm_compute).
      by assert (sampleParse "https://shop.amazon.com/deals"
                 = Some {| protocol := "https:"; host := "shop.amazon.com";
                           hostname := "shop.amazon.com"; pathname := "/deals" |}) as ->
        by (by vm_compute).
Qed.

(* ===================================================================== *)
(** ** Legality gate: robots.txt *)
(* ===================================================================== *)

Section RobotsFacts.
Import JS Blacklist.

Lemma applicable_spec (agent : string) :
  applicable agent = true
  ↔ agent = "*" ∨ occurs_in "bot" agent ∨ occurs_in "spider" agent.
Proof.
  unfold applicable. rewrite !orb_true_iff, bool_decide_eq_true, !includes_spec. tauto.
Qed.

Lemma disallow_not_agent (line : string) :
  startsWith line "disallow:" = true → startsWith line "user-agent:" = false.
Proof.
  destruct line as [|c r]; simpl; [done|]. repeat case_decide; try done. congruence.
Qed.

(** The loop leaves through [break] exactly when some line forbids the path
    while an applicable block is in force. *)
Lemma scan_spec (path : string) (lines : list string) : ∀ cur,
  scan path cur lines = true
  ↔ ∃ pre line post, lines = pre ++ line :: post
                     ∧ foldl enter cur pre = true
                     ∧ forbids path line = true.
Proof.
  induction lines as [|x rest IH]; intros cur.
  - simpl. split; [done|]. intros (pre & line & post & H & _). by destruct pre.
  - change (scan path cur (x :: rest))
      with (if enter cur x && startsWith x "disallow:"
            then if disallows (field x) path then true else scan path (enter cur x) rest
            else scan path (enter cur x) rest).
    assert (scan path (enter cur x) rest = true
            → ∃ pre line post, x :: rest = pre ++ line :: post
                               ∧ foldl enter cur pre = true ∧ forbids path line = true)
      as Hlater.
    { intros (pre & line & post & -> & Hpre & Hline)%IH.
      by exists (x :: pre), line, post. }
    assert (∀ pre line post, x :: rest = pre ++ line :: post →
              foldl enter cur pre = true → forbids path line = true →
              (pre = [] ∧ line = x ∧ cur = true ∧ forbids path x = true)
              ∨ scan path (enter cur x) rest = true) as Hsplit.
    { intros pre line post Heq Hpre Hline. destruct pre as [|y pre].
      - left. simpl in *. by injection Heq as <- <-.
      - right. simpl in *. injection Heq as <- ->. apply IH. by exists pre, line, post. }
    destruct (enter cur x && startsWith x "disallow:") eqn:Hhere.
    + apply andb_true_iff in Hhere as [Hcur Hdis].
      destruct (disallows (field x) path) eqn:Hmatch.
      * split; [|done]. intros _. exists [], x, rest. split; [done|].
        unfold enter in Hcur. rewrite (disallow_not_agent x Hdis) in Hcur.
        split; [done|]. unfold forbids. by rewrite Hdis, Hmatch.
      * split; [apply Hlater|]. intros (pre & line & post & Heq & Hpre & Hline).
        destruct (Hsplit pre line post Heq Hpre Hline) as [(_ & _ & _ & Hx)|H]; [|done].
        unfold forbids in Hx. rewrite Hdis, Hmatch in Hx. done.
    + split; [apply Hlater|]. intros (pre & line & post & Heq & Hpre & Hline).
      destruct (Hsplit pre line post Heq Hpre Hline) as [(_ & _ & -> & Hx)|H]; [|done].
      unfold forbids in Hx. apply andb_true_iff in Hx as [Hdis _].
      unfold enter in Hhere. rewrite (disallow_not_agent x Hdis), Hdis in Hhere. done.
Qed.

End RobotsFacts.

(** C8, as amended.  A user-agent token is applicable exactly when it is
    "*" or contains "bot" or "spider".  The rules of every applicable block
    apply: the request is blocked exactly when some [Disallow] line matches
    the path while an applicable block is in force, whichever applicable
    block that is. *)
Theorem parseRobotsTxt_all_applicable_blocks :
  (∀ agent,
     Blacklist.applicable agent = true
     ↔ agent = "*" ∨ occurs_in "bot" agent ∨ occurs_in "spider" agent)
  ∧ (∀ content path,
       Blacklist.allowed (Blacklist.parseRobotsTxt content path) = false
       ↔ ∃ pre line post,
           Blacklist.robotsLines content = pre ++ line :: post
           ∧ inForce pre = true
           ∧ forbids path line = true).
Proof.
  split; [apply applicable_spec|]. intros content path.
  unfold Blacklist.parseRobotsTxt. simpl. rewrite negb_false_iff.
  apply scan_spec.
Qed.

(** C8, as stated, fails: a path that only the second applicable block
    disallows is blocked, although the first applicable block allows it. *)
Lemma later_block_blocks :
  Blacklist.allowed (Blacklist.parseRobotsTxt sampleRobots "/b/page") = false
  ∧ firstApplicableBlock (Blacklist.robotsLines sampleRobots) = ["disallow: /a"]
  ∧ blockedByFirstBlock sampleRobots "/b/page" = false.
Proof. by vm_compute. Qed.

(* ===================================================================== *)
(** ** Admission gateway: the order of the stages *)
(* ===================================================================== *)

Section PipelineFacts.
Import JS Gateway.
Variable parseURL : string → option URL.

Lemma stages_app (l1 l2 : list call) : stages (l1 ++ l2) = stages l1 ++ stages l2.
Proof. apply omap_app. Qed.

(** How [POST /scrape] denies: 400 before any consume, with the token table
    as it was, or 402 from the consume, before any extraction. *)
Lemma scrape_begin_denials (now : Z) (w : world) (b : body) (r : response) :
  let s := scrape_begin parseURL now w b in
  then_ s = Reply r →
  (status r = 400 ∧ after s = w ∧ (calls s = [] ∨ calls s = [IsValidUrl]))
  ∨ (status r = 402 ∧ calls s = [IsValidUrl; ConsumeCredit]).
Proof.
  unfold scrape_begin.
  destruct (truthy (url b)) as [url|]; [destruct (truthy (accessToken b)) as [tok|]|].
  2,3: simpl; intros [= <-]; left; by eauto.
  destruct (isValidUrl parseURL url); simpl.
  2: { intros [= <-]. left. by eauto. }
  destruct (Credit.validateAndConsumeCredit now (credit w) tok _) as [ts [| |av nd|rem ct]];
    simpl; intros [= <-]; right; by eauto.
Qed.

(** The stages [POST /test-scrape] runs before its first [await]. *)
Lemma test_begin_stages (now : Z) (w : world) (ip : string) (b : body) :
  let s := test_begin parseURL now w ip b in
  (Abuse.checkIPStatus (abuse w) ip = Abuse.Banned
   ∧ s = {| after := w; calls := [CheckIPStatus];
            then_ := Reply {| status := 403; error := Some "Access denied";
                              details := None; success := false; remaining := None;
                              available := None; needed := None;
                              creditRefunded := false; resetTime := None;
                              reason := Some "IP banned due to abuse" |} |})
  ∨ (Abuse.checkIPStatus (abuse w) ip ≠ Abuse.Banned
     ∧ ((∃ r, then_ s = Reply r ∧ stages (calls s) = [BanCheck; RateAdmission]
              ∧ (status r = 429 ∨ status r = 400))
        ∨ (∃ url domain, then_ s = Await (PValidate ip url domain)
                         ∧ stages (calls s) = [BanCheck; RateAdmission; LegalityCheck]))).
Proof.
  unfold test_begin.
  destruct (Abuse.checkIPStatus (abuse w) ip) eqn:Hst; [by left|right..]; (split; [done|]).
  all: destruct (Abuse.checkRateLimit _ _ _ _) as [a r];
    destruct (negb (Abuse.allowed r)); simpl; [left; eexists; by eauto|];
    destruct (truthy (url b)) as [u|]; simpl;
    [right; by eauto | left; eexists; by eauto].
Qed.

Lemma drive_test (answers : list (Z * answer)) : ∀ (w : world) (log : list call) (n : next),
  test_progress log n →
  let '(w', log', n') := drive parseURL w log n answers in
  stages log' `prefix_of` [BanCheck; RateAdmission; LegalityCheck; Extraction]
  ∧ credit w' = credit w.
Proof.
  induction answers as [|[now a] rest IH]; intros w log n Hn.
  - simpl. destruct n as [r|[url tok tier rem ct|ip url domain|ip url]]; simpl in *;
      [done|done|..].
    + split; [rewrite Hn; by exists [Extraction] | done].
    + split; [by rewrite Hn | done].
  - destruct n as [r|p]; [by simpl|].
    change (drive parseURL w log (Await p) ((now, a) :: rest))
      with (drive parseURL (after (resume parseURL now w p a))
              (log ++ calls (resume parseURL now w p a))
              (then_ (resume parseURL now w p a)) rest).
    assert (test_progress (log ++ calls (resume parseURL now w p a))
              (then_ (resume parseURL now w p a))
            ∧ credit (after (resume parseURL now w p a)) = credit w) as [Hprog Hcredit].
    { destruct p as [?????|ip url domain|ip url]; [done|..]; simpl in Hn.
      - destruct a as [f|r]; simpl; [|by rewrite app_nil_r].
        unfold test_validated. destruct (validateUrlEnhanced _ _ _ _ _) as [bl v].
        destruct (negb (valid v)); simpl; rewrite stages_app, Hn; simpl;
          (split; [|done]); [by exists [Extraction] | done].
      - destruct a as [f|[d|e|m]]; simpl; rewrite ?app_nil_r, ?stages_app, ?Hn; by simpl. }
    specialize (IH (after (resume parseURL now w p a)) _ _ Hprog).
    destruct (drive parseURL _ _ _ rest) as [[w' log'] n']. by rewrite <- Hcredit.
Qed.

Lemma drive_scrape (answers : list (Z * answer)) : ∀ (w0 w : world) (log : list call) (n : next),
  scrape_progress w0 w log n →
  let '(w', log', n') := drive parseURL w log n answers in
  stages log' `prefix_of` [LegalityCheck; CreditConsume; Extraction]
  ∧ abuse w' = abuse w0 ∧ blacklist w' = blacklist w0
  ∧ (CreditConsume ∉ stages log' → credit w' = credit w0)
  ∧ (∀ r, n' = Reply r → status r = 402 → Extraction ∉ stages log').
Proof.
  induction answers as [|[now a] rest IH]; intros w0 w log n Hn.
  - simpl. destruct Hn as (Ha & Hb & Hn). destruct n as [r|[| |]]; try done.
    + destruct Hn as (H1 & H2 & H3). repeat split; try done. by intros r' [= <-].
    + rewrite Hn. repeat split; try done. intros Hnot. destruct Hnot.
      apply list_elem_of_further, list_elem_of_here.
  - destruct n as [r|p].
    { simpl. destruct Hn as (Ha & Hb & H1 & H2 & H3). repeat split; try done.
      by intros r' [= <-]. }
    change (drive parseURL w log (Await p) ((now, a) :: rest))
      with (drive parseURL (after (resume parseURL now w p a))
              (log ++ calls (resume parseURL now w p a))
              (then_ (resume parseURL now w p a)) rest).
    apply IH. destruct Hn as (Ha & Hb & Hn).
    destruct p as [url tok tier rem ct| |]; try done.
    unfold scrape_progress.
    destruct a as [f|[d|e|m]]; simpl; rewrite ?app_nil_r, ?stages_app, ?Hn; simpl;
      (split; [done|]); (split; [done|]); [done|..];
      (split; [done|]); (split; [|done]); intros Hnot; destruct Hnot;
      apply list_elem_of_further, list_elem_of_here.
Qed.

End PipelineFacts.

(** C4, as amended.  No handler runs the five stages.  [POST /test-scrape]
    runs the ban check, the rate admission, the legality check and the
    extraction, in this order, and stops at the first stage that denies: a
    banned caller gets 403 after the ban check alone, all state as it was;
    a caller over a limit gets 429 after the rate admission; a request
    without URL gets 400 there; a URL the gate refuses gets 400 after the
    legality check; only then is the extraction started.  It never touches
    the token table.  [POST /scrape] runs a legality check (the
    restricted-domain test), the credit consume and the extraction, in this
    order, and stops at the first stage that denies: a restricted or
    unparsable URL gets 400 after the legality check with all state as it
    was, so no credit is consumed; when the consume denies, the answer is 402
    and no extraction is started.  It consults neither the ban set nor the
    rate limiter and leaves both as they were.  The first two parts hold
    however far the request has been served; the last two describe a
    request served to its answer. *)
Theorem pipelines_of_the_handlers (parseURL : string → option URL) :
  (∀ now w ip b answers,
     let '(w', log, n) := Gateway.serve_test parseURL now w ip b answers in
     stages log `prefix_of` [BanCheck; RateAdmission; LegalityCheck; Extraction]
     ∧ Gateway.credit w' = Gateway.credit w
     ∧ (Abuse.checkIPStatus (Gateway.abuse w) ip = Abuse.Banned →
        w' = w ∧ log = [Gateway.CheckIPStatus]
        ∧ ∃ r, n = Gateway.Reply r ∧ Gateway.status r = 403))
  ∧ (∀ now w b answers,
       let '(w', log, n) := Gateway.serve_scrape parseURL now w b answers in
       stages log `prefix_of` [LegalityCheck; CreditConsume; Extraction]
       ∧ Gateway.abuse w' = Gateway.abuse w
       ∧ Gateway.blacklist w' = Gateway.blacklist w
       ∧ (CreditConsume ∉ stages log → Gateway.credit w' = Gateway.credit w)
       ∧ (∀ r, n = Gateway.Reply r → Gateway.status r = 402 → Extraction ∉ stages log))
  ∧ (∀ now now2 now3 w ip b f x,
       let '(w', log, n) :=
         Gateway.serve_test parseURL now w ip b
           [(now2, Gateway.Fetched f); (now3, Gateway.Scraped x)] in
       let domain := Abuse.extractDomain parseURL <$> JS.truthy (Gateway.url b) in
       let rate := (Abuse.checkRateLimit now (Gateway.abuse w) ip domain).2 in
       ∃ r, n = Gateway.Reply r
            ∧ match Abuse.checkIPStatus (Gateway.abuse w) ip with
              | Abuse.Banned =>
                  stages log = [BanCheck] ∧ Gateway.status r = 403 ∧ w' = w
              | _ =>
                  if negb (Abuse.allowed rate)
                  then stages log = [BanCheck; RateAdmission] ∧ Gateway.status r = 429
                  else
                    match JS.truthy (Gateway.url b) with
                    | None =>
                        stages log = [BanCheck; RateAdmission] ∧ Gateway.status r = 400
                    | Some u =>
                        if negb (Gateway.valid
                                   (Gateway.validateUrlEnhanced parseURL now2
                                      (Gateway.blacklist w) u f).2)
                        then stages log = [BanCheck; RateAdmission; LegalityCheck]
                             ∧ Gateway.status r = 400
                        else stages log
                             = [BanCheck; RateAdmission; LegalityCheck; Extraction]
                             ∧ (Gateway.status r = 200 ∨ Gateway.status r = 500)
                    end
              end)
  ∧ (∀ now now2 w b x,
       let '(w', log, n) :=
         Gateway.serve_scrape parseURL now w b [(now2, Gateway.Scraped x)] in
       ∃ r, n = Gateway.Reply r
            ∧ match JS.truthy (Gateway.url b), JS.truthy (Gateway.accessToken b) with
              | Some u, Some tok =>
                  if negb (Gateway.isValidUrl parseURL u)
                  then stages log = [LegalityCheck] ∧ Gateway.status r = 400 ∧ w' = w
                  else
                    let consume :=
                      Credit.validateAndConsumeCredit now (Gateway.credit w) tok
                        (default "basic" (Gateway.tier b)) in
                    if negb (Credit.valid consume.2)
                    then stages log = [LegalityCheck; CreditConsume]
                         ∧ Gateway.status r = 402
                         ∧ Gateway.credit w' = consume.1
                    else stages log = [LegalityCheck; CreditConsume; Extraction]
                         ∧ (Gateway.status r = 200 ∨ Gateway.status r = 500)
              | _, _ => stages log = [] ∧ Gateway.status r = 400 ∧ w' = w
              end).
Proof.
  split; [|split; [|split]].
  - intros now w ip b answers. unfold Gateway.serve_test.
    pose proof (test_begin_stages parseURL now w ip b) as Hs. cbv zeta in Hs.
    pose proof (test_begin_credit parseURL now w ip b) as [Hcredit _].
    remember (Gateway.test_begin parseURL now w ip b) as s eqn:E. clear E.
    assert (test_progress (Gateway.calls s) (Gateway.then_ s)) as Hprog.
    { destruct Hs as [[_ ->]|[_ [(r & -> & Hst & _)|(url & domain & -> & Hst)]]]; simpl.
      - by exists [RateAdmission; LegalityCheck; Extraction].
      - rewrite Hst. by exists [LegalityCheck; Extraction].
      - done. }
    pose proof (drive_test parseURL answers (Gateway.after s) _ _ Hprog) as Hd.
    destruct (Gateway.drive parseURL _ _ _ answers) as [[w' log] n] eqn:Hdrive.
    destruct Hd as [Hpre Hc]. split; [done|]. split; [by rewrite Hc|].
    intros Hban. destruct Hs as [[_ ->]|[Hnot _]]; [|done].
    destruct answers; simpl in Hdrive; injection Hdrive as <- <- <-;
      (split; [done|]); (split; [done|]); by eexists.
  - intros now w b answers. unfold Gateway.serve_scrape.
    pose proof (scrape_begin_cases parseURL now w b) as (Ha & Hb & Hcases).
    pose proof (scrape_begin_denials parseURL now w b) as Hden.
    cbv zeta in Hcases, Hden.
    remember (Gateway.scrape_begin parseURL now w b) as s eqn:E. clear E.
    assert (scrape_progress w (Gateway.after s) (Gateway.calls s) (Gateway.then_ s)) as Hprog.
    { split; [done|]. split; [done|].
      destruct Hcases as [(r & Hr & _)|(url & tok & t & Hc)].
      - rewrite Hr.
        destruct (Hden r Hr) as [(Hst & -> & [-> | ->])|(Hst & ->)]; simpl.
        + split; [by exists [LegalityCheck; CreditConsume; Extraction]|].
          split; [done|]. intros _. apply not_elem_of_nil.
        + split; [by exists [CreditConsume; Extraction]|].
          split; [done|]. intros _. not_called.
        + split; [by exists [Extraction]|]. split; [|intros _; not_called].
          intros Hnot. destruct Hnot. apply list_elem_of_further, list_elem_of_here.
      - destruct Hc as (_ & _ & _ & _ & _ & _ & _ & -> & ->). done. }
    pose proof (drive_scrape parseURL answers w (Gateway.after s) _ _ Hprog) as Hd.
    by destruct (Gateway.drive parseURL _ _ _ answers) as [[w' log] n].
  - intros now now2 now3 w ip b f x.
    unfold Gateway.serve_test, Gateway.test_begin.
    destruct (Abuse.checkIPStatus (Gateway.abuse w) ip) eqn:Hst.
    { simpl. eexists. by repeat split. }
    all: destruct (Abuse.checkRateLimit _ _ _ _) as [a rl]; cbn [snd].
    all: destruct (negb (Abuse.allowed rl));
      cbn [Gateway.drive Gateway.then_ Gateway.after Gateway.calls];
      [eexists; by repeat split|].
    all: destruct (JS.truthy (Gateway.url b)) as [u|] eqn:Hu;
      cbn [fmap option_fmap option_map Gateway.drive Gateway.then_ Gateway.after
           Gateway.calls Gateway.resume];
      [|eexists; by repeat split].
    all: unfold Gateway.test_validated; cbn [Gateway.blacklist Gateway.set_abuse].
    all: destruct (Gateway.validateUrlEnhanced _ _ _ _ _) as [bl v]; cbn [snd].
    all: destruct (negb (Gateway.valid v));
      cbn [Gateway.drive Gateway.then_ Gateway.after Gateway.calls Gateway.resume];
      [eexists; by repeat split|].
    all: destruct x as [data|err|msg]; cbn [Gateway.test_settle Gateway.then_ Gateway.calls];
      eexists; (split; [done|]); (split; [done|]); cbn [Gateway.status]; auto.
  - intros now now2 w b x. unfold Gateway.serve_scrape, Gateway.scrape_begin.
    destruct (JS.truthy (Gateway.url b)) as [u|];
      [destruct (JS.truthy (Gateway.accessToken b)) as [tok|]|].
    2,3: simpl; eexists; by repeat split.
    destruct (Gateway.isValidUrl parseURL u); cbn [negb].
    2: { simpl. eexists. by repeat split. }
    cbv zeta.
    destruct (Credit.validateAndConsumeCredit now (Gateway.credit w) tok _)
      as [ts [| |av nd|rem ct]]; cbn [snd fst Credit.valid negb].
    1-3: simpl; eexists; by repeat split.
    destruct x as [data|err|msg]; simpl; eexists; (split; [done|]); (split; [done|]);
      auto.
Qed.

(** C4, as stated, fails on both handlers: [POST /scrape] from the banned
    offender runs no ban check and no rate admission, consumes a credit and
    answers 200; [POST /test-scrape] from a clean caller reaches the
    extraction and answers 200 without any credit consume.  Neither run is
    a prefix of the five specified stages. *)
Lemma no_handler_runs_the_specified_pipeline :
  let '(_, log1, n1) :=
    Gateway.serve_scrape sampleParse 4000 sampleWorld
      (sampleBody "https://example.org/a" "a1" "basic")
      [(5000, Gateway.Scraped (Gateway.Success "{}"))] in
  let '(_, log2, n2) :=
    Gateway.serve_test sampleParse 4000 sampleWorld "192.0.2.1"
      (sampleBody "https://example.org/a" "a1" "basic")
      [(4500, Gateway.Fetched (Blacklist.Status 404));
       (5000, Gateway.Scraped (Gateway.Success "{}"))] in
  Abuse.checkIPStatus (Gateway.abuse sampleWorld) sampleOffender = Abuse.Banned
  ∧ stages log1 = [LegalityCheck; CreditConsume; Extraction]
  ∧ (Gateway.status <$> (match n1 with Gateway.Reply r => Some r | _ => None end)) = Some 200
  ∧ stages log2 = [BanCheck; RateAdmission; LegalityCheck; Extraction]
  ∧ (Gateway.status <$> (match n2 with Gateway.Reply r => Some r | _ => None end)) = Some 200
  ∧ ¬ stages log1 `prefix_of` specifiedPipeline
  ∧ ¬ stages log2 `prefix_of` specifiedPipeline.
Proof.
  vm_compute. repeat split; try done.
  - intros [k Hk]. discriminate Hk.
  - intros [k Hk]. discriminate Hk.
Qed.

(* ===================================================================== *)
(** ** The theorems at sample inputs *)
(* ===================================================================== *)


Lemma blacklist_failures_ban_sample :
  let later := [(3500, Abuse.OpCheckRateLimit sampleOffender None);
                (4000, Abuse.OpCleanOldEntries)] in
  let st' := Abuse.performAll (Abuse.performAll Abuse.init sampleOffences) later in
  sampleOffender ∈ Abuse.bannedIPs (Abuse.performAll Abuse.init sampleOffences)
  ∧ Abuse.checkIPStatus st' sampleOffender = Abuse.Banned.
Proof.
  intros later st'.
  destruct (blacklist_failures_ban sampleParse Abuse.init [] [] [] later sampleOffender
              "Blacklisted: Domain in blacklist"
              "Blacklisted: Parent domain in blacklist"
              "Blacklisted: Domain in blacklist" 1000 2000 3000)
    as (H1 & _ & H2 & _).
  - by exists "Blacklisted: Domain in ", "".
  - by exists "Blacklisted: Parent domain in ", "".
  - by exists "Blacklisted: Domain in ", "".
  - lia.
  - unfold Abuse.windowMs. lia.
  - constructor.
  - repeat constructor; discriminate.
  - split; [exact H1|exact H2].
Defined.

Lemma isBlacklisted_exact_or_parent_sample :
  Blacklist.blocked (Blacklist.isBlacklisted sampleParse (Blacklist.loadBlacklist [])
                       "https://shop.amazon.com/deals") = true
  ∧ listed (Blacklist.domains (Blacklist.loadBlacklist [])) "shop.amazon.com".
Proof.
  destruct (isBlacklisted_exact_or_parent sampleParse (Blacklist.loadBlacklist [])
              "https://shop.amazon.com/deals"
              {| protocol := "https:"; host := "shop.amazon.com";
                 hostname := "shop.amazon.com"; pathname := "/deals" |} eq_refl)
    as (Hiff & _ & _).
  assert (Blacklist.blocked (Blacklist.isBlacklisted sampleParse (Blacklist.loadBlacklist [])
                               "https://shop.amazon.com/deals") = true) as Hb
    by (vm_compute; reflexivity).
  split; [exact Hb|]. apply Hiff. exact Hb.
Defined.

(* ===================================================================== *)
(** ** Credit ledger: balance queries, lifetime, sweep, statistics *)
(* ===================================================================== *)

(** X2.  What [getTokenInfo] reports right after a consume agrees with what
    the consume answered: after a refusal for an unknown or expired token
    the account is not found; after a refusal for lack of credits the
    remaining credits reported are the available ones of the refusal; after
    a success they are the remaining credits of the answer, with the tier.
    The reports for all other tokens are what they were. *)
Theorem balance_query_agrees_with_consume (now : Z) (ts : Credit.tokens)
    (tok tier : string) :
  let '(ts', r) := Credit.validateAndConsumeCredit now ts tok tier in
  match r with
  | Credit.Invalid | Credit.Expired => Credit.getTokenInfo ts' tok = None
  | Credit.Insufficient available _ =>
      ∃ info, Credit.getTokenInfo ts' tok = Some info
              ∧ Credit.remainingCredits info = available
  | Credit.Valid remaining tr =>
      ∃ info, Credit.getTokenInfo ts' tok = Some info
              ∧ Credit.remainingCredits info = remaining
              ∧ Credit.ti_tier info = tr
  end
  ∧ ∀ other, other ≠ tok → Credit.getTokenInfo ts' other = Credit.getTokenInfo ts other.
Proof.
  unfold Credit.validateAndConsumeCredit, Credit.getTokenInfo.
  destruct (ts !! tok) as [t|] eqn:Ht.
  - case_bool_decide as Hexp.
    + split; [by rewrite lookup_delete_eq|].
      intros other Hne. by rewrite lookup_delete_ne.
    + cbv zeta. destruct (JS.lt _ _).
      * split; [|done]. rewrite Ht. simpl. by eexists.
      * split.
        -- rewrite lookup_insert_eq. simpl. by eexists.
        -- intros other Hne. by rewrite lookup_insert_ne.
  - split; [by rewrite Ht|done].
Qed.

(** X3.  A token lives exactly thirty days (2 592 000 000 ms): a consume
    whose clock reading is at most that long after the issue is answered
    neither with the expired nor with the invalid-token error, the last
    millisecond included; a consume after that is answered with the expired
    error and deletes the account, and every consume from then on is
    answered with the invalid-token error. *)
Theorem token_lifetime (tokenId : string) (issuedAt : Z) (ts : Credit.tokens)
    (p : Credit.paymentData) (now : Z) (tier : string) :
  let '(ts0, grant) := Credit.generateAccessToken tokenId issuedAt ts p in
  Credit.i_expiresAt grant = issuedAt + 2592000000
  ∧ (now ≤ issuedAt + 2592000000 →
     (Credit.validateAndConsumeCredit now ts0 tokenId tier).2 ≠ Credit.Expired
     ∧ (Credit.validateAndConsumeCredit now ts0 tokenId tier).2 ≠ Credit.Invalid)
  ∧ (now > issuedAt + 2592000000 →
     Credit.validateAndConsumeCredit now ts0 tokenId tier
     = (delete tokenId ts, Credit.Expired)
     ∧ ∀ later tier',
         Credit.validateAndConsumeCredit later (delete tokenId ts) tokenId tier'
         = (delete tokenId ts, Credit.Invalid)).
Proof.
  simpl. split; [done|]. unfold Credit.validateAndConsumeCredit.
  rewrite lookup_insert_eq. simpl. change Credit.thirty_days with 2592000000.
  split.
  - intros Hle. rewrite bool_decide_eq_false_2 by lia. by destruct (JS.lt _ _).
  - intros Hgt. rewrite bool_decide_eq_true_2 by lia. rewrite delete_insert_eq.
    split; [done|]. intros later tier'. by rewrite lookup_delete_eq.
Qed.

Section TokenSweepFacts.
Import JS Credit.

Lemma cleanExpiredTokens_lookup (now : Z) (ts : tokens) (k : string) (t : token) :
  cleanExpiredTokens now ts !! k = Some t ↔ ts !! k = Some t ∧ now ≤ expiresAt t.
Proof.
  unfold cleanExpiredTokens. rewrite map_lookup_filter_Some. simpl.
  split; intros [? ?]; (split; [done|lia]).
Qed.

End TokenSweepFacts.

(** X4.  [cleanExpiredTokens] keeps exactly the accounts that have not
    expired, unchanged.  A consume gives the same answer and leaves the same
    accounts whether or not the sweep ran just before it (at the same clock
    reading), except that an expired token is then answered with the
    invalid-token error instead of the expired one. *)
Theorem sweep_then_consume (now : Z) (ts : Credit.tokens) (tok tier : string) :
  (∀ k t, Credit.cleanExpiredTokens now ts !! k = Some t
          ↔ ts !! k = Some t ∧ now ≤ Credit.expiresAt t)
  ∧ let '(ts1, r) := Credit.validateAndConsumeCredit now ts tok tier in
    Credit.validateAndConsumeCredit now (Credit.cleanExpiredTokens now ts) tok tier
    = (Credit.cleanExpiredTokens now ts1,
       match r with Credit.Expired => Credit.Invalid | _ => r end).
Proof.
  split; [apply cleanExpiredTokens_lookup|].
  unfold Credit.validateAndConsumeCredit.
  destruct (ts !! tok) as [t|] eqn:Ht.
  - case_bool_decide as Hexp.
    + assert (Credit.cleanExpiredTokens now ts !! tok = None) as Hnone.
      { apply eq_None_not_Some. intros [t' [Ht' Hle]%cleanExpiredTokens_lookup].
        assert (t' = t) as -> by congruence. lia. }
      rewrite Hnone. f_equal. unfold Credit.cleanExpiredTokens.
      rewrite map_filter_delete. symmetry. by apply delete_id.
    + assert (Credit.cleanExpiredTokens now ts !! tok = Some t) as Hsome.
      { apply cleanExpiredTokens_lookup. split; [done|lia]. }
      rewrite Hsome, bool_decide_eq_false_2 by done. cbv zeta.
      destruct (JS.lt _ _); [done|]. f_equal. unfold Credit.cleanExpiredTokens.
      rewrite map_filter_insert_True; [done|]. simpl. lia.
  - assert (Credit.cleanExpiredTokens now ts !! tok = None) as Hnone.
    { apply eq_None_not_Some. intros [t' [Ht' _]%cleanExpiredTokens_lookup]. congruence. }
    by rewrite Hnone.
Qed.

Section ScrapesPerToken.
Import JS Credit.

(** [n] consumes of a tier of cost [k] on an account with at least [n * k]
    credits left all succeed and leave [u + n * k] used. *)
Lemma consumeEach_priced (tier : string) (k : Z) (times : list Z) :
  priced tier k →
  ∀ (ts : tokens) tok t c u,
  ts !! tok = Some t →
  credits t = VNumber (Num c) → usedCredits t = VNumber (Num u) →
  Forall (λ now, now ≤ expiresAt t) times →
  u + Z.of_nat (length times) * k ≤ c →
  ∃ t', (consumeEach ts tok tier times).1 !! tok = Some t'
        ∧ credits t' = VNumber (Num c)
        ∧ usedCredits t' = VNumber (Num (u + Z.of_nat (length times) * k))
        ∧ expiresAt t' = expiresAt t
        ∧ Forall (λ r, valid r = true) (consumeEach ts tok tier times).2.
Proof.
  intros Hk. assert (1 ≤ k) as Hpos by (destruct (priced_cases tier k Hk) as [|[|]]; lia).
  induction times as [|now rest IH]; intros ts tok t c u Ht Hc Hu Hall Hle.
  - exists t. simpl. rewrite Z.add_0_r. by repeat split.
  - apply Forall_cons in Hall as [Hnow Hrest]. simpl length in Hle.
    simpl. erewrite consume_success; [|done|done|done|done|done|nia].
    destruct (IH (<[tok := set_used t (VNumber (Num (u + k))) now]> ts) tok
                (set_used t (VNumber (Num (u + k))) now) c (u + k))
      as (t' & Ht' & Hc' & Hu' & He' & Hv'); simpl; try done.
    { apply lookup_insert_eq. }
    { nia. }
    destruct (consumeEach _ tok tier rest) as [ts' rs]. simpl in *.
    exists t'. repeat split; try done.
    + rewrite Hu'. do 2 f_equal. lia.
    + by apply Forall_cons.
Qed.

End ScrapesPerToken.

(** X5.  A purchase that grants [c] credits pays for exactly [c / k]
    scrapes of a tier of cost [k], whatever the tier purchased: on the fresh
    token that many consumes within the validity period succeed, and the
    next one is refused for lack of credits with [c mod k] available.  A
    premium purchase (20 credits) thus pays for 4 premium scrapes (5 credits
    each). *)
Theorem scrapes_per_token (ts : Credit.tokens) (tokenId : string) (issuedAt : Z)
    (p : Credit.paymentData) (tier : string) (c k : Z) (times : list Z) (last : Z) :
  granted (Credit.pd_tier p) c → priced tier k →
  Z.of_nat (length times) = c / k →
  Forall (λ now, now ≤ issuedAt + Credit.thirty_days) times →
  last ≤ issuedAt + Credit.thirty_days →
  let '(ts0, _) := Credit.generateAccessToken tokenId issuedAt ts p in
  let '(tsn, results) := consumeEach ts0 tokenId tier times in
  Forall (λ r, Credit.valid r = true) results
  ∧ (Credit.validateAndConsumeCredit last tsn tokenId tier).2
    = Credit.Insufficient (JS.Num (c mod k)) (JS.VNumber (JS.Num k)).
Proof.
  intros Hc Hk Hlen Hall Hlast. simpl.
  assert (1 ≤ k) as Hpos by (destruct (priced_cases tier k Hk) as [|[|]]; lia).
  set (t0 := {| Credit.id := tokenId |}).
  pose proof (Z.div_mod c k ltac:(lia)) as Hdiv.
  pose proof (Z.mod_pos_bound c k ltac:(lia)) as Hmod.
  destruct (consumeEach_priced tier k times Hk (<[tokenId := t0]> ts) tokenId t0 c 0)
    as (t' & Ht' & Hc' & Hu' & He' & Hv'); try done.
  { apply lookup_insert_eq. }
  { rewrite Hlen. nia. }
  destruct (consumeEach _ tokenId tier times) as [tsn results]. simpl in *.
  split; [done|].
  erewrite consume_insufficient; [|done|rewrite He'; done|done|done|done|].
  - simpl. do 2 f_equal. rewrite Hlen. lia.
  - rewrite Hlen. lia.
Qed.

Lemma scrapes_per_token_sample :
  let times := [1000; 2000; 3000; 4000] in
  let '(ts0, _) :=
    Credit.generateAccessToken "a1" 0 ∅
      {| Credit.pd_tier := "premium"; Credit.pd_paymentId := "pay_1" |} in
  let '(tsn, results) := consumeEach ts0 "a1" "premium" times in
  Forall (λ r, Credit.valid r = true) results
  ∧ (Credit.validateAndConsumeCredit 5000 tsn "a1" "premium").2
    = Credit.Insufficient (JS.Num (20 mod 5)) (JS.VNumber (JS.Num 5)).
Proof.
  apply (scrapes_per_token ∅ "a1" 0
           {| Credit.pd_tier := "premium"; Credit.pd_paymentId := "pay_1" |}
           "premium" 20 5 [1000; 2000; 3000; 4000] 5000).
  - reflexivity.
  - reflexivity.
  - reflexivity.
  - repeat constructor; vm_compute; discriminate.
  - vm_compute; discriminate.
Defined.

Section GrantFacts.
Import JS Credit Gateway.
Variable parseURL : string → option URL.

Lemma same_grant_refl (t : token) : same_grant t t.
Proof. by repeat split. Qed.

Lemma same_grant_trans (t1 t2 t3 : token) :
  same_grant t1 t2 → same_grant t2 t3 → same_grant t1 t3.
Proof. unfold same_grant. intros (?&?&?&?&?&?) (?&?&?&?&?&?). repeat split; congruence. Qed.

Lemma shared_land (s : segment) (others : list pending) : shared (land s others) = after s.
Proof. done. Qed.

(** No event but the issue of [tok] creates the account [tok], and none
    changes more of it than the used credits and the last use. *)
Lemma step_grant (sv : server) (e : event) (tok : string) (t' : token) :
  tok ∉ drawn [e] →
  credit (shared (step parseURL sv e)) !! tok = Some t' →
  ∃ t, credit (shared sv) !! tok = Some t ∧ same_grant t t'.
Proof.
  assert (∀ ts : tokens, ts = credit (shared sv) → ts !! tok = Some t' →
          ∃ t, credit (shared sv) !! tok = Some t ∧ same_grant t t') as Hsame.
  { intros ts -> H. exists t'. split; [done|apply same_grant_refl]. }
  intros Hfresh.
  destruct e as [tokenId now p|now b|now ip b|k now a|now|now|now ip r|ip|k0 ok0];
    cbn [step]; rewrite ?shared_land.
  - simpl. rewrite lookup_insert_ne; [by apply Hsame|].
    intros ->. apply Hfresh. apply list_elem_of_here.
  - pose proof (scrape_begin_cases parseURL now (shared sv) b) as (_ & _ & Hc).
    cbv zeta in Hc.
    destruct Hc as [(r & _ & _ & Hcr & _)|(url & tk & t & _ & _ & _ & Ht & _ & _ & Hcr & _)].
    + destruct Hcr as [Hcr|[tk Hcr]]; rewrite Hcr; [by apply Hsame|].
      intros [_ H]%lookup_delete_Some. by eapply Hsame.
    + rewrite Hcr. destruct (decide (tk = tok)) as [->|Hne].
      * rewrite lookup_insert_eq. intros [= <-]. exists t. split; [done|by repeat split].
      * rewrite lookup_insert_ne by done. by apply Hsame.
  - pose proof (test_begin_credit parseURL now (shared sv) ip b) as [Hc _].
    cbv zeta in Hc. rewrite Hc. by apply Hsame.
  - destruct (inflight sv !! k) as [p|]; [|by apply Hsame]. rewrite shared_land.
    pose proof (resume_cases parseURL now (shared sv) p a) as Hc. cbv zeta in Hc.
    destruct Hc as [[Hc _]|(url & tk & tier & rem & ct & r & _ & Hc & _)]; rewrite Hc;
      [by apply Hsame|].
    rewrite refund_lookup. case_decide as Heq; [|by apply Hsame].
    destruct (credit (shared sv) !! tok) as [t|]; [|done]. simpl.
    intros [= <-]. exists t. split; [done|by repeat split].
  - simpl. unfold cleanExpiredTokens. intros [H _]%map_lookup_filter_Some. by eapply Hsame.
  - by apply Hsame.
  - by apply Hsame.
  - by apply Hsame.
  - by apply Hsame.
Qed.

End GrantFacts.

(** X6.  Over any run of the server, an account exists only from its issue
    on, and what was granted is never changed: if the token id is not drawn
    during the run and the account is in the table after it, the account was
    in the table before it, with the same id, tier, granted credits, dates
    of creation and expiry and payment id.  Consumes, refunds, sweeps and
    everything else move only the used credits and the last use. *)
Theorem grant_is_immutable (parseURL : string → option URL) (es : list Gateway.event)
    (sv : Gateway.server) (tok : string) (t' : Credit.token) :
  tok ∉ drawn es →
  Gateway.credit (Gateway.shared (Gateway.run parseURL sv es)) !! tok = Some t' →
  ∃ t, Gateway.credit (Gateway.shared sv) !! tok = Some t ∧ same_grant t t'.
Proof.
  revert sv tok t'. induction es as [|e es IH]; intros sv tok t' Hfresh H.
  - exists t'. split; [done|apply same_grant_refl].
  - assert ((tok ∉ drawn [e]) ∧ (tok ∉ drawn es)) as [He Hes].
    { change (e :: es) with ([e] ++ es) in Hfresh. unfold drawn in *.
      rewrite omap_app in Hfresh. apply not_elem_of_app in Hfresh. done. }
    destruct (IH (Gateway.step parseURL sv e) tok t' Hes H) as (t1 & H1 & Hg1).
    destruct (step_grant parseURL sv e tok t1 He H1) as (t & Ht & Hg).
    exists t. split; [done|]. by eapply same_grant_trans.
Qed.

Lemma grant_is_immutable_sample :
  let sv := Gateway.run sampleParse Gateway.boot (take 1 sampleEvents) in
  ∃ t t', Gateway.credit (Gateway.shared (Gateway.run sampleParse sv (drop 1 sampleEvents)))
            !! "a1" = Some t'
          ∧ Credit.usedCredits t' = JS.VNumber (JS.Num 6)
          ∧ Gateway.credit (Gateway.shared sv) !! "a1" = Some t
          ∧ Credit.usedCredits t = JS.VNumber (JS.Num 0)
          ∧ same_grant t t'.
Proof.
  intros sv.
  destruct (grant_is_immutable sampleParse (drop 1 sampleEvents) sv "a1"
              {| Credit.id := "a1"; Credit.tier := "basic";
                 Credit.credits := JS.VNumber (JS.Num 10); Credit.createdAt := 1000;
                 Credit.expiresAt := 1000 + Credit.thirty_days; Credit.paymentId := "pay_1";
                 Credit.usedCredits := JS.VNumber (JS.Num 6); Credit.lastUsed := Some 4000 |})
    as (t & Ht & Hg).
  - vm_compute. apply not_elem_of_nil.
  - vm_compute. reflexivity.
  - eexists t, _. split; [vm_compute; reflexivity|]. split; [reflexivity|].
    split; [exact Ht|]. split; [|exact Hg].
    revert Ht. vm_compute. intros [= <-]. reflexivity.
Defined.

Section StatsFacts.
Import JS Credit.

Lemma stats_sums (l : list token) :
  Forall (balanced 0) l →
  ∀ a b, 0 ≤ b ≤ a →
  ∃ issued used,
    foldl (λ sum t, add sum (credits t)) (VNumber (Num a)) l = VNumber (Num issued)
    ∧ foldl (λ sum t, add sum (usedCredits t)) (VNumber (Num b)) l = VNumber (Num used)
    ∧ 0 ≤ used ≤ issued.
Proof.
  induction 1 as [|t l (c & u & Hc & Hu & Hle) _ IH]; intros a b Hab; simpl.
  - by exists a, b.
  - rewrite Hc, Hu. simpl. apply IH. lia.
Qed.

Lemma tier_counts (l : list token) :
  (length (filter (λ t, tier t = "basic") l)
   + length (filter (λ t, tier t = "premium") l)
   + length (filter (λ t, tier t = "custom") l) ≤ length l)%nat.
Proof.
  induction l as [|t l IH]; [done|].
  rewrite !filter_cons. repeat case_decide; simpl; try lia; congruence.
Qed.

End StatsFacts.

(** X7.  At every state the server reaches (token ids drawn without
    repetition, tiers of numeric grant and cost), [getStats] of the credit
    ledger, in whatever order the table lists its accounts, reports whole
    numbers with [0 ≤ totalCreditsUsed ≤ totalCreditsIssued], counts every
    account in [totalTokens], and counts at most that many under the three
    named tiers. *)
Theorem stats_never_overspent (parseURL : string → option URL)
    (es : list Gateway.event) (activeTokens : list Credit.token) :
  Forall (λ e, tiers_numeric e = true) es →
  NoDup (drawn es) →
  let ts := Gateway.credit (Gateway.shared (Gateway.run parseURL Gateway.boot es)) in
  activeTokens ≡ₚ (map_to_list ts).*2 →
  let stats := Credit.getStats activeTokens in
  (∃ issued used,
      Credit.totalCreditsIssued stats = JS.VNumber (JS.Num issued)
      ∧ Credit.totalCreditsUsed stats = JS.VNumber (JS.Num used)
      ∧ 0 ≤ used ≤ issued)
  ∧ Credit.totalTokens stats = size ts
  ∧ (Credit.basicTokens stats + Credit.premiumTokens stats + Credit.customTokens stats
     ≤ Credit.totalTokens stats)%nat.
Proof.
  intros Htiers Hnodup ts Hperm stats.
  destruct (run_invariant parseURL es ∅ Gateway.boot invariant_boot Htiers Hnodup)
    as (Hbal & _); [intros tokenId _; apply not_elem_of_empty|].
  assert (Forall (balanced 0) activeTokens) as Hall.
  { rewrite Hperm. apply Forall_fmap, Forall_forall. intros [k t] Hin. simpl.
    apply elem_of_map_to_list in Hin.
    eapply balanced_weaken; [apply owed_nonneg|by apply Hbal]. }
  split; [by apply stats_sums|]. split.
  - unfold stats. simpl. rewrite Hperm, length_fmap. apply length_map_to_list.
  - apply tier_counts.
Qed.

Lemma stats_never_overspent_sample :
  let ts := Gateway.credit (Gateway.shared (Gateway.run sampleParse Gateway.boot sampleEvents)) in
  let stats := Credit.getStats (map_to_list ts).*2 in
  Credit.totalCreditsIssued stats = JS.VNumber (JS.Num 10)
  ∧ Credit.totalCreditsUsed stats = JS.VNumber (JS.Num 6)
  ∧ Credit.totalTokens stats = size ts.
Proof.
  intros ts stats.
  assert (Forall (λ e, tiers_numeric e = true) sampleEvents) as Htiers
    by (repeat constructor).
  assert (NoDup (drawn sampleEvents)) as Hnodup
    by (vm_compute; repeat constructor; apply not_elem_of_nil).
  destruct (stats_never_overspent sampleParse sampleEvents (map_to_list ts).*2
              Htiers Hnodup (reflexivity _)) as (_ & Hsize & _).
  split; [vm_compute; reflexivity|]. split; [vm_compute; reflexivity|]. exact Hsize.
Defined.

(* ===================================================================== *)
(** ** Session manager *)
(* ===================================================================== *)

Section SessionFacts.
Import JS Session.

(** Validations within the lifetime all succeed, the count going up by one
    each time, and leave nothing but the one session changed. *)
Lemma validateEach_live (times : list Z) : ∀ (ss0 ss : sessions) tok s,
  ss = <[tok := s]> ss0 →
  Forall (λ now, now ≤ expiresAt s) times →
  ∃ s', (validateEach ss tok times).1 = <[tok := s']> ss0
        ∧ expiresAt s' = expiresAt s
        ∧ (validateEach ss tok times).2
          = imap (λ i _, ValidSession (tier s) (requestCount s + Z.of_nat i + 1) (expiresAt s))
                 times.
Proof.
  induction times as [|now rest IH]; intros ss0 ss tok s -> Hall.
  - by exists s.
  - apply Forall_cons in Hall as [Hnow Hrest]. simpl.
    unfold validateSession. rewrite lookup_insert_eq.
    rewrite bool_decide_eq_false_2 by lia. cbv zeta.
    set (s1 := {| id := id s |}).
    destruct (IH ss0 (<[tok := s1]> (<[tok := s]> ss0)) tok s1) as (s' & H1 & H2 & H3).
    { by rewrite insert_insert_eq. }
    { done. }
    destruct (validateEach _ tok rest) as [ssn rs]. simpl in *.
    exists s'. split; [done|]. split; [done|]. rewrite H3. f_equal.
    + f_equal. lia.
    + apply imap_ext. intros i x _. simpl. f_equal. lia.
Qed.

Lemma duration_cases (tier : string) (d : Z) :
  (tier, d) ∈ sessionDuration → get sessionDuration tier = Some (VNumber (Num d)).
Proof.
  unfold sessionDuration. rewrite !elem_of_cons, elem_of_nil.
  intros [[= -> ->]|[[= -> ->]|[[= -> ->]|[]]]]; reflexivity.
Qed.

End SessionFacts.

(** X8.  A session created for a tier of duration [d] (one hour for basic,
    a day for premium, seven days for custom) expires [d] after its
    creation.  Every validation up to that instant, the instant included,
    succeeds, and the [i]-th one reports [i] as the request count.  The
    first validation after it answers that the session expired and deletes
    it; every later one answers that the token is invalid. *)
Theorem session_counts_requests (sessionId : string) (now : Z) (ss : Session.sessions)
    (p : Credit.paymentData) (d : Z) (times : list Z) (later : Z) :
  (Credit.pd_tier p, d) ∈ Session.sessionDuration →
  Forall (λ t, t ≤ now + d) times →
  later > now + d →
  let '(ss0, c) := Session.createSession sessionId now ss p in
  let '(ssn, results) := validateEach ss0 sessionId times in
  c = Session.SessionToken sessionId (Credit.pd_tier p) (now + d)
  ∧ results = imap (λ i _, Session.ValidSession (Credit.pd_tier p) (Z.of_nat i + 1) (now + d))
                   times
  ∧ Session.validateSession later ssn sessionId = (delete sessionId ss, Session.SessionExpired)
  ∧ Session.validateSession later (delete sessionId ss) sessionId
    = (delete sessionId ss, Session.InvalidSession).
Proof.
  intros Hd Hall Hlater. unfold Session.createSession.
  rewrite (duration_cases _ _ Hd). simpl.
  set (s := {| Session.id := sessionId |}).
  destruct (validateEach_live times ss (<[sessionId := s]> ss) sessionId s eq_refl Hall)
    as (s' & H1 & H2 & H3).
  destruct (validateEach _ sessionId times) as [ssn results]. simpl in *. subst ssn.
  split; [done|]. split; [done|].
  unfold Session.validateSession. rewrite lookup_insert_eq, lookup_delete_eq.
  rewrite bool_decide_eq_true_2 by lia. by rewrite delete_insert_eq.
Qed.

Lemma session_counts_requests_sample :
  let p := {| Credit.pd_tier := "basic"; Credit.pd_paymentId := "pay_1" |} in
  let times := [1000; 2000; 3600000] in
  let '(ss0, c) := Session.createSession "s1" 0 ∅ p in
  let '(ssn, results) := validateEach ss0 "s1" times in
  c = Session.SessionToken "s1" "basic" (0 + 3600000)
  ∧ results = imap (λ i _, Session.ValidSession "basic" (Z.of_nat i + 1) (0 + 3600000)) times
  ∧ Session.validateSession 3600001 ssn "s1" = (delete "s1" ∅, Session.SessionExpired)
  ∧ Session.validateSession 3600001 (delete "s1" ∅) "s1"
    = (delete "s1" ∅, Session.InvalidSession).
Proof.
  apply (session_counts_requests "s1" 0 ∅
           {| Credit.pd_tier := "basic"; Credit.pd_paymentId := "pay_1" |}
           3600000 [1000; 2000; 3600000] 3600001).
  - apply list_elem_of_here.
  - repeat constructor; vm_compute; discriminate.
  - reflexivity.
Defined.

(** X9.  [createSession] has no fallback for the tier: for a purchase whose
    tier is none of basic, premium, custom the expiry date is invalid, the
    call throws a RangeError and stores no session; for each of the three
    tiers it stores a session with no request counted that expires after
    the tier's duration. *)
Theorem createSession_needs_known_tier (sessionId : string) (now : Z)
    (ss : Session.sessions) (p : Credit.paymentData) :
  (Credit.pd_tier p ∉ ["basic"; "premium"; "custom"] →
   Session.createSession sessionId now ss p = (ss, Session.RangeError "Invalid time value"))
  ∧ (Credit.pd_tier p ∈ ["basic"; "premium"; "custom"] →
     ∃ d, (Credit.pd_tier p, d) ∈ Session.sessionDuration
          ∧ (Session.createSession sessionId now ss p).2
            = Session.SessionToken sessionId (Credit.pd_tier p) (now + d)
          ∧ (Session.createSession sessionId now ss p).1 !! sessionId
            = Some {| Session.id := sessionId; Session.tier := Credit.pd_tier p;
                      Session.createdAt := now; Session.expiresAt := now + d;
                      Session.paymentId := Credit.pd_paymentId p;
                      Session.requestCount := 0; Session.lastUsed := None |}).
Proof.
  split.
  - intros Hnot. unfold Session.createSession, Session.dateAfter, JS.get.
    assert (JS.assoc (Credit.pd_tier p) Session.sessionDuration = None) as ->.
    { apply not_elem_of_cons in Hnot as [H1 Hnot].
      apply not_elem_of_cons in Hnot as [H2 Hnot].
      apply not_elem_of_cons in Hnot as [H3 _].
      simpl. by rewrite !decide_False. }
    by destruct (JS.assoc _ JS.object_prototype).
  - rewrite !elem_of_cons, elem_of_nil. unfold Session.createSession.
    intros [E|[E|[E|[]]]]; rewrite E; simpl; eexists; (split; [|split; [reflexivity|]]).
    1: apply list_elem_of_here. 1: by rewrite lookup_insert_eq.
    1: apply list_elem_of_further, list_elem_of_here. 1: by rewrite lookup_insert_eq.
    1: do 2 apply list_elem_of_further; apply list_elem_of_here. by rewrite lookup_insert_eq.
Qed.

(* ===================================================================== *)
(** ** Rate limiter: sweep, caps, reset time *)
(* ===================================================================== *)

Section WindowFacts.
Import Abuse.

Lemma afterCutoff_prune (now : Z) (l : list Z) : afterCutoff now l = prune now l.
Proof. apply list_filter_iff. intros time. lia. Qed.

Lemma prune_prune (now now' : Z) (l : list Z) :
  now ≤ now' → prune now' (prune now l) = prune now' l.
Proof.
  intros Hle. unfold prune. induction l as [|x l IH]; [done|].
  rewrite !filter_cons. destruct (decide (now - x < windowMs)).
  - rewrite filter_cons. destruct (decide (now' - x < windowMs)); by rewrite IH.
  - rewrite decide_False by lia. done.
Qed.

Lemma prune_all (now : Z) (l : list Z) :
  Forall (λ time, now - time < windowMs) l → prune now l = l.
Proof.
  unfold prune. induction 1 as [|x l Hx _ IH]; [done|].
  by rewrite filter_cons, decide_True, IH.
Qed.

Lemma prune_in (now : Z) (l : list Z) (time : Z) :
  time ∈ prune now l → now - time < windowMs.
Proof. unfold prune. by intros [? _]%list_elem_of_filter. Qed.

Lemma minimum_spec (l : list Z) :
  l ≠ [] → minimum l ∈ l ∧ Forall (λ x, minimum l ≤ x) l.
Proof.
  destruct l as [|x r]; [done|]. intros _. simpl.
  induction r as [|y r [Hin Hle]]; simpl.
  - split; [apply list_elem_of_here|]. by repeat constructor.
  - apply Forall_cons in Hle as [Hx Hr]. split.
    + destruct (Z.min_spec y (foldr Z.min x r)) as [[_ ->]|[_ ->]].
      * apply list_elem_of_further, list_elem_of_here.
      * apply elem_of_cons in Hin as [->|Hin]; [apply list_elem_of_here|].
        by do 2 apply list_elem_of_further.
    + repeat apply Forall_cons_2; [lia|lia|].
      eapply Forall_impl; [exact Hr|]. simpl. lia.
Qed.

Lemma clean_ipEntry (now : Z) (st : state) (key : string) :
  ipEntry (cleanOldEntries now st) key
  = {| requests := afterCutoff now (requests (ipEntry st key));
       failures := afterCutoff now (failures (ipEntry st key)) |}.
Proof.
  unfold ipEntry, cleanOldEntries. simpl. rewrite lookup_omap.
  destruct (ipTracker st !! key) as [d|]; simpl; [|done].
  by destruct (afterCutoff now (requests d)), (afterCutoff now (failures d)).
Qed.

Lemma clean_domainEntry (now : Z) (st : state) (key : string) :
  domainEntry (cleanOldEntries now st) key
  = {| d_requests := afterCutoff now (d_requests (domainEntry st key)) |}.
Proof.
  unfold domainEntry, cleanOldEntries. simpl. rewrite lookup_omap.
  destruct (domainTracker st !! key) as [d|]; simpl; [|done].
  by destruct (afterCutoff now (d_requests d)).
Qed.

Lemma recordRequest_ipEntry (now : Z) (st : state) (ip : string) (d : option string)
    (key : string) :
  ipEntry (recordRequest now st ip d) key
  = if decide (ipKey ip = key)
    then {| requests := requests (ipEntry st key) ++ [now];
            failures := failures (ipEntry st key) |}
    else ipEntry st key.
Proof.
  unfold recordRequest, ipEntry. destruct (JS.truthy d); simpl;
    (case_decide as Heq; [subst key; by rewrite lookup_insert_eq
                         |by rewrite lookup_insert_ne]).
Qed.

Lemma requestsAt_ipEntry (ip : string) (d : option string) (times : list Z) :
  ∀ st, ipEntry (performAll st (requestsAt ip d times)) (ipKey ip)
        = {| requests := requests (ipEntry st (ipKey ip)) ++ times;
             failures := failures (ipEntry st (ipKey ip)) |}.
Proof.
  induction times as [|t times IH]; intros st; simpl.
  - rewrite app_nil_r. by destruct (ipEntry st _).
  - rewrite IH, recordRequest_ipEntry, decide_True by done. simpl.
    by rewrite <- app_assoc.
Qed.

Lemma recordRequest_domainEntry (now : Z) (st : state) (ip domain : string) :
  domain ≠ EmptyString →
  domainEntry (recordRequest now st ip (Some domain)) (domainKey domain)
  = {| d_requests := d_requests (domainEntry st (domainKey domain)) ++ [now] |}.
Proof.
  intros Hd. unfold recordRequest, domainEntry. cbv zeta.
  assert (JS.truthy (Some domain) = Some domain) as -> by (by destruct domain).
  simpl. by rewrite lookup_insert_eq.
Qed.

Lemma visitsTo_domainEntry (domain : string) (visits : list (Z * string)) :
  domain ≠ EmptyString →
  ∀ st, d_requests (domainEntry (performAll st (visitsTo domain visits)) (domainKey domain))
        = d_requests (domainEntry st (domainKey domain)) ++ visits.*1.
Proof.
  intros Hd. induction visits as [|[t ip] visits IH]; intros st; simpl.
  - by rewrite app_nil_r.
  - rewrite IH, recordRequest_domainEntry by done. simpl. by rewrite <- app_assoc.
Qed.

(** What [checkRateLimit] does and answers at the per-IP cap. *)
Lemma checkRateLimit_at_cap (now : Z) (st : state) (ip : string) (d : option string) :
  len (requests (windowAt now st ip)) >= maxRequestsPerIP →
  checkRateLimit now st ip d
  = (flagSuspiciousIP now
       (set_ipTracker st (<[ipKey ip := windowAt now st ip]> (ipTracker st)))
       ip "Rate limit exceeded",
     IPLimit ("Rate limit exceeded: " +:+ pretty (len (requests (windowAt now st ip)))
              +:+ "/" +:+ pretty maxRequestsPerIP +:+ " requests per hour")
             (minimum (requests (windowAt now st ip)) + windowMs)).
Proof.
  intros Hcap. unfold checkRateLimit, windowAt, ipEntry in *. cbv zeta.
  simpl in *. by rewrite bool_decide_eq_true_2.
Qed.

End WindowFacts.

(** X10.  [cleanOldEntries] cuts every window, per IP and per domain, down
    to the timestamps of the trailing hour, by the test [checkRateLimit]
    prunes with; it deletes the entries this leaves without any timestamp,
    so that no empty entry stays in either table; and it leaves the
    suspicious set, the ban set, the report file, the calls of [reportAbuse]
    under way and the access log alone. *)
Theorem cleanOldEntries_windows (now : Z) (st : Abuse.state) :
  let st' := Abuse.cleanOldEntries now st in
  (∀ key, ipEntry st' key
          = {| Abuse.requests := Abuse.prune now (Abuse.requests (ipEntry st key));
               Abuse.failures := Abuse.prune now (Abuse.failures (ipEntry st key)) |})
  ∧ (∀ key, domainEntry st' key
            = {| Abuse.d_requests := Abuse.prune now (Abuse.d_requests (domainEntry st key)) |})
  ∧ (∀ key d, Abuse.ipTracker st' !! key = Some d →
              Abuse.requests d ≠ [] ∨ Abuse.failures d ≠ [])
  ∧ (∀ key d, Abuse.domainTracker st' !! key = Some d → Abuse.d_requests d ≠ [])
  ∧ (∀ l time, time ∈ Abuse.prune now l ↔ time ∈ l ∧ now - time < Abuse.windowMs)
  ∧ Abuse.suspiciousIPs st' = Abuse.suspiciousIPs st
  ∧ Abuse.bannedIPs st' = Abuse.bannedIPs st
  ∧ Abuse.abuseFile st' = Abuse.abuseFile st
  ∧ Abuse.filing st' = Abuse.filing st
  ∧ Abuse.logFile st' = Abuse.logFile st.
Proof.
  intros st'. split; [|split; [|split; [|split; [|split]]]].
  - intros key. unfold st'. by rewrite clean_ipEntry, !afterCutoff_prune.
  - intros key. unfold st'. by rewrite clean_domainEntry, !afterCutoff_prune.
  - intros key d. unfold st', Abuse.cleanOldEntries. simpl. rewrite lookup_omap.
    destruct (Abuse.ipTracker st !! key) as [d0|]; simpl; [|done].
    destruct (Abuse.afterCutoff now (Abuse.requests d0)) eqn:E1,
             (Abuse.afterCutoff now (Abuse.failures d0)) eqn:E2; intros [= <-]; simpl;
      rewrite ?E1, ?E2; auto.
  - intros key d. unfold st', Abuse.cleanOldEntries. simpl. rewrite lookup_omap.
    destruct (Abuse.domainTracker st !! key) as [d0|]; simpl; [|done].
    destruct (Abuse.afterCutoff now (Abuse.d_requests d0)) eqn:E1; intros [= <-]; simpl;
      by rewrite ?E1.
  - intros l time. unfold Abuse.prune. rewrite list_elem_of_filter. tauto.
  - done.
Qed.

(** X11.  The sweep is invisible to the limiter: a [checkRateLimit] at a
    clock reading not before that of a [cleanOldEntries] gives the same
    answer, the same window of the caller, the same suspicious and ban sets,
    the same report file and the same calls of [reportAbuse] under way,
    whether or not the sweep ran. *)
Theorem sweep_invisible_to_checkRateLimit (now now' : Z) (st : Abuse.state) (ip : string)
    (domain : option string) :
  now ≤ now' →
  let '(st1, r1) := Abuse.checkRateLimit now' st ip domain in
  let '(st2, r2) := Abuse.checkRateLimit now' (Abuse.cleanOldEntries now st) ip domain in
  r2 = r1
  ∧ ipEntry st2 (Abuse.ipKey ip) = ipEntry st1 (Abuse.ipKey ip)
  ∧ Abuse.suspiciousIPs st2 = Abuse.suspiciousIPs st1
  ∧ Abuse.bannedIPs st2 = Abuse.bannedIPs st1
  ∧ Abuse.abuseFile st2 = Abuse.abuseFile st1
  ∧ Abuse.filing st2 = Abuse.filing st1.
Proof.
  intros Hle. unfold Abuse.checkRateLimit.
  pose proof (clean_ipEntry now st (Abuse.ipKey ip)) as Hip. unfold ipEntry in Hip.
  rewrite Hip. cbn [Abuse.requests Abuse.failures].
  rewrite !afterCutoff_prune, !prune_prune by done.
  cbv zeta.
  case_bool_decide as Hreq.
  { simpl. unfold ipEntry. simpl. rewrite !lookup_insert_eq. done. }
  case_bool_decide as Hfail.
  { simpl. unfold ipEntry. simpl. rewrite !lookup_insert_eq. done. }
  destruct (JS.truthy domain) as [d|].
  2: { simpl. unfold ipEntry. simpl. rewrite !lookup_insert_eq. done. }
  cbn [Abuse.domainTracker Abuse.set_ipTracker].
  pose proof (clean_domainEntry now st (Abuse.domainKey d)) as Hdom. unfold domainEntry in Hdom.
  rewrite Hdom. cbn [Abuse.d_requests].
  rewrite !afterCutoff_prune, !prune_prune by done.
  case_bool_decide as Hd; simpl; unfold ipEntry; simpl; rewrite !lookup_insert_eq; done.
Qed.

Lemma sweep_invisible_to_checkRateLimit_sample :
  let st := Abuse.performAll Abuse.init sampleOffences in
  let '(st1, r1) := Abuse.checkRateLimit 3602500 st sampleOffender None in
  let '(st2, r2) :=
    Abuse.checkRateLimit 3602500 (Abuse.cleanOldEntries 3601500 st) sampleOffender None in
  r2 = r1
  ∧ ipEntry st2 (Abuse.ipKey sampleOffender) = ipEntry st1 (Abuse.ipKey sampleOffender)
  ∧ Abuse.suspiciousIPs st2 = Abuse.suspiciousIPs st1
  ∧ Abuse.bannedIPs st2 = Abuse.bannedIPs st1
  ∧ Abuse.abuseFile st2 = Abuse.abuseFile st1
  ∧ Abuse.filing st2 = Abuse.filing st1.
Proof.
  intros st.
  apply (sweep_invisible_to_checkRateLimit 3601500 3602500 st sampleOffender None).
  vm_compute. discriminate.
Defined.

(** X12.  A hundred requests of one caller recorded within the trailing
    hour close the gate for it: whatever the limiter held before and
    whatever domain is asked for, the next [checkRateLimit] refuses with the
    per-IP limit and a reset time in the future, puts the caller in the
    suspicious set and calls [reportAbuse] with an incident of MEDIUM
    severity.  That call is not awaited: the report file is as it was when
    the check returns, and the incident is its last report once the call
    has read and written, both going through, with no other call resumed in
    between. *)
Theorem hundred_requests_close_the_gate (st : Abuse.state) (ip : string)
    (domain domain' : option string) (times : list Z) (now : Z) :
  (100 ≤ length times)%nat →
  Forall (λ time, now - time < Abuse.windowMs) times →
  let st1 := Abuse.performAll st (requestsAt ip domain times) in
  let '(st2, r) := Abuse.checkRateLimit now st1 ip domain' in
  Abuse.allowed r = false
  ∧ (∃ reason reset, r = Abuse.IPLimit reason reset ∧ now < reset)
  ∧ ip ∈ Abuse.suspiciousIPs st2
  ∧ handedOver st2 (rateLimitReport now ip)
  ∧ Abuse.abuseFile st2 = Abuse.abuseFile st1
  ∧ last (Abuse.abuseFile (lastCallDone st2)) = Some (rateLimitReport now ip).
Proof.
  intros Hlen Hall st1.
  assert (Abuse.requests (windowAt now st1 ip)
          = Abuse.prune now (Abuse.requests (ipEntry st (Abuse.ipKey ip))) ++ times) as Hwin.
  { unfold windowAt, st1. rewrite requestsAt_ipEntry. simpl.
    unfold Abuse.prune at 1. rewrite filter_app. f_equal. by apply prune_all. }
  assert (Abuse.len (Abuse.requests (windowAt now st1 ip)) >= Abuse.maxRequestsPerIP) as Hcap.
  { rewrite Hwin. unfold Abuse.len, Abuse.maxRequestsPerIP. rewrite length_app. lia. }
  rewrite (checkRateLimit_at_cap now st1 ip domain' Hcap).
  split; [done|]. split; [|split].
  - eexists _, _. split; [done|].
    destruct (minimum_spec (Abuse.requests (windowAt now st1 ip))) as [Hin _].
    { rewrite Hwin. destruct times; [simpl in Hlen; lia|]. by destruct (Abuse.prune _ _). }
    apply prune_in in Hin. lia.
  - simpl. apply elem_of_union_l, elem_of_singleton. done.
  - assert (handedOver
              (Abuse.flagSuspiciousIP now
                 (Abuse.set_ipTracker st1
                    (<[Abuse.ipKey ip := windowAt now st1 ip]> (Abuse.ipTracker st1)))
                 ip "Rate limit exceeded")
              (rateLimitReport now ip)) as Hover
      by (by eapply handedOver_snoc).
    split; [done|]. split; [done|]. by apply handedOver_lands.
Qed.

Lemma hundred_requests_close_the_gate_sample :
  let st1 := Abuse.performAll Abuse.init (requestsAt sampleCaller None sampleBurst) in
  let '(st2, r) := Abuse.checkRateLimit 6000 st1 sampleCaller None in
  Abuse.allowed r = false
  ∧ (∃ reason reset, r = Abuse.IPLimit reason reset ∧ 6000 < reset)
  ∧ sampleCaller ∈ Abuse.suspiciousIPs st2
  ∧ handedOver st2 (rateLimitReport 6000 sampleCaller)
  ∧ Abuse.abuseFile st2 = Abuse.abuseFile st1
  ∧ last (Abuse.abuseFile (lastCallDone st2)) = Some (rateLimitReport 6000 sampleCaller).
Proof.
  apply (hundred_requests_close_the_gate Abuse.init sampleCaller None None sampleBurst 6000).
  - unfold sampleBurst. rewrite length_replicate. lia.
  - apply Forall_replicate. vm_compute. reflexivity.
Defined.

(** X13.  Sixty requests for one domain recorded within the trailing hour,
    by whatever callers, close the domain for every caller: a caller whose
    own windows are below the per-IP and the failure cap is refused with the
    domain limit; the refusal flags nobody, bans nobody and reports nothing:
    the report file is as it was and no call of [reportAbuse] is started. *)
Theorem sixty_requests_close_the_domain (st : Abuse.state) (domain : string)
    (visits : list (Z * string)) (ip : string) (now : Z) :
  domain ≠ EmptyString →
  (60 ≤ length visits)%nat →
  Forall (λ v, now - v.1 < Abuse.windowMs) visits →
  let st1 := Abuse.performAll st (visitsTo domain visits) in
  Abuse.len (Abuse.requests (windowAt now st1 ip)) < Abuse.maxRequestsPerIP →
  Abuse.len (Abuse.failures (windowAt now st1 ip)) < Abuse.maxFailedAttempts →
  let '(st2, r) := Abuse.checkRateLimit now st1 ip (Some domain) in
  (∃ reason, r = Abuse.DomainLimit reason)
  ∧ Abuse.suspiciousIPs st2 = Abuse.suspiciousIPs st1
  ∧ Abuse.bannedIPs st2 = Abuse.bannedIPs st1
  ∧ Abuse.abuseFile st2 = Abuse.abuseFile st1
  ∧ Abuse.filing st2 = Abuse.filing st1.
Proof.
  intros Hd Hlen Hall st1 Hreq Hfail.
  pose proof (visitsTo_domainEntry domain visits Hd st) as Hdom. fold st1 in Hdom.
  unfold Abuse.checkRateLimit. cbv zeta. unfold windowAt, ipEntry in Hreq, Hfail.
  simpl in Hreq, Hfail.
  cbn [Abuse.requests Abuse.failures].
  rewrite bool_decide_eq_false_2 by lia. rewrite bool_decide_eq_false_2 by lia.
  assert (JS.truthy (Some domain) = Some domain) as -> by (by destruct domain).
  cbn [Abuse.domainTracker Abuse.set_ipTracker Abuse.d_requests].
  unfold domainEntry in Hdom. rewrite Hdom.
  rewrite bool_decide_eq_true_2; [split; [by eexists|done]|].
  unfold Abuse.prune. rewrite filter_app. unfold Abuse.len, Abuse.maxRequestsPerDomain.
  rewrite length_app.
  assert (filter (λ time, now - time < Abuse.windowMs) visits.*1 = visits.*1) as ->.
  { apply prune_all, Forall_fmap. eapply Forall_impl; [exact Hall|]. done. }
  rewrite length_fmap. lia.
Qed.

Lemma sixty_requests_close_the_domain_sample :
  let st1 := Abuse.performAll Abuse.init
               (visitsTo "example.org" (replicate 60 (5000, sampleOffender))) in
  let '(st2, r) := Abuse.checkRateLimit 6000 st1 sampleCaller (Some "example.org") in
  (∃ reason, r = Abuse.DomainLimit reason)
  ∧ Abuse.suspiciousIPs st2 = Abuse.suspiciousIPs st1
  ∧ Abuse.bannedIPs st2 = Abuse.bannedIPs st1
  ∧ Abuse.abuseFile st2 = Abuse.abuseFile st1
  ∧ Abuse.filing st2 = Abuse.filing st1.
Proof.
  apply (sixty_requests_close_the_domain Abuse.init "example.org"
           (replicate 60 (5000, sampleOffender)) sampleCaller 6000).
  - discriminate.
  - rewrite length_replicate. lia.
  - apply Forall_replicate. vm_compute. reflexivity.
  - vm_compute. reflexivity.
  - vm_compute. reflexivity.
Defined.

(** X14.  The reset time of a per-IP refusal is exact.  It lies in the
    future; until it, with nothing recorded in between, every check of the
    caller is refused with the same request count and the same reset time;
    at it, the oldest request leaves the window, which from then on holds
    fewer requests than at the refusal. *)
Theorem resetTime_is_exact (now : Z) (st st' : Abuse.state) (ip : string)
    (domain : option string) (reason : string) (reset : Z) :
  Abuse.checkRateLimit now st ip domain = (st', Abuse.IPLimit reason reset) →
  now < reset
  ∧ (∀ t domain', now ≤ t < reset →
       (Abuse.checkRateLimit t st' ip domain').2 = Abuse.IPLimit reason reset)
  ∧ Abuse.len (Abuse.requests (windowAt reset st' ip))
    < Abuse.len (Abuse.requests (windowAt now st' ip)).
Proof.
  intros Hcheck.
  assert (Abuse.len (Abuse.requests (windowAt now st ip)) >= Abuse.maxRequestsPerIP) as Hcap.
  { revert Hcheck. unfold Abuse.checkRateLimit, windowAt, ipEntry. cbv zeta. simpl.
    case_bool_decide; [done|]. case_bool_decide; [done|].
    destruct (JS.truthy domain); [case_bool_decide|]; done. }
  rewrite (checkRateLimit_at_cap now st ip domain Hcap) in Hcheck.
  injection Hcheck as Hst' Hreason Hreset.
  set (w := Abuse.requests (windowAt now st ip)) in *.
  change (Abuse.prune now (Abuse.requests (ipEntry st (Abuse.ipKey ip)))) with w in *.
  assert (ipEntry st' (Abuse.ipKey ip) = windowAt now st ip) as Hentry.
  { rewrite <- Hst'. unfold ipEntry. simpl. by rewrite lookup_insert_eq. }
  destruct (minimum_spec w) as [Hin Hmin].
  { intros E. rewrite E in Hcap. unfold Abuse.len, Abuse.maxRequestsPerIP in Hcap.
    simpl in Hcap. lia. }
  assert (now < reset) as Hlt by (apply prune_in in Hin; lia).
  assert (∀ t, now ≤ t < reset → Abuse.requests (windowAt t st' ip) = w) as Hkeep.
  { intros t Ht. unfold windowAt. rewrite Hentry. simpl. fold w. apply prune_all.
    eapply Forall_impl; [exact Hmin|]. simpl. intros x Hx. lia. }
  split; [done|]. split.
  - intros t domain' Ht.
    rewrite checkRateLimit_at_cap; rewrite (Hkeep t Ht); [|done]. simpl.
    by rewrite Hreason, Hreset.
  - rewrite (Hkeep now) by lia. unfold windowAt. rewrite Hentry. simpl. fold w.
    unfold Abuse.len. apply inj_lt.
    apply (length_filter_lt _ w (Abuse.minimum w)); [done|lia].
Qed.

Lemma resetTime_is_exact_sample :
  let st := Abuse.performAll Abuse.init (requestsAt sampleCaller None sampleBurst) in
  let st' := (Abuse.checkRateLimit 6000 st sampleCaller None).1 in
  6000 < 3605000
  ∧ (∀ t domain', 6000 ≤ t < 3605000 →
       (Abuse.checkRateLimit t st' sampleCaller domain').2
       = Abuse.IPLimit "Rate limit exceeded: 100/100 requests per hour" 3605000)
  ∧ Abuse.len (Abuse.requests (windowAt 3605000 st' sampleCaller))
    < Abuse.len (Abuse.requests (windowAt 6000 st' sampleCaller)).
Proof.
  intros st st'.
  apply (resetTime_is_exact 6000 st st' sampleCaller None
           "Rate limit exceeded: 100/100 requests per hour" 3605000).
  vm_compute. reflexivity.
Defined.

(* ===================================================================== *)
(** ** Abuse ledger: flags, the report file, the free endpoint's tally *)
(* ===================================================================== *)

Section FlagFacts.
Import Abuse.

Lemma toLowerCase_app (a b : string) :
  JS.toLowerCase (a +:+ b) = JS.toLowerCase a +:+ JS.toLowerCase b.
Proof. induction a as [|c a IH]; [done|]. simpl. by rewrite IH. Qed.

Lemma manual_ban_severity (reason : string) :
  calculateSeverity ("Manual ban: " +:+ reason) = HIGH.
Proof.
  unfold calculateSeverity.
  assert (JS.some (λ keyword, JS.includes (JS.toLowerCase ("Manual ban: " +:+ reason)) keyword)
            highSeverityKeywords = true) as ->; [|done].
  apply some_includes. unfold highSeverityKeywords.
  apply Exists_cons_tl, Exists_cons_hd.
  rewrite toLowerCase_app. exists "manual ", (": " +:+ JS.toLowerCase reason). done.
Qed.

Lemma trimmed_frame (st st' : state) :
  abuseFile st' = abuseFile st → filing st' = filing st → trimmed st → trimmed st'.
Proof. unfold trimmed. by intros -> ->. Qed.

Lemma reportAbuse_trimmed (now : Z) (st : state) (ip reason : string) (meta : metadata) :
  trimmed st → trimmed (reportAbuse now st ip reason meta).
Proof.
  intros [Hfile Hcalls]. split; [done|]. simpl.
  apply Forall_app. split; [done|]. by repeat constructor.
Qed.

Lemma resumeReport_trimmed (st : state) (k : nat) (ok : bool) :
  trimmed st → trimmed (resumeReport st k ok).
Proof.
  intros [Hfile Hcalls]. unfold resumeReport.
  destruct (filing st !! k) as [[r|reports]|] eqn:Hk; [| |done].
  - split; [done|]. simpl. apply Forall_insert; [done|].
    case_bool_decide as Hlong; [|lia].
    unfold last_n. rewrite length_drop. lia.
  - pose proof (Forall_lookup_1 _ _ _ _ Hcalls Hk) as Hlen. simpl in Hlen.
    split.
    + by destruct ok.
    + destruct ok; simpl; by apply Forall_delete.
Qed.

Lemma perform_trimmed (st : state) (timed : Z * operation) :
  trimmed st → trimmed (perform st timed).
Proof.
  intros Hle. destruct timed as [now op]. destruct op; simpl; try done.
  - pose proof (checkRateLimit_state now st ip domain) as H. cbv zeta in H.
    destruct H as [[_ ->]|[(_ & _ & ->)|(_ & _ & [[_ ->]|(d & _ & ->)])]]; try done.
    by apply reportAbuse_trimmed.
  - unfold recordRequest. by destruct (JS.truthy domain).
  - unfold recordFailure. destruct (_ || _); [|done]. case_bool_decide; [|done].
    by apply reportAbuse_trimmed.
  - by apply reportAbuse_trimmed.
  - by apply reportAbuse_trimmed.
  - by apply resumeReport_trimmed.
  - by apply reportAbuse_trimmed.
Qed.

(** What a call of [reportAbuse] that runs on alone leaves in the file. *)
Lemma lastCallDone_file (st st1 : state) (r : report) :
  filing st1 = filing st ++ [AwaitRead r] →
  abuseFile st1 = abuseFile st →
  abuseFile (lastCallDone st1)
  = (if bool_decide (1000 < length (abuseFile st ++ [r]))%nat
     then last_n 1000 (abuseFile st ++ [r]) else abuseFile st ++ [r])
  ∧ filing (lastCallDone st1) = filing st.
Proof.
  intros Hcalls Hfile. unfold lastCallDone. rewrite Hcalls, length_app. simpl.
  replace (pred (length (filing st) + 1)) with (length (filing st)) by lia.
  assert (filing st1 !! length (filing st) = Some (AwaitRead r)) as Hk
    by (rewrite Hcalls; apply reportAbuse_last).
  rewrite (resumeReport_read st1 _ r true Hk).
  erewrite resumeReport_write
    by (cbn [filing set_filing]; apply list_lookup_insert_eq; by eapply lookup_lt_Some).
  cbn [abuseFile set_filing set_abuseFile filing]. rewrite Hfile. split; [done|].
  rewrite delete_insert_same, Hcalls.
  by rewrite delete_middle, app_nil_r.
Qed.

Lemma not_in_remove (X : gset string) (ip : string) : ip ∉ X ∖ {[ip]}.
Proof. rewrite elem_of_difference, elem_of_singleton. tauto. Qed.

Lemma in_remove_other (X : gset string) (ip other : string) :
  other ≠ ip → other ∈ X ∖ {[ip]} ↔ other ∈ X.
Proof. rewrite elem_of_difference, elem_of_singleton. tauto. Qed.

Lemma slice_tail {A} (n : Z) (l : list A) :
  0 < n → reverse (JS.slice_from (- n) l) = take (Z.to_nat n) (reverse l).
Proof.
  intros Hn. unfold JS.slice_from. rewrite bool_decide_eq_true_2 by lia.
  rewrite reverse_drop.
  destruct (decide (Z.of_nat (length l) ≤ n)).
  - rewrite Z.max_r by lia. simpl. rewrite Nat.sub_0_r.
    rewrite !take_ge; [done|rewrite length_reverse; lia|by rewrite length_reverse].
  - rewrite Z.max_l by lia. f_equal. lia.
Qed.

Lemma slice_head {A} (n : Z) (l : list A) :
  n ≤ 0 → JS.slice_from (- n) l = drop (Z.to_nat (- n)) l.
Proof.
  intros Hn. unfold JS.slice_from. rewrite bool_decide_eq_false_2 by lia.
  destruct (decide (- n ≤ Z.of_nat (length l))).
  - by rewrite Z.min_l by lia.
  - rewrite Z.min_r by lia. rewrite Nat2Z.id. rewrite !drop_ge; [done|lia|done].
Qed.

Lemma severity_counts (l : list report) :
  length l
  = (length (filter (λ r, r_severity r = HIGH) l)
     + length (filter (λ r, r_severity r = MEDIUM) l)
     + length (filter (λ r, r_severity r = LOW) l))%nat.
Proof.
  induction l as [|r l IH]; [done|]. rewrite !filter_cons.
  destruct (r_severity r); repeat case_decide; try done; simpl; lia.
Qed.

Lemma checkRateLimit_window (now : Z) (st : state) (ip : string) (d : option string) :
  ipEntry (checkRateLimit now st ip d).1 (ipKey ip) = windowAt now st ip
  ∧ logFile (checkRateLimit now st ip d).1 = logFile st.
Proof.
  pose proof (checkRateLimit_state now st ip d) as H. cbv zeta in H.
  destruct H as [[_ ->]|[(_ & _ & ->)|(_ & _ & [[_ ->]|(x & _ & ->)])]];
    unfold ipEntry, windowAt; simpl; by rewrite lookup_insert_eq.
Qed.

Lemma recordFailure_window (now : Z) (st : state) (ip reason : string) :
  ipEntry (recordFailure now st ip reason) (ipKey ip)
  = {| requests := requests (ipEntry st (ipKey ip));
       failures := failures (ipEntry st (ipKey ip)) ++ [now] |}
  ∧ logFile (recordFailure now st ip reason) = logFile st.
Proof.
  unfold recordFailure. cbv zeta. destruct (_ || _); [case_bool_decide|];
    unfold ipEntry; simpl; by rewrite lookup_insert_eq.
Qed.

Lemma recordRequest_window (now : Z) (st : state) (ip : string) (d : option string) :
  ipEntry (recordRequest now st ip d) (ipKey ip)
  = {| requests := requests (ipEntry st (ipKey ip)) ++ [now];
       failures := failures (ipEntry st (ipKey ip)) |}
  ∧ logFile (recordRequest now st ip d) = logFile st.
Proof.
  unfold recordRequest. cbv zeta. destruct (JS.truthy d);
    unfold ipEntry; simpl; by rewrite lookup_insert_eq.
Qed.

Lemma logRequest_window (now : Z) (st : state) (ip url : string) (ok : bool) (key : string) :
  ipEntry (logRequest now st ip url ok) key = ipEntry st key
  ∧ logFile (logRequest now st ip url ok)
    = logFile st ++ [ {| l_timestamp := now; l_ip := ip; l_targetUrl := url;
                         l_success := ok |} ].
Proof. done. Qed.

Lemma sameButFlags_inv (a a' : state) :
  sameButFlags a a' → a' = set_suspiciousIPs a (suspiciousIPs a').
Proof.
  destruct a, a'. unfold sameButFlags. simpl. intros (-> & -> & -> & -> & -> & ->). done.
Qed.

Lemma checkRateLimit_flags (now : Z) (a : state) (ip : string) (d : option string)
    (flags : gset string) :
  (checkRateLimit now (set_suspiciousIPs a flags) ip d).2 = (checkRateLimit now a ip d).2
  ∧ sameButFlags (checkRateLimit now a ip d).1
                 (checkRateLimit now (set_suspiciousIPs a flags) ip d).1.
Proof.
  unfold checkRateLimit. cbv zeta. simpl.
  case_bool_decide; [by split|]. case_bool_decide; [by split|].
  destruct (JS.truthy d); [case_bool_decide|]; by split.
Qed.

Lemma recordFailure_flags (now : Z) (a : state) (ip reason : string) (flags : gset string) :
  sameButFlags (recordFailure now a ip reason)
               (recordFailure now (set_suspiciousIPs a flags) ip reason).
Proof.
  unfold recordFailure. cbv zeta. simpl.
  destruct (_ || _); [case_bool_decide|]; by repeat split.
Qed.

Lemma recordRequest_flags (now : Z) (a : state) (ip : string) (d : option string)
    (flags : gset string) :
  sameButFlags (recordRequest now a ip d)
               (recordRequest now (set_suspiciousIPs a flags) ip d).
Proof. unfold recordRequest. cbv zeta. simpl. destruct (JS.truthy d); by repeat split. Qed.

End FlagFacts.

(** X15.  [unbanIP] clears both flags of the caller, so that its status is
    clean, touches the flags of no other caller, and leaves every window as
    it is.  A caller whose window holds ten failures is therefore banned
    again by its next [checkRateLimit] within the hour, unless the per-IP
    cap refuses it first. *)
Theorem unban_clears_flags_not_windows :
  (∀ st ip, Abuse.checkIPStatus (Abuse.unbanIP st ip) ip = Abuse.Clean)
  ∧ (∀ st ip other, other ≠ ip →
       Abuse.checkIPStatus (Abuse.unbanIP st ip) other = Abuse.checkIPStatus st other)
  ∧ (∀ st ip, Abuse.ipTracker (Abuse.unbanIP st ip) = Abuse.ipTracker st
              ∧ Abuse.domainTracker (Abuse.unbanIP st ip) = Abuse.domainTracker st)
  ∧ (∀ now st ip domain,
       Abuse.len (Abuse.requests (windowAt now st ip)) < Abuse.maxRequestsPerIP →
       Abuse.len (Abuse.failures (windowAt now st ip)) >= Abuse.maxFailedAttempts →
       let '(st', r) := Abuse.checkRateLimit now (Abuse.unbanIP st ip) ip domain in
       (∃ reason, r = Abuse.FailureLimit reason)
       ∧ Abuse.checkIPStatus st' ip = Abuse.Banned).
Proof.
  split; [|split; [|split]].
  - intros st ip. unfold Abuse.checkIPStatus, Abuse.unbanIP. simpl.
    rewrite !bool_decide_eq_false_2; [done|apply not_in_remove..].
  - intros st ip other Hne. unfold Abuse.checkIPStatus, Abuse.unbanIP. simpl.
    by rewrite !(bool_decide_ext _ _ (in_remove_other _ ip other Hne)).
  - done.
  - intros now st ip domain Hreq Hfail. unfold windowAt, ipEntry in *. simpl in *.
    unfold Abuse.checkRateLimit. cbv zeta. simpl.
    rewrite bool_decide_eq_false_2 by lia. rewrite bool_decide_eq_true_2 by done.
    split; [by eexists|]. unfold Abuse.checkIPStatus. simpl.
    rewrite bool_decide_eq_true_2; [done|]. apply elem_of_union_l, elem_of_singleton. done.
Qed.

(** X16.  A manual ban takes effect at once and calls [reportAbuse] with an
    incident of HIGH severity, whatever reason the administrator gives: the
    reason reported begins with "Manual ban: ", which contains the
    high-severity term "ban".  The call is not awaited: the report file is
    as it was when [banIP] returns, and the incident is its last report once
    the call has read and written, both going through, with no other call
    resumed in between.  The ban touches no window and not the suspicious
    set. *)
Theorem manual_ban_reported_high (now : Z) (st : Abuse.state) (ip reason : string) :
  let st' := Abuse.banIP now st ip reason in
  Abuse.checkIPStatus st' ip = Abuse.Banned
  ∧ Abuse.filing st'
    = Abuse.filing st ++ [Abuse.AwaitRead (manualBanReport now ip reason)]
  ∧ Abuse.abuseFile st' = Abuse.abuseFile st
  ∧ last (Abuse.abuseFile (lastCallDone st')) = Some (manualBanReport now ip reason)
  ∧ Abuse.ipTracker st' = Abuse.ipTracker st
  ∧ Abuse.domainTracker st' = Abuse.domainTracker st
  ∧ Abuse.suspiciousIPs st' = Abuse.suspiciousIPs st.
Proof.
  intros st'.
  assert (Abuse.filing st'
          = Abuse.filing st ++ [Abuse.AwaitRead (manualBanReport now ip reason)]) as Hcalls.
  { unfold st', Abuse.banIP, Abuse.reportAbuse. simpl. by rewrite manual_ban_severity. }
  split; [|split; [done|split; [done|split]]].
  - unfold Abuse.checkIPStatus, st', Abuse.banIP. simpl.
    rewrite bool_decide_eq_true_2; [done|]. apply elem_of_union_l, elem_of_singleton. done.
  - by eapply handedOver_lands, handedOver_snoc.
  - done.
Qed.

(** X17.  The report file never grows beyond 1000 reports, whatever the
    limiter does and in whatever order the calls of [reportAbuse] under way
    are resumed.  A call that runs on alone, its read and write going
    through, appends its report to a file of fewer than 1000 and, on a file
    of 1000, drops the oldest report and appends.  But the calls are not
    awaited and do not wait for each other: when two calls have both read
    before either writes, the file ends with the report of the one that
    writes last and the other report is not in it; and a call whose read
    fails writes a file of its one report. *)
Theorem abuse_file_bounded :
  (∀ st ops, trimmed st → trimmed (Abuse.performAll st ops))
  ∧ (∀ now st ip reason meta,
       let st' := lastCallDone (Abuse.reportAbuse now st ip reason meta) in
       Abuse.filing st' = Abuse.filing st
       ∧ ((length (Abuse.abuseFile st) < 1000)%nat →
          Abuse.abuseFile st' = Abuse.abuseFile st ++ [reportOf now ip reason meta])
       ∧ (length (Abuse.abuseFile st) = 1000%nat →
          Abuse.abuseFile st'
          = drop 1 (Abuse.abuseFile st) ++ [reportOf now ip reason meta]))
  ∧ (∀ now1 now2 st ip1 ip2 reason1 reason2 meta1 meta2,
       (length (Abuse.abuseFile st) < 1000)%nat →
       let k := length (Abuse.filing st) in
       let st' := Abuse.performAll st
                    [ (now1, Abuse.OpReportAbuse ip1 reason1 meta1);
                      (now2, Abuse.OpReportAbuse ip2 reason2 meta2);
                      (now2, Abuse.OpResumeReport k true);
                      (now2, Abuse.OpResumeReport (S k) true);
                      (now2, Abuse.OpResumeReport k true);
                      (now2, Abuse.OpResumeReport k true) ] in
       Abuse.filing st' = Abuse.filing st
       ∧ Abuse.abuseFile st' = Abuse.abuseFile st ++ [reportOf now2 ip2 reason2 meta2])
  ∧ (∀ now st ip reason meta,
       let k := length (Abuse.filing st) in
       let st' := Abuse.resumeReport
                    (Abuse.resumeReport (Abuse.reportAbuse now st ip reason meta) k false)
                    k true in
       Abuse.filing st' = Abuse.filing st
       ∧ Abuse.abuseFile st' = [reportOf now ip reason meta]).
Proof.
  split; [|split; [|split]].
  - intros st ops. revert st. induction ops as [|op ops IH]; intros st Hle; [done|].
    simpl. apply IH. by apply perform_trimmed.
  - intros now st ip reason meta st'.
    destruct (lastCallDone_file st (Abuse.reportAbuse now st ip reason meta)
                (reportOf now ip reason meta) eq_refl eq_refl) as [Hfile Hcalls].
    fold st' in Hfile, Hcalls. split; [done|]. rewrite Hfile, length_app. simpl. split.
    + intros Hlt. by rewrite bool_decide_eq_false_2 by lia.
    + intros Heq. rewrite bool_decide_eq_true_2 by lia.
      unfold Abuse.last_n. rewrite length_app, Heq. simpl.
      by rewrite drop_app_le by lia.
  - intros now1 now2 st ip1 ip2 reason1 reason2 meta1 meta2 Hlt k st'.
    unfold st'. cbn [Abuse.performAll foldl Abuse.perform].
    unfold Abuse.reportAbuse. cbn [Abuse.filing Abuse.set_filing].
    fold (reportOf now1 ip1 reason1 meta1). fold (reportOf now2 ip2 reason2 meta2).
    set (r1 := reportOf now1 ip1 reason1 meta1). set (r2 := reportOf now2 ip2 reason2 meta2).
    assert (∀ r, bool_decide (1000 < length (Abuse.abuseFile st ++ [r]))%nat = false) as Hfit
      by (intros r; apply bool_decide_eq_false_2; rewrite length_app; simpl; lia).
    rewrite <- app_assoc. cbn [app].
    set (file := Abuse.abuseFile st) in *. set (calls := Abuse.filing st) in *.
    assert (∀ (x y : Abuse.filer), (calls ++ [x; y]) !! k = Some x) as Hfirst
      by (intros x y; unfold k; by rewrite lookup_app_r, Nat.sub_diag).
    assert (∀ (x y : Abuse.filer), (calls ++ [x; y]) !! S k = Some y) as Hsecond.
    { intros x y. unfold k. rewrite lookup_app_r by lia.
      by replace (S (length calls) - length calls)%nat with 1%nat by lia. }
    assert (∀ (x : Abuse.filer), (calls ++ [x]) !! k = Some x) as Honly
      by (intros x; unfold k; by rewrite lookup_app_r, Nat.sub_diag).
    assert (Abuse.resumeReport
              (Abuse.set_filing (Abuse.set_filing st (calls ++ [Abuse.AwaitRead r1]))
                 (calls ++ [Abuse.AwaitRead r1; Abuse.AwaitRead r2])) k true
            = Abuse.set_filing st
                (calls ++ [Abuse.AwaitWrite (file ++ [r1]); Abuse.AwaitRead r2])) as ->.
    { erewrite resumeReport_read by apply Hfirst.
      cbn [Abuse.filing Abuse.set_filing Abuse.abuseFile]. cbv zeta. fold file.
      rewrite Hfit. unfold k. by rewrite insert_app_r_alt, Nat.sub_diag. }
    assert (Abuse.resumeReport
              (Abuse.set_filing st
                 (calls ++ [Abuse.AwaitWrite (file ++ [r1]); Abuse.AwaitRead r2])) (S k) true
            = Abuse.set_filing st
                (calls ++ [Abuse.AwaitWrite (file ++ [r1]); Abuse.AwaitWrite (file ++ [r2])]))
      as ->.
    { erewrite resumeReport_read by apply Hsecond.
      cbn [Abuse.filing Abuse.set_filing Abuse.abuseFile]. cbv zeta. fold file.
      rewrite Hfit. unfold k. rewrite insert_app_r_alt by lia.
      by replace (S (length calls) - length calls)%nat with 1%nat by lia. }
    assert (Abuse.resumeReport
              (Abuse.set_filing st
                 (calls ++ [Abuse.AwaitWrite (file ++ [r1]); Abuse.AwaitWrite (file ++ [r2])]))
              k true
            = Abuse.set_filing (Abuse.set_abuseFile st (file ++ [r1]))
                (calls ++ [Abuse.AwaitWrite (file ++ [r2])])) as ->.
    { erewrite resumeReport_write by apply Hfirst.
      cbn [Abuse.filing Abuse.set_filing]. unfold k. by rewrite delete_middle. }
    assert (Abuse.resumeReport
              (Abuse.set_filing (Abuse.set_abuseFile st (file ++ [r1]))
                 (calls ++ [Abuse.AwaitWrite (file ++ [r2])])) k true
            = Abuse.set_filing (Abuse.set_abuseFile st (file ++ [r2])) calls) as ->.
    { erewrite resumeReport_write by apply Honly.
      cbn [Abuse.filing Abuse.set_filing]. unfold k. by rewrite delete_middle, app_nil_r. }
    done.
  - intros now st ip reason meta k st'. unfold st', Abuse.reportAbuse.
    fold (reportOf now ip reason meta).
    erewrite (resumeReport_read _ k _ false)
      by (cbn [Abuse.filing Abuse.set_filing]; apply reportAbuse_last).
    erewrite resumeReport_write
      by (cbn [Abuse.filing Abuse.set_filing]; apply list_lookup_insert_eq;
          rewrite length_app; simpl; unfold k; lia).
    cbn [Abuse.filing Abuse.set_filing Abuse.set_abuseFile Abuse.abuseFile]. cbv zeta.
    rewrite bool_decide_eq_false_2 by (simpl; lia).
    unfold k. by rewrite delete_insert_same, delete_middle, app_nil_r.
Qed.

(** X18.  [GET /admin/abuse] lists the reports most recent first: the 50
    latest when the limit is missing, not a number or 0, the [n] latest for
    a limit [n > 0]; for a limit [n < 0] it lists all reports but the [-n]
    oldest.  The total of its summary is the number of reports listed, and
    the three severity counts add up to it. *)
Theorem admin_abuse_recent_first (a : Abuse.state) (limit : option Z) :
  let '(reports, s) := Gateway.admin_abuse a limit in
  Gateway.total s = length reports
  ∧ Gateway.total s
    = (Gateway.highSeverity s + Gateway.mediumSeverity s + Gateway.lowSeverity s)%nat
  ∧ (limit = None ∨ limit = Some 0 → reports = take 50 (reverse (Abuse.abuseFile a)))
  ∧ (∀ n, limit = Some n → 0 < n →
       reports = take (Z.to_nat n) (reverse (Abuse.abuseFile a)))
  ∧ (∀ n, limit = Some n → n < 0 →
       reports = reverse (drop (Z.to_nat (- n)) (Abuse.abuseFile a))).
Proof.
  unfold Gateway.admin_abuse. cbv zeta. split; [done|]. split; [apply severity_counts|].
  unfold Abuse.getRecentAbuse. split; [|split].
  - intros [->| ->]; by rewrite slice_tail.
  - intros n -> Hn. destruct n; try lia. by rewrite slice_tail.
  - intros n -> Hn. destruct n; try lia. by rewrite slice_head.
Qed.

(** Rewrites the caller's windows and the access log through the limiter's
    recording operations. *)
Ltac windows :=
  cbn [Gateway.abuse Gateway.set_abuse Gateway.set_blacklist];
  repeat first
    [ rewrite (proj1 (recordFailure_window _ _ _ _))
    | rewrite (proj2 (recordFailure_window _ _ _ _))
    | rewrite (proj1 (recordRequest_window _ _ _ _))
    | rewrite (proj2 (recordRequest_window _ _ _ _))
    | rewrite (proj1 (logRequest_window _ _ _ _ _ _))
    | rewrite (proj2 (logRequest_window _ _ _ _ _ EmptyString)) ];
  cbn [Abuse.requests Abuse.failures].

(** Exhibits the reply of a handler that has answered and settles what its
    status rules out. *)
Ltac replied :=
  eexists; split; [reflexivity|]; cbn [Gateway.status Gateway.reply];
  split; [repeat first [apply list_elem_of_here | apply list_elem_of_further]|];
  repeat split; intros; try discriminate; try (by destruct_or!).

(** X19.  The tally of a [POST /test-scrape] served alone, its validation
    settled at [now2] and its extraction at [now3].  The request is always
    answered, with 403, 429, 400, 200 or 500.  A 403 changes nothing.  A 429
    or a 400 adds one failure to the caller's window as the rate check pruned
    it, no request, and no line to the access log.  A 200 adds one request,
    no failure, and one log line marked successful.  A 500 adds one request
    and one failure, and one log line marked unsuccessful. *)
Theorem test_scrape_accounting (parseURL : string → option URL) (now now2 now3 : Z)
    (w : Gateway.world) (ip : string) (b : Gateway.body)
    (f : Blacklist.fetched) (x : Gateway.scraped) :
  let before := windowAt now (Gateway.abuse w) ip in
  let '(w', _, n) :=
    Gateway.serve_test parseURL now w ip b
      [(now2, Gateway.Fetched f); (now3, Gateway.Scraped x)] in
  let after := ipEntry (Gateway.abuse w') (Abuse.ipKey ip) in
  let log := Abuse.logFile (Gateway.abuse w') in
  ∃ r, n = Gateway.Reply r
       ∧ Gateway.status r ∈ [403; 429; 400; 200; 500]
       ∧ (Gateway.status r = 403 → w' = w)
       ∧ (Gateway.status r = 429 ∨ Gateway.status r = 400 →
          Abuse.requests after = Abuse.requests before
          ∧ (Abuse.failures after = Abuse.failures before ++ [now]
             ∨ Abuse.failures after = Abuse.failures before ++ [now2])
          ∧ log = Abuse.logFile (Gateway.abuse w))
       ∧ (Gateway.status r = 200 →
          Abuse.requests after = Abuse.requests before ++ [now2]
          ∧ Abuse.failures after = Abuse.failures before
          ∧ log = Abuse.logFile (Gateway.abuse w) ++ [logged now3 ip b true])
       ∧ (Gateway.status r = 500 →
          Abuse.requests after = Abuse.requests before ++ [now2]
          ∧ Abuse.failures after = Abuse.failures before ++ [now3]
          ∧ log = Abuse.logFile (Gateway.abuse w) ++ [logged now3 ip b false]).
Proof.
  intros before. unfold Gateway.serve_test, Gateway.test_begin.
  destruct (Abuse.checkIPStatus (Gateway.abuse w) ip) eqn:Hst.
  { simpl. eexists. split; [done|]. simpl.
    split; [apply list_elem_of_here|]. repeat split; try done; intros; discriminate || lia. }
  all: pose proof (checkRateLimit_window now (Gateway.abuse w) ip
                  (Abuse.extractDomain parseURL <$> JS.truthy (Gateway.url b))) as [Hwin Hlog].
  all: destruct (Abuse.checkRateLimit _ _ _ _) as [a rl]; simpl in Hwin, Hlog.
  all: destruct (negb (Abuse.allowed rl)).
  all: cbn [Gateway.drive Gateway.then_ Gateway.after Gateway.calls].
  1,3: replied; windows; rewrite ?Hwin, ?Hlog; auto.
  all: destruct (JS.truthy (Gateway.url b)) as [u|] eqn:Hu; cbn [fmap option_fmap option_map].
  2,4: cbn [Gateway.drive Gateway.then_ Gateway.after Gateway.calls];
       replied; windows; rewrite ?Hwin, ?Hlog; auto.
  all: assert (Gateway.url b = Some u) as Hurl
         by (destruct (Gateway.url b) as [[|]|]; simpl in Hu; congruence).
  all: cbn [Gateway.drive Gateway.then_ Gateway.after Gateway.calls Gateway.resume].
  all: unfold Gateway.test_validated.
  all: destruct (Gateway.validateUrlEnhanced _ _ _ _ _) as [bl v].
  all: destruct (negb (Gateway.valid v)).
  all: cbn [Gateway.drive Gateway.then_ Gateway.after Gateway.calls Gateway.resume].
  1,3: replied; windows; rewrite ?Hwin, ?Hlog; auto.
  all: destruct x as [data|err|msg]; cbn [Gateway.test_settle];
       cbn [Gateway.drive Gateway.then_ Gateway.after Gateway.calls Gateway.resume].
  all: replied; windows; rewrite ?Hwin, ?Hlog; unfold logged; rewrite ?Hurl; auto.
Qed.

Section ServedAlike.
Import Gateway.
Variable parseURL : string → option URL.

Lemma test_begin_flags (now : Z) (w w' : world) (ip : string) (b : body) :
  sameButFlagsOf w w' →
  then_ (test_begin parseURL now w' ip b) = then_ (test_begin parseURL now w ip b)
  ∧ calls (test_begin parseURL now w' ip b) = calls (test_begin parseURL now w ip b)
  ∧ sameButFlagsOf (after (test_begin parseURL now w ip b))
                   (after (test_begin parseURL now w' ip b)).
Proof.
  intros (Hc & Hb & Ha). pose proof (sameButFlags_inv _ _ Ha) as Ha'.
  destruct w as [c a bl], w' as [c' a' bl']. simpl in *. subst c' bl'.
  rewrite Ha'. clear Ha'. generalize (Abuse.suspiciousIPs a'). intros flags. clear Ha a'.
  unfold test_begin. cbn [abuse].
  assert (Abuse.checkIPStatus (Abuse.set_suspiciousIPs a flags) ip = Abuse.Banned
          ↔ Abuse.checkIPStatus a ip = Abuse.Banned) as Hban.
  { unfold Abuse.checkIPStatus. simpl. case_bool_decide; [done|].
    repeat case_bool_decide; done. }
  pose proof (checkRateLimit_flags now a ip
                (Abuse.extractDomain parseURL <$> JS.truthy (url b)) flags) as [Hr Hs].
  destruct (Abuse.checkRateLimit now a ip _) as [a1 r1].
  destruct (Abuse.checkRateLimit now (Abuse.set_suspiciousIPs a flags) ip _) as [a2 r2].
  simpl in Hr, Hs. subst r2. pose proof (sameButFlags_inv _ _ Hs) as ->.
  assert (∀ reason, sameButFlags (Abuse.recordFailure now a1 ip reason)
            (Abuse.recordFailure now (Abuse.set_suspiciousIPs a1 (Abuse.suspiciousIPs a2))
               ip reason)) as Hf by (intros; apply recordFailure_flags).
  destruct (Abuse.checkIPStatus a ip) eqn:E1,
           (Abuse.checkIPStatus (Abuse.set_suspiciousIPs a flags) ip) eqn:E2;
    try (by destruct Hban as [H1 H2]; first [discriminate (H1 eq_refl)|discriminate (H2 eq_refl)]).
  1: { simpl. by repeat split. }
  all: destruct (negb (Abuse.allowed r1)); [simpl; by repeat split|];
       destruct (JS.truthy (url b)); simpl; by repeat split.
Qed.

Lemma resume_flags (now : Z) (w w' : world) (p : pending) (x : answer) :
  sameButFlagsOf w w' →
  then_ (resume parseURL now w' p x) = then_ (resume parseURL now w p x)
  ∧ calls (resume parseURL now w' p x) = calls (resume parseURL now w p x)
  ∧ sameButFlagsOf (after (resume parseURL now w p x))
                   (after (resume parseURL now w' p x)).
Proof.
  intros (Hc & Hb & Ha). pose proof (sameButFlags_inv _ _ Ha) as Ha'.
  destruct w as [c a bl], w' as [c' a' bl']. simpl in *. subst c' bl'.
  rewrite Ha'. clear Ha'. generalize (Abuse.suspiciousIPs a'). intros flags. clear Ha a'.
  destruct p as [url tok tier rem ct|ip url domain|ip url], x as [f|[d|err|msg]];
    simpl; try (by repeat split).
  unfold test_validated. cbn [blacklist]. destruct (validateUrlEnhanced _ _ _ _ _) as [bl1 v].
  destruct (negb (valid v)); simpl; (split; [done|]); (split; [done|]);
    (split; [done|]); (split; [done|]).
  - apply recordFailure_flags.
  - apply recordRequest_flags.
Qed.

End ServedAlike.

(** X20.  The suspicious flag has no effect on how [POST /test-scrape]
    serves: whatever the suspicious set holds, the request, served alone
    with the same answers of its collaborators, makes the same calls, ends
    with the same reply (or at the same await), and leaves the same token
    table, gate state, windows, ban set, report file and access log. *)
Theorem suspicious_is_served_like_clean (parseURL : string → option URL) (now : Z)
    (w : Gateway.world) (ip : string) (b : Gateway.body)
    (answers : list (Z * Gateway.answer)) (flags : gset string) :
  let w' := Gateway.set_abuse w (Abuse.set_suspiciousIPs (Gateway.abuse w) flags) in
  let '(w1, log1, n1) := Gateway.serve_test parseURL now w ip b answers in
  let '(w2, log2, n2) := Gateway.serve_test parseURL now w' ip b answers in
  n2 = n1 ∧ log2 = log1 ∧ sameButFlagsOf w1 w2.
Proof.
  intros w'. unfold Gateway.serve_test.
  assert (sameButFlagsOf w w') as Hw by (by repeat split).
  destruct (test_begin_flags parseURL now w w' ip b Hw) as (-> & -> & Hw').
  generalize (Gateway.calls (Gateway.test_begin parseURL now w ip b)) as log.
  generalize (Gateway.then_ (Gateway.test_begin parseURL now w ip b)) as n.
  revert Hw'.
  generalize (Gateway.after (Gateway.test_begin parseURL now w ip b)) as v.
  generalize (Gateway.after (Gateway.test_begin parseURL now w' ip b)) as v'.
  clear. intros v' v Hv n log. revert v v' log n Hv.
  induction answers as [|[now x] rest IH]; intros v v' log n Hv.
  - simpl. by destruct n.
  - destruct n as [r|p]; [by simpl|].
    change (Gateway.drive parseURL v log (Gateway.Await p) ((now, x) :: rest))
      with (Gateway.drive parseURL (Gateway.after (Gateway.resume parseURL now v p x))
              (log ++ Gateway.calls (Gateway.resume parseURL now v p x))
              (Gateway.then_ (Gateway.resume parseURL now v p x)) rest).
    change (Gateway.drive parseURL v' log (Gateway.Await p) ((now, x) :: rest))
      with (Gateway.drive parseURL (Gateway.after (Gateway.resume parseURL now v' p x))
              (log ++ Gateway.calls (Gateway.resume parseURL now v' p x))
              (Gateway.then_ (Gateway.resume parseURL now v' p x)) rest).
    destruct (resume_flags parseURL now v v' p x Hv) as (-> & -> & Hv').
    by apply IH.
Qed.

(* ===================================================================== *)
(** ** Legality gate: the blacklist file, the robots.txt cache *)
(* ===================================================================== *)

Section GateFacts.
Import JS Blacklist.

Lemma staticBlacklist_NoDup : NoDup staticBlacklist.
Proof. apply (bool_decide_unpack (NoDup staticBlacklist)). vm_compute. exact I. Qed.

Lemma filter_split_length {A} (P : A → Prop) `{!∀ x, Decision (P x)} (l : list A) :
  (length (filter P l) + length (filter (λ x, ¬ P x) l) = length l)%nat.
Proof.
  induction l as [|x l IH]; [done|]. rewrite !filter_cons.
  destruct (decide (P x)).
  - rewrite decide_False by tauto. simpl. lia.
  - rewrite decide_True by done. simpl. lia.
Qed.

(** The static entries and the entries saved make up the set. *)
Lemma saved_length (st : state) :
  keepsStatic st →
  (length staticBlacklist + length (saveBlacklist st) = size (domains st))%nat.
Proof.
  intros Hst. unfold saveBlacklist.
  change (size (domains st)) with (length (elements (domains st))).
  rewrite <- (filter_split_length (λ d, d ∈ staticBlacklist) (elements (domains st))).
  f_equal. apply Permutation_length. symmetry.
  apply NoDup_Permutation.
  - apply NoDup_filter, NoDup_elements.
  - apply staticBlacklist_NoDup.
  - intros d. rewrite list_elem_of_filter, elem_of_elements. split; [tauto|].
    intros Hd. split; [done|by apply Hst].
Qed.

Lemma checkParents_mono (D D' : gset string) (parts : list string) :
  D ⊆ D' → is_Some (checkParents D parts) → is_Some (checkParents D' parts).
Proof.
  intros Hsub. rewrite !checkParents_spec. intros (l & H1 & H2 & H3).
  exists l. split; [done|]. split; [done|]. by apply Hsub.
Qed.

Lemma status_match {A} (code : Z) (a b : A) :
  match code with 200 => a | _ => b end = if decide (code = 200) then a else b.
Proof.
  case_decide as H; [by subst|].
  destruct code as [|p|p]; try done.
  repeat (destruct p as [p|p|]; try done).
Qed.

(** A fresh cached result is returned as it is. *)
Lemma checkRobotsTxt_hit (parseURL : string → option URL) (now : Z) (st : state)
    (url : string) (u : URL) (answer : fetched) (c : cached) :
  parseURL url = Some u →
  robotsCache st !! toLowerCase (hostname u) = Some c →
  now - timestamp c < day →
  checkRobotsTxt parseURL now st url answer = (st, Returned (result c)).
Proof.
  intros Hu Hc Hfresh. unfold checkRobotsTxt. rewrite Hu. cbv zeta. rewrite Hc.
  by rewrite bool_decide_eq_true_2.
Qed.

(** Without a fresh cached result the request decides; only an answer of
    the server is cached. *)
Lemma checkRobotsTxt_miss (parseURL : string → option URL) (now : Z) (st : state)
    (url : string) (u : URL) (answer : fetched) :
  parseURL url = Some u →
  stale now st (toLowerCase (hostname u)) →
  checkRobotsTxt parseURL now st url answer
  = if decide (protocol u = "https:")
    then (if answered answer
          then renewed st (toLowerCase (hostname u)) (robotsOf answer (pathname u)) now
          else st,
          Returned (robotsOf answer (pathname u)))
    else (st, Threw (invalidProtocol (protocol u))).
Proof.
  intros Hu Hstale. unfold checkRobotsTxt. rewrite Hu. cbv zeta.
  assert (match robotsCache st !! toLowerCase (hostname u) with
          | Some c => bool_decide (now - timestamp c < day)
          | None => false
          end = false) as Hmiss.
  { destruct (robotsCache st !! _) as [c|] eqn:Hc; [|done].
    apply bool_decide_eq_false_2. by apply Hstale. }
  assert ((if negb (bool_decide (protocol u = "https:"))
           then (st, Threw (invalidProtocol (protocol u)))
           else
             match answer with
             | Status 200 =>
                 ({| domains := domains st;
                     robotsCache :=
                       <[toLowerCase (hostname u) :=
                           {| result := parseRobotsTxt EmptyString (pathname u);
                              timestamp := now |}]> (robotsCache st) |},
                  Returned (parseRobotsTxt EmptyString (pathname u)))
             | Status _ =>
                 ({| domains := domains st;
                     robotsCache :=
                       <[toLowerCase (hostname u) :=
                           {| result := plain "No robots.txt found";
                              timestamp := now |}]> (robotsCache st) |},
                  Returned (plain "No robots.txt found"))
             | Body data =>
                 ({| domains := domains st;
                     robotsCache :=
                       <[toLowerCase (hostname u) :=
                           {| result := parseRobotsTxt data (pathname u);
                              timestamp := now |}]> (robotsCache st) |},
                  Returned (parseRobotsTxt data (pathname u)))
             | NetError => (st, Returned (plain "robots.txt check failed"))
             | TimedOut => (st, Returned (plain "robots.txt timeout"))
             end)
          = if decide (protocol u = "https:")
            then (if answered answer
                  then renewed st (toLowerCase (hostname u)) (robotsOf answer (pathname u)) now
                  else st,
                  Returned (robotsOf answer (pathname u)))
            else (st, Threw (invalidProtocol (protocol u)))) as Hfetch.
  { case_decide as Hp;
      [rewrite bool_decide_eq_true_2 by done|by rewrite bool_decide_eq_false_2].
    cbn [negb]. destruct answer as [code|data| |]; try done.
    rewrite status_match. unfold robotsOf, answered, renewed. by case_decide. }
  destruct (robotsCache st !! toLowerCase (hostname u)) as [c|]; [rewrite Hmiss|];
    exact Hfetch.
Qed.

Lemma lower_ascii_idemp (c : ascii) : lower_ascii (lower_ascii c) = lower_ascii c.
Proof. destruct c as [[] [] [] [] [] [] [] []]; vm_compute; reflexivity. Qed.

Lemma lower_ascii_space (c : ascii) : Ascii.is_space (lower_ascii c) = Ascii.is_space c.
Proof. destruct c as [[] [] [] [] [] [] [] []]; vm_compute; reflexivity. Qed.

Lemma lower_ascii_colon (c : ascii) : lower_ascii c = ":"%char ↔ c = ":"%char.
Proof. destruct c as [[] [] [] [] [] [] [] []]; vm_compute; split; congruence. Qed.

Lemma toLowerCase_idemp (s : string) : toLowerCase (toLowerCase s) = toLowerCase s.
Proof. induction s as [|c s IH]; [done|]. simpl. by rewrite lower_ascii_idemp, IH. Qed.

Lemma toLowerCase_rev_app (a b : string) :
  toLowerCase (String.rev_app a b) = String.rev_app (toLowerCase a) (toLowerCase b).
Proof. revert b. induction a as [|c a IH]; intros b; [done|]. simpl. by rewrite IH. Qed.

Lemma toLowerCase_trimStart (s : string) :
  toLowerCase (trimStart s) = trimStart (toLowerCase s).
Proof.
  induction s as [|c s IH]; [done|]. simpl. rewrite lower_ascii_space.
  by destruct (Ascii.is_space c).
Qed.

Lemma toLowerCase_trim (s : string) : toLowerCase (trim s) = trim (toLowerCase s).
Proof.
  unfold trim, String.rev.
  by rewrite toLowerCase_rev_app, toLowerCase_trimStart, toLowerCase_rev_app,
    toLowerCase_trimStart.
Qed.

Lemma toLowerCase_split (s : string) :
  split ":" (toLowerCase s) = toLowerCase <$> split ":" s.
Proof.
  induction s as [|c s IH]; [done|]. simpl.
  destruct (decide (c = ":"%char)) as [->|Hc].
  - simpl. by rewrite IH.
  - rewrite decide_False by (by rewrite lower_ascii_colon). rewrite IH.
    by destruct (split ":" s).
Qed.

Lemma toLowerCase_field (line : string) :
  toLowerCase (field line) = field (toLowerCase line).
Proof.
  unfold field. rewrite toLowerCase_trim, toLowerCase_split, list_lookup_fmap.
  by destruct (split ":" line !! 1%nat).
Qed.

(** A lower-case rule matches a path that begins with a capital after the
    slash exactly when it matches the root path. *)
Lemma disallows_capital (d : string) (c : ascii) (rest : string) :
  toLowerCase d = d → lower_ascii c ≠ c →
  disallows d (String "/" (String c rest)) = disallows d "/".
Proof.
  intros Hd Hc. unfold disallows.
  case_bool_decide as Hroot; [done|]. simpl.
  destruct d as [|a [|a2 d]]; [done| |].
  - simpl. by destruct (decide (a = "/"%char)) as [->|].
  - simpl. destruct (decide (a = "/"%char)); [|done].
    rewrite decide_False; [done|]. intros ->. simpl in Hd. congruence.
Qed.

Lemma scan_capital (c : ascii) (rest : string) (lines : list string) :
  lower_ascii c ≠ c →
  Forall (λ line, toLowerCase line = line) lines →
  ∀ cur, scan (String "/" (String c rest)) cur lines = scan "/" cur lines.
Proof.
  intros Hc. induction 1 as [|line lines Hline _ IH]; intros cur; [done|].
  cbn [scan]. cbv zeta.
  rewrite (disallows_capital (field line) c rest);
    [|by rewrite toLowerCase_field, Hline|done].
  by rewrite !IH.
Qed.

End GateFacts.

(** X21.  The blacklist file round-trips.  The set always holds the static
    entries: [loadBlacklist] puts them there and [addDomain] keeps them.  On
    such a set [saveBlacklist] writes exactly the entries that are not
    static, each once; loading what it wrote gives the set back; and the
    number of entries written is what [getStats] reports as
    [dynamicDomains]. *)
Theorem blacklist_file_round_trip :
  (∀ dynamic, keepsStatic (Blacklist.loadBlacklist dynamic))
  ∧ (∀ st d, keepsStatic st → keepsStatic (Blacklist.addDomain st d))
  ∧ (∀ st, keepsStatic st →
       Blacklist.domains (Blacklist.loadBlacklist (Blacklist.saveBlacklist st))
       = Blacklist.domains st
       ∧ Forall (λ d, d ∉ Blacklist.staticBlacklist) (Blacklist.saveBlacklist st)
       ∧ NoDup (Blacklist.saveBlacklist st)
       ∧ Blacklist.dynamicDomains (Blacklist.getStats st)
         = Z.of_nat (length (Blacklist.saveBlacklist st))).
Proof.
  split; [|split].
  - intros dynamic d Hd. unfold Blacklist.loadBlacklist. cbn [Blacklist.domains].
    apply elem_of_list_to_set, elem_of_app. by left.
  - intros st d Hst x Hx. unfold Blacklist.addDomain. cbn [Blacklist.domains].
    apply elem_of_union_r. by apply Hst.
  - intros st Hst. split; [|split; [|split]].
    + unfold Blacklist.loadBlacklist, Blacklist.saveBlacklist. cbn [Blacklist.domains].
      apply set_eq. intros d.
      rewrite elem_of_list_to_set, elem_of_app, list_elem_of_filter, elem_of_elements.
      split.
      * intros [Hd|[_ Hd]]; [by apply Hst|done].
      * intros Hd. destruct (decide (d ∈ Blacklist.staticBlacklist)); [by left|by right].
    + apply Forall_forall. intros d. unfold Blacklist.saveBlacklist.
      by intros [? _]%list_elem_of_filter.
    + apply NoDup_filter, NoDup_elements.
    + unfold Blacklist.getStats. cbn [Blacklist.dynamicDomains].
      rewrite <- (saved_length st Hst). lia.
Qed.

(** X22.  [addDomain] adds the lower-cased domain to the set and leaves the
    robots.txt cache alone.  From then on every URL whose lower-cased
    hostname is that domain is reported blocked for being in the blacklist;
    and no URL that was blocked before is let through after. *)
Theorem addDomain_blocks_and_never_unblocks (parseURL : string → option URL)
    (st : Blacklist.state) (d url : string) :
  Blacklist.domains (Blacklist.addDomain st d)
  = {[JS.toLowerCase d]} ∪ Blacklist.domains st
  ∧ Blacklist.robotsCache (Blacklist.addDomain st d) = Blacklist.robotsCache st
  ∧ (∀ u, parseURL url = Some u →
          JS.toLowerCase (hostname u) = JS.toLowerCase d →
          Blacklist.isBlacklisted parseURL (Blacklist.addDomain st d) url
          = Blacklist.Blocked "Domain in blacklist" (Some (JS.toLowerCase d)))
  ∧ (Blacklist.blocked (Blacklist.isBlacklisted parseURL st url) = true →
     Blacklist.blocked (Blacklist.isBlacklisted parseURL (Blacklist.addDomain st d) url)
     = true).
Proof.
  split; [done|]. split; [done|]. split.
  - intros u Hu Hd. unfold Blacklist.isBlacklisted. rewrite Hu. cbv zeta. rewrite Hd.
    rewrite bool_decide_eq_true_2; [done|].
    simpl. apply elem_of_union_l, elem_of_singleton. done.
  - unfold Blacklist.isBlacklisted. destruct (parseURL url) as [u|]; [|done]. cbv zeta.
    case_bool_decide as Hin.
    + intros _. rewrite bool_decide_eq_true_2; [done|]. simpl. by apply elem_of_union_r.
    + destruct (Blacklist.checkParents (Blacklist.domains st) _) as [p|] eqn:Hp; [|done].
      intros _. case_bool_decide; [done|].
      destruct (checkParents_mono (Blacklist.domains st)
                  (Blacklist.domains (Blacklist.addDomain st d))
                  (JS.split "." (JS.toLowerCase (hostname u)))) as [p' Hp'].
      { simpl. apply union_subseteq_r. }
      { by rewrite Hp. }
      by rewrite Hp'.
Qed.

(** X23.  The robots.txt result is cached per host, not per path.  When a
    check of an https URL finds no result younger than a day for the host
    and the server answers, the result is the one derived from the answer
    for the path of that URL; and for the next 24 hours every check of any
    URL of that host, whatever its path or protocol and whatever a request
    would have come to, returns that same result and changes nothing. *)
Theorem robots_answer_cached_per_host (parseURL : string → option URL) (now now2 : Z)
    (st : Blacklist.state) (url1 url2 : string) (u1 u2 : URL)
    (answer1 answer2 : Blacklist.fetched) :
  parseURL url1 = Some u1 → parseURL url2 = Some u2 →
  JS.toLowerCase (hostname u2) = JS.toLowerCase (hostname u1) →
  protocol u1 = "https:" →
  stale now st (JS.toLowerCase (hostname u1)) →
  answered answer1 = true →
  now2 - now < Blacklist.day →
  let '(st1, o1) := Blacklist.checkRobotsTxt parseURL now st url1 answer1 in
  o1 = Blacklist.Returned (robotsOf answer1 (pathname u1))
  ∧ Blacklist.checkRobotsTxt parseURL now2 st1 url2 answer2
    = (st1, Blacklist.Returned (robotsOf answer1 (pathname u1))).
Proof.
  intros Hu1 Hu2 Hhost Hhttps Hstale Hans Hfresh.
  rewrite (checkRobotsTxt_miss parseURL now st url1 u1 answer1 Hu1 Hstale).
  rewrite decide_True by done. rewrite Hans. split; [done|].
  apply (checkRobotsTxt_hit parseURL now2 _ url2 u2 answer2
           {| Blacklist.result := robotsOf answer1 (pathname u1);
              Blacklist.timestamp := now |}); [done| |done].
  rewrite Hhost. apply lookup_insert_eq.
Qed.

Lemma robots_answer_cached_per_host_sample :
  let '(st1, o1) :=
    Blacklist.checkRobotsTxt sampleParse 1000 (Blacklist.loadBlacklist [])
      "https://example.org/a" (Blacklist.Body sampleRobots) in
  o1 = Blacklist.Returned (robotsOf (Blacklist.Body sampleRobots) "/a")
  ∧ Blacklist.checkRobotsTxt sampleParse 2000 st1 "https://example.org/c" Blacklist.NetError
    = (st1, Blacklist.Returned (robotsOf (Blacklist.Body sampleRobots) "/a")).
Proof.
  apply (robots_answer_cached_per_host sampleParse 1000 2000 (Blacklist.loadBlacklist [])
           "https://example.org/a" "https://example.org/c"
           {| protocol := "https:"; host := "example.org"; hostname := "example.org";
              pathname := "/a" |}
           {| protocol := "https:"; host := "example.org"; hostname := "example.org";
              pathname := "/c" |}
           (Blacklist.Body sampleRobots) Blacklist.NetError).
  - reflexivity.
  - reflexivity.
  - reflexivity.
  - reflexivity.
  - intros c Hc. cbn [Blacklist.robotsCache Blacklist.loadBlacklist] in Hc.
    by rewrite lookup_empty in Hc.
  - reflexivity.
  - reflexivity.
Defined.

(** X24.  The robots.txt stage fails open.  For an https URL that is not
    blacklisted and has no fresh cached result, [validateUrl] validates the
    URL whenever the request for robots.txt ends in a network error, a
    timeout or a status other than 200; after an error or a timeout nothing
    is cached. *)
Theorem robots_check_fails_open (parseURL : string → option URL) (now : Z)
    (st : Blacklist.state) (url : string) (u : URL) (answer : Blacklist.fetched) :
  parseURL url = Some u →
  protocol u = "https:" →
  Blacklist.isBlacklisted parseURL st url = Blacklist.NotBlocked →
  stale now st (JS.toLowerCase (hostname u)) →
  (∀ data, answer ≠ Blacklist.Body data) → answer ≠ Blacklist.Status 200 →
  ∃ st' why,
    Blacklist.validateUrl parseURL now st url answer
    = (st', Blacklist.Returned (Blacklist.Validated why))
    ∧ why ∈ ["No robots.txt found"; "robots.txt check failed"; "robots.txt timeout"]
    ∧ (answered answer = false → st' = st).
Proof.
  intros Hu Hhttps Hnot Hstale Hbody H200. unfold Blacklist.validateUrl.
  rewrite Hu, Hnot, (checkRobotsTxt_miss parseURL now st url u answer Hu Hstale).
  rewrite decide_True by done.
  destruct answer as [code|data| |]; simpl.
  - rewrite decide_False by congruence. simpl. eexists _, _. split; [done|].
    split; [apply list_elem_of_here|done].
  - by destruct (Hbody data).
  - eexists _, _. split; [done|].
    split; [apply list_elem_of_further, list_elem_of_here|done].
  - eexists _, _. split; [done|].
    split; [do 2 apply list_elem_of_further; apply list_elem_of_here|done].
Qed.

Lemma robots_check_fails_open_sample :
  ∃ st' why,
    Blacklist.validateUrl sampleParse 1000 (Blacklist.loadBlacklist [])
      "https://example.org/a" Blacklist.TimedOut
    = (st', Blacklist.Returned (Blacklist.Validated why))
    ∧ why ∈ ["No robots.txt found"; "robots.txt check failed"; "robots.txt timeout"]
    ∧ (answered Blacklist.TimedOut = false → st' = Blacklist.loadBlacklist []).
Proof.
  apply (robots_check_fails_open sampleParse 1000 (Blacklist.loadBlacklist [])
           "https://example.org/a"
           {| protocol := "https:"; host := "example.org"; hostname := "example.org";
              pathname := "/a" |} Blacklist.TimedOut).
  - reflexivity.
  - reflexivity.
  - vm_compute. reflexivity.
  - intros c Hc. cbn [Blacklist.robotsCache Blacklist.loadBlacklist] in Hc.
    by rewrite lookup_empty in Hc.
  - discriminate.
  - discriminate.
Defined.

(** X25.  [POST /test-scrape] refuses plain http.  For a URL with another
    protocol than https that is not blacklisted and has no fresh cached
    robots.txt result, the request for robots.txt is refused by the https
    client, the validation answers with that error, and the handler replies
    400 with it as the reason, records one failure for the caller and starts
    no extraction. *)
Theorem plain_http_is_refused (parseURL : string → option URL) (now : Z)
    (w : Gateway.world) (ip url domain : string) (u : URL) (answer : Blacklist.fetched) :
  parseURL url = Some u →
  protocol u ≠ "https:" →
  Blacklist.isBlacklisted parseURL (Gateway.blacklist w) url = Blacklist.NotBlocked →
  stale now (Gateway.blacklist w) (JS.toLowerCase (hostname u)) →
  let why := "Validation error: " +:+ Blacklist.invalidProtocol (protocol u) in
  let s := Gateway.test_validated parseURL now w ip url domain answer in
  (∃ r, Gateway.then_ s = Gateway.Reply r
        ∧ Gateway.status r = 400 ∧ Gateway.reason r = Some why)
  ∧ Gateway.calls s = [Gateway.RecordFailure why]
  ∧ Gateway.after s
    = Gateway.set_abuse w (Abuse.recordFailure now (Gateway.abuse w) ip why).
Proof.
  intros Hu Hhttp Hnot Hstale why s. unfold s, Gateway.test_validated,
    Gateway.validateUrlEnhanced, Blacklist.validateUrl.
  rewrite Hu, Hnot, (checkRobotsTxt_miss parseURL now _ url u answer Hu Hstale).
  rewrite decide_False by done. simpl. split; [by eexists|]. split; [done|].
  by destruct w.
Qed.

Lemma plain_http_is_refused_sample :
  let why := "Validation error: " +:+ Blacklist.invalidProtocol "http:" in
  let s := Gateway.test_validated httpParse 5000 sampleWorld sampleCaller
             "http://example.org/" "example.org" (Blacklist.Body sampleRobots) in
  (∃ r, Gateway.then_ s = Gateway.Reply r
        ∧ Gateway.status r = 400 ∧ Gateway.reason r = Some why)
  ∧ Gateway.calls s = [Gateway.RecordFailure why]
  ∧ Gateway.after s
    = Gateway.set_abuse sampleWorld
        (Abuse.recordFailure 5000 (Gateway.abuse sampleWorld) sampleCaller why).
Proof.
  apply (plain_http_is_refused httpParse 5000 sampleWorld sampleCaller
           "http://example.org/" "example.org"
           {| protocol := "http:"; host := "example.org"; hostname := "example.org";
              pathname := "/" |} (Blacklist.Body sampleRobots)).
  - reflexivity.
  - discriminate.
  - vm_compute. reflexivity.
  - intros c Hc. cbn in Hc. by rewrite lookup_empty in Hc.
Defined.

(** X26.  The rules of robots.txt are lower-cased, the path is not.  For a
    path that begins with a capital letter after the slash the gate's
    parser therefore answers what it answers for the root path: such a path
    is blocked only by a rule that disallows everything, and never by a rule
    for its own prefix. *)
Theorem robots_rules_miss_capitalised_paths (content : string) (c : ascii) (rest : string) :
  JS.lower_ascii c ≠ c →
  Blacklist.parseRobotsTxt content (String "/" (String c rest))
  = Blacklist.parseRobotsTxt content "/".
Proof.
  intros Hc. unfold Blacklist.parseRobotsTxt. cbv zeta.
  rewrite scan_capital; [done|done|].
  unfold Blacklist.robotsLines. apply Forall_fmap, Forall_forall. intros x _. simpl.
  apply toLowerCase_idemp.
Qed.

Lemma robots_rules_miss_capitalised_paths_sample :
  let content := "User-agent: *" +:+ newline +:+ "Disallow: /Admin" in
  Blacklist.allowed (Blacklist.parseRobotsTxt content "/admin/users") = false
  ∧ Blacklist.allowed (Blacklist.parseRobotsTxt content "/Admin/users") = true
  ∧ Blacklist.parseRobotsTxt content "/Admin/users" = Blacklist.parseRobotsTxt content "/".
Proof.
  intros content. split; [reflexivity|]. split; [reflexivity|].
  apply (robots_rules_miss_capitalised_paths content "A" "dmin/users").
  vm_compute. discriminate.
Defined.

(* ===================================================================== *)
(** ** Compliance report, the engine's robots.txt check, the other routes *)
(* ===================================================================== *)

(** X27.  The compliance report of a validation result, as the validation
    stage hands it over (returned, or thrown and caught).  Its status is
    APPROVED or BLOCKED_BLACKLIST and no other: APPROVED exactly for a
    validated URL, and then all four checks hold and only the three standing
    recommendations are given.  A blacklisted URL fails the blacklist check
    and gets all six recommendations.  A URL blocked by robots.txt is
    reported as BLOCKED_BLACKLIST although its blacklist check holds; its
    robots check fails and the robots.txt advice is given. *)
Theorem compliance_report_of_validation (now : Z) (url : string)
    (o : Blacklist.outcome Blacklist.validation) :
  let r := Legal.generateComplianceReport now url (Legal.resultOf o) in
  (Legal.r_status r = Legal.APPROVED ∨ Legal.r_status r = Legal.BLOCKED_BLACKLIST)
  ∧ (Legal.r_status r = Legal.APPROVED
     ↔ ∃ why, o = Blacklist.Returned (Blacklist.Validated why))
  ∧ (Legal.r_status r = Legal.APPROVED →
     Legal.r_checks r
     = {| Legal.urlFormat := true; Legal.blacklistCheck := true;
          Legal.robotsCheck := true; Legal.legalCompliance := true |}
     ∧ Legal.recommendations r = standingAdvice)
  ∧ (∀ why d, o = Blacklist.Returned (Blacklist.Blacklisted why d) →
       Legal.blacklistCheck (Legal.r_checks r) = false
       ∧ Legal.recommendations r = blacklistAdvice ++ robotsAdvice ++ standingAdvice)
  ∧ (∀ why, o = Blacklist.Returned (Blacklist.RobotsBlocked why) →
       ¬ occurs_in "Blacklisted" why →
       Legal.r_status r = Legal.BLOCKED_BLACKLIST
       ∧ Legal.blacklistCheck (Legal.r_checks r) = true
       ∧ Legal.robotsCheck (Legal.r_checks r) = false
       ∧ Legal.recommendations r = robotsAdvice ++ standingAdvice).
Proof.
  intros r. split; [|split; [|split; [|split]]].
  - unfold r, Legal.generateComplianceReport. simpl.
    destruct (Legal.valid _); [by left|by right].
  - unfold r. destruct o as [[| | |why]|msg]; simpl; split; try done;
      try (by intros [? [=]]). by eexists.
  - unfold r. destruct o as [[| | |why]|msg]; simpl; done.
  - intros why d ->. unfold r. simpl. done.
  - intros why -> Hnot. unfold r, Legal.generateComplianceReport. simpl.
    assert (JS.includes why "Blacklisted" = false) as ->.
    { apply not_true_is_false. by rewrite includes_spec. }
    done.
Qed.

Section EngineFacts.
Import JS.

Lemma engine_disallow_not_agent (s : string) :
  startsWith s "disallow:" = true → startsWith s "user-agent:" = false.
Proof.
  destruct s as [|c s]; [done|]. simpl.
  destruct (decide ("d"%char = c)) as [<-|]; [|done]. done.
Qed.

(** The engine's loop ends with a refusal exactly when it meets a matching
    [Disallow] line while a block of a matching user-agent is in force. *)
Lemma engine_scan_spec (pathname : string) (lines : list string) : ∀ cur,
  Scraper.scan pathname cur lines = false
  ↔ ∃ pre line post, lines = pre ++ line :: post
                     ∧ foldl engineEnter cur pre = true
                     ∧ engineForbids pathname line = true.
Proof.
  induction lines as [|l lines IH]; intros cur.
  - simpl. split; [done|]. intros (pre & line & post & H & _). by destruct pre.
  - cbn [Scraper.scan]. cbv zeta. fold (Blacklist.field (toLowerCase (trim l))).
    fold (engineEnter cur l).
    destruct (startsWith (toLowerCase (trim l)) "disallow:") eqn:Hdis.
    + assert (engineEnter cur l = cur) as Hcur.
      { unfold engineEnter. cbv zeta. by rewrite (engine_disallow_not_agent _ Hdis). }
      rewrite Hcur. destruct cur; simpl.
      * destruct (bool_decide _ || startsWith pathname _) eqn:Hforbid.
        -- split; [|done]. intros _. exists [], l, lines. split; [done|]. split; [done|].
           unfold engineForbids. cbv zeta. by rewrite Hdis.
        -- rewrite IH. split.
           ++ intros (pre & line & post & -> & H1 & H2). exists (l :: pre), line, post.
              split; [done|]. split; [|done]. simpl. by rewrite Hcur.
           ++ intros (pre & line & post & H & H1 & H2). destruct pre as [|x pre].
              ** simpl in H. injection H as <- <-. unfold engineForbids in H2.
                 cbv zeta in H2. rewrite Hdis, Hforbid in H2. done.
              ** simpl in H. injection H as <- ->. simpl in H1. rewrite Hcur in H1.
                 by exists pre, line, post.
      * rewrite IH. split.
        -- intros (pre & line & post & -> & H1 & H2). exists (l :: pre), line, post.
           split; [done|]. split; [|done]. simpl. by rewrite Hcur.
        -- intros (pre & line & post & H & H1 & H2). destruct pre as [|x pre].
           ** simpl in H1. done.
           ** simpl in H. injection H as <- ->. simpl in H1. rewrite Hcur in H1.
              by exists pre, line, post.
    + rewrite andb_false_r. rewrite IH. split.
      * intros (pre & line & post & -> & H1 & H2). exists (l :: pre), line, post.
        by split.
      * intros (pre & line & post & H & H1 & H2). destruct pre as [|x pre].
        -- simpl in H. injection H as <- <-. unfold engineForbids in H2.
           cbv zeta in H2. by rewrite Hdis in H2.
        -- simpl in H. injection H as <- ->. by exists pre, line, post.
Qed.

Lemma assoc_notin {A} (k : string) (l : list (string * A)) :
  k ∉ l.*1 → assoc k l = None.
Proof.
  induction l as [|[k' v] l IH]; [done|]. simpl. intros Hnot.
  apply not_elem_of_cons in Hnot as [Hne Hnot]. rewrite decide_False by done. by apply IH.
Qed.

(** [PRICING[tier]] is truthy for the three tiers and for the names every
    object literal inherits, and for nothing else. *)
Lemma pricing_truthy (t : string) :
  is_truthy (get Gateway.PRICING t)
  = bool_decide (t ∈ ["basic"; "premium"; "custom"] ∨ t ∈ object_prototype.*1).
Proof.
  destruct (decide (t ∈ ["basic"; "premium"; "custom"])) as [Hin|Hnot].
  { rewrite bool_decide_eq_true_2 by (by left).
    rewrite !elem_of_cons, elem_of_nil in Hin.
    destruct Hin as [->|[->|[->|[]]]]; reflexivity. }
  destruct (decide (t ∈ object_prototype.*1)) as [Hin|Hnot2].
  { rewrite bool_decide_eq_true_2 by (by right).
    unfold object_prototype in Hin. simpl in Hin. rewrite !elem_of_cons, elem_of_nil in Hin.
    destruct Hin as [->|[->|[->|[->|[->|[->|[->|[->|[->|[->|[->|[->|[]]]]]]]]]]]]];
      reflexivity. }
  rewrite bool_decide_eq_false_2 by tauto.
  unfold get. rewrite (assoc_notin t Gateway.PRICING) by done.
  by rewrite (assoc_notin t object_prototype).
Qed.

Lemma grant_never_default (t : string) :
  t ∈ ["basic"; "premium"; "custom"] ∨ t ∈ object_prototype.*1 →
  Credit.getCreditsForTier t ≠ VNumber (Num 1).
Proof.
  intros [Hin|Hin].
  - rewrite !elem_of_cons, elem_of_nil in Hin.
    destruct Hin as [->|[->|[->|[]]]]; vm_compute; discriminate.
  - unfold object_prototype in Hin. simpl in Hin. rewrite !elem_of_cons, elem_of_nil in Hin.
    destruct Hin as [->|[->|[->|[->|[->|[->|[->|[->|[->|[->|[->|[->|[]]]]]]]]]]]]];
      vm_compute; discriminate.
Qed.

End EngineFacts.

(** X28.  The extraction engine has a robots.txt check of its own.  It lets
    the URL through whenever the page for robots.txt could not be had or the
    URL does not parse.  On a page it refuses exactly when some [Disallow]
    line matches while the block of a user-agent line that contains "*" or
    "puppeteer" is in force, a line matching when its value is "/" or a
    prefix of the path.  The empty value is a prefix of every path: in such
    a block a bare "Disallow:" refuses every path, where the gate's parser
    takes the same line to forbid nothing. *)
Theorem engine_robots_rules (parseURL : string → option URL) (url : string)
    (page : Scraper.visited) :
  ((∀ content, page ≠ Scraper.Ok content) ∨ parseURL url = None →
   Scraper.allowed (Scraper.checkRobotsTxt parseURL url page) = true)
  ∧ (∀ u content, parseURL url = Some u → page = Scraper.Ok content →
       (Scraper.allowed (Scraper.checkRobotsTxt parseURL url page) = false
        ↔ ∃ pre line post,
            JS.split "010" content = pre ++ line :: post
            ∧ foldl engineEnter false pre = true
            ∧ engineForbids (pathname u) line = true))
  ∧ (∀ pathname line,
       JS.toLowerCase (JS.trim line) = "disallow:" →
       engineForbids pathname line = true
       ∧ forbids pathname (JS.toLowerCase (JS.trim line)) = false).
Proof.
  split; [|split].
  - intros [Hpage|Hurl]; unfold Scraper.checkRobotsTxt.
    + destruct (parseURL url); [|done]. destruct page as [content| |]; try done.
      by destruct (Hpage content).
    + by rewrite Hurl.
  - intros u content Hu ->. unfold Scraper.checkRobotsTxt. rewrite Hu. simpl.
    apply engine_scan_spec.
  - intros pathname line Hline. unfold engineForbids, forbids. cbv zeta. rewrite Hline.
    done.
Qed.

(** X29.  [POST /create-payment] sets the timer that issues a token only
    for a tier that is basic, premium or custom, or the name of a member
    every object literal inherits; for every other tier it answers 400 and
    issues nothing.  So no purchase made through this route is ever granted
    the one-credit fallback of [getCreditsForTier]. *)
Theorem create_payment_tiers (tier payment : option string) :
  let t := default "basic" tier in
  match Gateway.create_payment tier payment with
  | (Gateway.InvalidPricingTier, timer) =>
      timer = None
      ∧ (t ∉ ["basic"; "premium"; "custom"]) ∧ (t ∉ JS.object_prototype.*1)
  | (Gateway.PaymentProcessing paymentId tier', timer) =>
      payment = Some paymentId ∧ tier' = t
      ∧ timer = Some {| Credit.pd_tier := t; Credit.pd_paymentId := paymentId |}
      ∧ (t ∈ ["basic"; "premium"; "custom"] ∨ t ∈ JS.object_prototype.*1)
      ∧ Credit.getCreditsForTier t ≠ JS.VNumber (JS.Num 1)
  | (Gateway.PaymentError, timer) =>
      timer = None ∧ payment = None
      ∧ (t ∈ ["basic"; "premium"; "custom"] ∨ t ∈ JS.object_prototype.*1)
  end.
Proof.
  intros t. unfold Gateway.create_payment. fold t. cbv zeta. rewrite pricing_truthy.
  case_bool_decide as Hin.
  - cbn [negb]. destruct payment as [paymentId|]; [|done].
    repeat split; try done. by apply grant_never_default.
  - cbn [negb]. split; [done|]. tauto.
Qed.

(** X30.  The restricted-domain test of [POST /scrape] is a substring test:
    [isValidUrl] accepts a URL exactly when it parses and none of the ten
    restricted names occurs anywhere in its lower-cased hostname.  It thus
    refuses the restricted domains and their subdomains, and also every
    other host whose name merely contains one of the ten. *)
Theorem isValidUrl_refuses_by_substring (parseURL : string → option URL) (url : string) :
  Gateway.isValidUrl parseURL url = true
  ↔ ∃ u, parseURL url = Some u
         ∧ Forall (λ restricted, ¬ occurs_in restricted (JS.toLowerCase (hostname u)))
                  Gateway.RESTRICTED_DOMAINS.
Proof.
  unfold Gateway.isValidUrl. destruct (parseURL url) as [u|]; [|split; [done|by intros [? [? _]]]].
  cbv zeta. rewrite negb_true_iff. unfold JS.some. rewrite <- not_true_iff_false.
  rewrite existsb_exists. split.
  - intros Hnone. exists u. split; [done|]. apply Forall_forall. intros r Hr Hocc.
    apply Hnone. exists r. split; [by apply list_elem_of_In|]. apply orb_true_iff. left.
    by apply includes_spec.
  - intros (u' & [= <-] & Hall) (r & Hr & Hor). apply list_elem_of_In in Hr.
    rewrite Forall_forall in Hall.
    apply (Hall r Hr). apply orb_true_iff in Hor as [Hinc|Heq].
    + by apply includes_spec.
    + apply bool_decide_eq_true in Heq. rewrite Heq. exists EmptyString, EmptyString.
      change (r = r +:+ EmptyString). clear. induction r as [|c r IH]; [done|].
      by rewrite append_cons, <- IH.
Qed.
